(** * TileDB read-query core: the [Subarray] class

    A shallow embedding of [tiledb/sm/subarray/subarray.cc]: the layout-aware
    enumeration of the ranges of a subarray ([compute_range_offsets],
    [get_range_coords], [range_idx], [range_num]), range insertion
    ([add_range]), the unary tests, [cell_num], the result-size estimator and
    the four size queries.  Unsigned 64-bit arithmetic is carried out on [Z]
    with the wrap-around written out; the two [double] fields of a result
    size are exact rationals. *)

From Stdlib Require Import ZArith QArith Qround Lia List String SpecFloat.
From stdpp Require Import base option list gmap strings.

Local Open Scope Z_scope.

(** ** Machine integers *)

Definition UINT64_MAX : Z := 2 ^ 64 - 1.

(** Reduction of a mathematical result to a [uint64_t]. *)
Definition wrap64 (z : Z) : Z := z mod 2 ^ 64.

(** Reduction to a signed [w]-bit integer (two's complement). *)
Definition wrap_signed (w z : Z) : Z :=
  (z + 2 ^ (w - 1)) mod 2 ^ w - 2 ^ (w - 1).

(** ** Outcome of a run

    [AssertFail] is the [assert(false)] of the unreachable-layout branches,
    [Fault] an access outside a [std::vector] or a division by zero. *)

Inductive run (A : Type) : Type :=
  | Ret (a : A)
  | AssertFail
  | Fault.
Arguments Ret {A} a.
Arguments AssertFail {A}.
Arguments Fault {A}.

Definition run_bind {A B} (f : A -> run B) (m : run A) : run B :=
  match m with
  | Ret a => f a
  | AssertFail => AssertFail
  | Fault => Fault
  end.

#[global] Instance run_ret_inst : MRet run := fun _ a => Ret a.
#[global] Instance run_bind_inst : MBind run := fun _ _ f m => run_bind f m.

(** [v[i]] on a [std::vector]. *)
Definition at_ {A} (v : list A) (i : nat) : run A :=
  match v !! i with
  | Some x => Ret x
  | None => Fault
  end.

(** [for (unsigned i = lo; i < lo + n; ++i) body] *)
Fixpoint for_up {S} (n i : nat) (body : nat -> S -> run S) (s : S) : run S :=
  match n with
  | O => Ret s
  | Datatypes.S n' => s' ← body i s; for_up n' (Datatypes.S i) body s'
  end.

(** [for (unsigned i = hi;; --i) { body; if (i == 0) break; }] *)
Fixpoint for_down {S} (i : nat) (body : nat -> S -> run S) (s : S) : run S :=
  s' ← body i s;
  match i with
  | O => Ret s'
  | Datatypes.S i' => for_down i' body s'
  end.

(** ** Enumerations and scalars *)

Inductive Layout := ROW_MAJOR | COL_MAJOR | GLOBAL_ORDER | UNORDERED.

#[global] Instance Layout_eq_dec : EqDecision Layout.
Proof. solve_decision. Defined.

(** The ten coordinate types of the type switches, and two of the tags of
    the enumeration that the switches leave to their [default:] branch. *)
Inductive Datatype :=
  | INT8 | UINT8 | INT16 | UINT16 | INT32 | UINT32 | INT64 | UINT64
  | FLOAT32 | FLOAT64
  | CHAR | ANY.

#[global] Instance Datatype_eq_dec : EqDecision Datatype.
Proof. solve_decision. Defined.

Definition datatype_size (t : Datatype) : Z :=
  match t with
  | INT8 | UINT8 | CHAR | ANY => 1
  | INT16 | UINT16 => 2
  | INT32 | UINT32 | FLOAT32 => 4
  | INT64 | UINT64 | FLOAT64 => 8
  end.

(** [std::is_integral<T>::value] for the ten instantiations. *)
Definition is_integral (t : Datatype) : bool :=
  match t with
  | FLOAT32 | FLOAT64 => false
  | _ => true
  end.

(** A coordinate value: an integer of one of the eight integer types, or an
    IEEE 754 datum of [float] or [double]. *)
Inductive scalar :=
  | SInt (z : Z)
  | SFloat (f : spec_float).

(** Range of the values of each integer type. *)
Definition int_min (t : Datatype) : Z :=
  match t with
  | INT8 => - 2 ^ 7 | INT16 => - 2 ^ 15 | INT32 => - 2 ^ 31 | INT64 => - 2 ^ 63
  | _ => 0
  end.

Definition int_max (t : Datatype) : Z :=
  match t with
  | INT8 => 2 ^ 7 - 1 | INT16 => 2 ^ 15 - 1
  | INT32 => 2 ^ 31 - 1 | INT64 => 2 ^ 63 - 1
  | _ => 2 ^ (8 * datatype_size t) - 1
  end.

Definition has_type (t : Datatype) (v : scalar) : Prop :=
  match v with
  | SInt z => is_integral t = true /\ int_min t <= z <= int_max t
  | SFloat _ => is_integral t = false
  end.

(** [a < b] and [a > b] at a coordinate type; on IEEE data every comparison
    with a NaN is false. *)
Definition scalar_lt (a b : scalar) : bool :=
  match a, b with
  | SInt x, SInt y => x <? y
  | SFloat x, SFloat y => SFltb x y
  | _, _ => false
  end.

Definition scalar_gt (a b : scalar) : bool := scalar_lt b a.

(** [a == b] on values. *)
Definition scalar_eq (a b : scalar) : bool :=
  match a, b with
  | SInt x, SInt y => x =? y
  | SFloat x, SFloat y => SFeqb x y
  | _, _ => false
  end.

Definition scalar_isnan (a : scalar) : bool :=
  match a with
  | SFloat S754_nan => true
  | _ => false
  end.

(** *** Object representation

    The [8 * sizeof(T)] bits stored for a value, as an unsigned number
    (the little-endian reading of its bytes): two's complement for the
    integers, the IEEE 754 interchange encoding for [float] ([prec = 24],
    [emax = 128]) and [double] ([prec = 53], [emax = 1024]). *)

Definition float_bits (prec emax : Z) (f : spec_float) : Z :=
  let mw := prec - 1 in
  let ew := Z.log2 emax + 1 in
  let sign (s : bool) := if s then 2 ^ (mw + ew) else 0 in
  match f with
  | S754_zero s => sign s
  | S754_infinity s => sign s + (2 ^ ew - 1) * 2 ^ mw
  | S754_nan => (2 ^ ew - 1) * 2 ^ mw + 2 ^ (mw - 1)
  | S754_finite s m e =>
      if Z.pos m <? 2 ^ mw then sign s + Z.pos m
      else sign s + (e - emin prec emax + 1) * 2 ^ mw + (Z.pos m - 2 ^ mw)
  end.

Definition object_repr (t : Datatype) (v : scalar) : Z :=
  match v with
  | SInt z => z mod 2 ^ (8 * datatype_size t)
  | SFloat f =>
      match t with
      | FLOAT32 => float_bits 24 128 f
      | _ => float_bits 53 1024 f
      end
  end.

(** [std::memcmp(r, r + n, n) != 0] on the two halves [lo], [hi] of a range
    of type [t], with [n = range_size_ / 2 = sizeof(T)]: the halves differ
    in some byte exactly when their representations differ. *)
Definition memcmp_ne (t : Datatype) (lo hi : scalar) : bool :=
  negb (object_repr t lo =? object_repr t hi).

(** ** Status *)

Inductive Status :=
  | Ok
  | SubarrayError (msg : string).

#[global] Instance Status_eq_dec : EqDecision Status.
Proof. solve_decision. Defined.


(** ** Collaborators

    The array schema, the fragment metadata and the R-tree are external to
    [subarray.cc]; they enter as records of the values and functions that
    the class reads from them. *)

Record Attribute := {
  attr_name : string;
  attr_var_size : bool;
}.

Record ArraySchema := {
  dim_num : nat;
  domain_type : Datatype;
  (** [domain()]: [2 * dim_num] values, [lo] and [hi] of each dimension. *)
  domain : list scalar;
  cell_order : Layout;
  dense : bool;
  attributes : list Attribute;
  (** [cell_size(name)], for the attributes and for the coordinates. *)
  cell_size : string -> Z;
}.

(** [array_schema->attribute(name)]: the attribute of that name, or null. *)
Definition attribute (sch : ArraySchema) (name : string) : option Attribute :=
  List.find (fun a => bool_decide (attr_name a = name)) (attributes sch).

(** Modelled from the spec: the [TileOverlap] structure of the R-tree
    (its header is not among the sources): the fully covered tile-id
    intervals [[a, b]] and the partially covered tiles with their ratio. *)
Record TileOverlap := {
  tile_ranges_ : list (Z * Z);
  tiles_ : list (Z * Q);
}.

Record FragmentMetadata := {
  tile_size : string -> Z -> Z;
  tile_var_size : string -> Z -> Z;
  (** [rtree()->get_tile_overlap<T>(range)] *)
  rtree_get_tile_overlap : list (scalar * scalar) -> TileOverlap;
}.

Record Array := {
  array_schema : ArraySchema;
  fragment_metadata : list FragmentMetadata;
}.

(** ** Constants

    Modelled from the spec: the constants of [tiledb/sm/misc/constants]
    (not among the sources): the reserved name of the coordinates, the size
    of an offset entry of a var-sized attribute, and the amplification
    applied to the size estimates, which the spec bounds below by 1. *)
Definition coords : string := "__coords".
Definition cell_var_offset_size : Z := 8.
Definition est_result_size_amplification : Q := 1.

(** Modelled from the spec: [utils::math::safe_mul] (not among the
    sources): the product, or the sentinel [UINT64_MAX] when the product
    does not fit 64 bits. *)
Definition safe_mul (a b : Z) : Z :=
  if a * b <=? UINT64_MAX then a * b else UINT64_MAX.

(** ** Per-dimension range store *)

Module Ranges.

(** Modelled from the spec: the range store of one dimension (declared
    in subarray.h, not among the sources): the ordered [(lo, hi)] pairs
    of the dimension's type, and whether the store holds the default
    range only. *)
Record t := {
  type_ : Datatype;
  buffer_ : list (scalar * scalar);
  has_default_range_ : bool;
}.

Definition make (type : Datatype) : t :=
  {| type_ := type; buffer_ := []; has_default_range_ := false |}.

(** Bytes of one range: [2 * sizeof(T)]. *)
Definition range_size_ (r : t) : Z := 2 * datatype_size (type_ r).

(** Appends [range]; a non-default range added to a store that holds the
    default range replaces it. *)
Definition add_range (r : t) (range : scalar * scalar) (is_default : bool) : t :=
  if is_default then
    {| type_ := type_ r; buffer_ := buffer_ r ++ [range];
       has_default_range_ := true |}
  else if has_default_range_ r then
    {| type_ := type_ r; buffer_ := [range]; has_default_range_ := false |}
  else
    {| type_ := type_ r; buffer_ := buffer_ r ++ [range];
       has_default_range_ := false |}.

Definition get_range (r : t) (idx : Z) : run (scalar * scalar) :=
  at_ (buffer_ r) (Z.to_nat idx).

Definition range_num (r : t) : Z := Z.of_nat (length (buffer_ r)).

End Ranges.

(** ** Result sizes

    Modelled from the spec: the [ResultSize] structure (declared in
    subarray.h, not among the sources): four non-negative reals.  Every
    value the estimator stores is built from tile sizes and ratios by sums
    and products, so rationals carry them exactly. *)
Record ResultSize := {
  size_fixed_ : Q;
  size_var_ : Q;
  mem_size_fixed_ : Q;
  mem_size_var_ : Q;
}.

Definition ResultSize_zero : ResultSize :=
  {| size_fixed_ := 0; size_var_ := 0; mem_size_fixed_ := 0; mem_size_var_ := 0 |}.

(** ** The subarray *)

Record Subarray := {
  array_ : Array;
  layout_ : Layout;
  ranges_ : list Ranges.t;
  range_offsets_ : list Z;
  tile_overlap_ : list (list TileOverlap);
  est_result_size_ : gmap string ResultSize;
  result_est_size_computed_ : bool;
  tile_overlap_computed_ : bool;
}.

Definition schema (s : Subarray) : ArraySchema := array_schema (array_ s).

Definition set_ranges (s : Subarray) (rs : list Ranges.t) : Subarray :=
  {| array_ := array_ s; layout_ := layout_ s; ranges_ := rs;
     range_offsets_ := range_offsets_ s; tile_overlap_ := tile_overlap_ s;
     est_result_size_ := est_result_size_ s;
     result_est_size_computed_ := result_est_size_computed_ s;
     tile_overlap_computed_ := tile_overlap_computed_ s |}.

Definition set_range_offsets (s : Subarray) (offs : list Z) : Subarray :=
  {| array_ := array_ s; layout_ := layout_ s; ranges_ := ranges_ s;
     range_offsets_ := offs; tile_overlap_ := tile_overlap_ s;
     est_result_size_ := est_result_size_ s;
     result_est_size_computed_ := result_est_size_computed_ s;
     tile_overlap_computed_ := tile_overlap_computed_ s |}.

Definition set_tile_overlap (s : Subarray) (o : list (list TileOverlap)) : Subarray :=
  {| array_ := array_ s; layout_ := layout_ s; ranges_ := ranges_ s;
     range_offsets_ := range_offsets_ s; tile_overlap_ := o;
     est_result_size_ := est_result_size_ s;
     result_est_size_computed_ := result_est_size_computed_ s;
     tile_overlap_computed_ := tile_overlap_computed_ s |}.

Definition set_est_result_size (s : Subarray) (m : gmap string ResultSize) : Subarray :=
  {| array_ := array_ s; layout_ := layout_ s; ranges_ := ranges_ s;
     range_offsets_ := range_offsets_ s; tile_overlap_ := tile_overlap_ s;
     est_result_size_ := m;
     result_est_size_computed_ := result_est_size_computed_ s;
     tile_overlap_computed_ := tile_overlap_computed_ s |}.

Definition set_result_est_size_computed (s : Subarray) (b : bool) : Subarray :=
  {| array_ := array_ s; layout_ := layout_ s; ranges_ := ranges_ s;
     range_offsets_ := range_offsets_ s; tile_overlap_ := tile_overlap_ s;
     est_result_size_ := est_result_size_ s;
     result_est_size_computed_ := b;
     tile_overlap_computed_ := tile_overlap_computed_ s |}.

Definition set_tile_overlap_computed (s : Subarray) (b : bool) : Subarray :=
  {| array_ := array_ s; layout_ := layout_ s; ranges_ := ranges_ s;
     range_offsets_ := range_offsets_ s; tile_overlap_ := tile_overlap_ s;
     est_result_size_ := est_result_size_ s;
     result_est_size_computed_ := result_est_size_computed_ s;
     tile_overlap_computed_ := b |}.

(** [(layout_ == Layout::UNORDERED) ? cell_order : layout_] *)
Definition effective_layout (s : Subarray) : Layout :=
  match layout_ s with
  | UNORDERED => cell_order (schema s)
  | l => l
  end.

(** [range_offsets_.back()] *)
Definition back (v : list Z) : Z := default 0 (last v).

(** *** [Subarray::range_num] *)
Definition range_num (s : Subarray) : Z :=
  match ranges_ s with
  | [] => 0
  | _ => fold_left (fun ret r => wrap64 (ret * Ranges.range_num r)) (ranges_ s) 1
  end.

(** *** [Subarray::compute_range_offsets] *)
Definition push_offset (s : Subarray) (j : nat) (offs : list Z) : run (list Z) :=
  r ← at_ (ranges_ s) j;
  Ret (offs ++ [wrap64 (back offs * Ranges.range_num r)]).

Definition compute_range_offsets (s : Subarray) : run Subarray :=
  let dim_num := dim_num (schema s) in
  match effective_layout s with
  | COL_MAJOR =>
      offs ← (if decide (1 < dim_num)%nat
              then for_up (dim_num - 1) 1
                     (fun i offs => push_offset s (i - 1) offs) [1]
              else Ret [1]);
      Ret (set_range_offsets s offs)
  | ROW_MAJOR =>
      offs ← (if decide (1 < dim_num)%nat
              then for_down (dim_num - 2)
                     (fun i offs => push_offset s (i + 1) offs) [1]
              else Ret [1]);
      Ret (set_range_offsets s (rev offs))
  | _ => AssertFail
  end.

(** *** [Subarray::get_range_coords] *)
Definition coords_step (s : Subarray) (i : nat) (st : list Z * Z)
  : run (list Z * Z) :=
  let '(ret, tmp_idx) := st in
  o ← at_ (range_offsets_ s) i;
  if o =? 0 then Fault
  else Ret (ret ++ [tmp_idx / o], tmp_idx mod o).

Definition get_range_coords (s : Subarray) (range_idx : Z) : run (list Z) :=
  let dim_num := dim_num (schema s) in
  match effective_layout s with
  | ROW_MAJOR =>
      st ← for_up dim_num 0 (coords_step s) ([], range_idx);
      Ret (fst st)
  | COL_MAJOR =>
      match dim_num with
      | O => Fault
      | Datatypes.S d =>
          st ← for_down d (coords_step s) ([], range_idx);
          Ret (rev (fst st))
      end
  | _ => AssertFail
  end.

(** *** [Subarray::range_idx] *)
Definition range_idx (s : Subarray) (range_coords : list Z) : run Z :=
  for_up (dim_num (schema s)) 0
    (fun i ret =>
       o ← at_ (range_offsets_ s) i;
       c ← at_ range_coords i;
       Ret (wrap64 (ret + wrap64 (o * c))))
    0.

(** *** [Subarray::range<T>] *)
Definition range_step (s : Subarray) (i : nat)
    (st : list (scalar * scalar) * Z) : run (list (scalar * scalar) * Z) :=
  let '(ret, tmp_idx) := st in
  o ← at_ (range_offsets_ s) i;
  if o =? 0 then Fault
  else
    rs ← at_ (ranges_ s) i;
    r ← Ranges.get_range rs (tmp_idx / o);
    Ret (ret ++ [r], tmp_idx mod o).

Definition range (s : Subarray) (range_idx : Z) : run (list (scalar * scalar)) :=
  let dim_num := dim_num (schema s) in
  match effective_layout s with
  | ROW_MAJOR =>
      st ← for_up dim_num 0 (range_step s) ([], range_idx);
      Ret (fst st)
  | COL_MAJOR =>
      match dim_num with
      | O => Fault
      | Datatypes.S d =>
          st ← for_down d (range_step s) ([], range_idx);
          Ret (rev (fst st))
      end
  | _ => AssertFail
  end.

(** *** Construction: [Subarray::Subarray(array, layout)] *)

Definition add_default_range (i : nat) (s : Subarray) : run Subarray :=
  let dom := domain (schema s) in
  rs ← at_ (ranges_ s) i;
  lo ← at_ dom (2 * i);
  hi ← at_ dom (2 * i + 1);
  Ret (set_ranges s (<[i := Ranges.add_range rs (lo, hi) true]> (ranges_ s))).

Definition add_default_ranges (s : Subarray) : run Subarray :=
  for_up (dim_num (schema s)) 0 add_default_range s.

Definition Subarray_new (array : Array) (layout : Layout) : run Subarray :=
  let sch := array_schema array in
  add_default_ranges
    {| array_ := array; layout_ := layout;
       ranges_ := replicate (dim_num sch) (Ranges.make (domain_type sch));
       range_offsets_ := []; tile_overlap_ := [];
       est_result_size_ := ∅;
       result_est_size_computed_ := false;
       tile_overlap_computed_ := false |}.

(** *** [Subarray::add_range] *)

(** Modelled from the spec: [check_nan<T>] (declared in subarray.h, not
    among the sources): a NaN bound of a real type is refused. *)
Definition check_nan (range : scalar * scalar) : Status :=
  if scalar_isnan (fst range) || scalar_isnan (snd range)
  then SubarrayError "Cannot add range to dimension; Range contains NaN"
  else Ok.

(** [Subarray::add_range<T>(dim_idx, range)] *)
Definition add_range_T (s : Subarray) (dim_idx : nat) (range : scalar * scalar)
  : run (Status * Subarray) :=
  if negb (bool_decide (dim_idx < dim_num (schema s))%nat) then AssertFail
  else
    (* Must reset the result size and tile overlap *)
    let s := set_result_est_size_computed s false in
    let s := set_tile_overlap_computed s false in
    match check_nan range with
    | SubarrayError msg => Ret (SubarrayError msg, s)
    | Ok =>
        if scalar_gt (fst range) (snd range) then
          Ret (SubarrayError
                 "Cannot add range to dimension; Lower range bound cannot be larger than the higher bound",
               s)
        else
          let dom := domain (schema s) in
          dlo ← at_ dom (2 * dim_idx);
          outside ← (if scalar_lt (fst range) dlo then Ret true
                     else dhi ← at_ dom (2 * dim_idx + 1);
                          Ret (scalar_gt (snd range) dhi));
          if (outside : bool) then
            Ret (SubarrayError
                   "Cannot add range to dimension; Range must be in the domain the subarray is constructed from",
                 s)
          else
            rs ← at_ (ranges_ s) dim_idx;
            Ret (Ok, set_ranges s
                       (<[dim_idx := Ranges.add_range rs range false]> (ranges_ s)))
    end.

(** [Subarray::add_range(dim_idx, range)]; a null [range] is [None]. *)
Definition add_range (s : Subarray) (dim_idx : nat)
    (range : option (scalar * scalar)) : run (Status * Subarray) :=
  match range with
  | None =>
      Ret (SubarrayError "Cannot add range to dimension; Range cannot be null", s)
  | Some r =>
      if bool_decide (dim_num (schema s) <= dim_idx)%nat then
        Ret (SubarrayError "Cannot add range to dimension; Invalid dimension index", s)
      else
        match domain_type (schema s) with
        | INT8 | UINT8 | INT16 | UINT16 | INT32 | UINT32 | INT64 | UINT64
        | FLOAT32 | FLOAT64 => add_range_T s dim_idx r
        | _ =>
            Ret (SubarrayError
                   "Cannot add range to dimension; Unsupported subarray domain type",
                 s)
        end
  end.

(** *** [Subarray::is_unary] *)

Fixpoint is_unary_ranges (rs : list Ranges.t) : run bool :=
  match rs with
  | [] => Ret true
  | range :: rs' =>
      r ← Ranges.get_range range 0;
      if memcmp_ne (Ranges.type_ range) (fst r) (snd r) then Ret false
      else is_unary_ranges rs'
  end.

Definition is_unary (s : Subarray) : run bool :=
  if negb (range_num s =? 1) then Ret false
  else is_unary_ranges (ranges_ s).

(** [Subarray::is_unary(range_idx)] *)
Fixpoint is_unary_dims (s : Subarray) (coords : list Z) (n i : nat) : run bool :=
  match n with
  | O => Ret true
  | Datatypes.S n' =>
      rs ← at_ (ranges_ s) i;
      c ← at_ coords i;
      r ← Ranges.get_range rs c;
      if memcmp_ne (Ranges.type_ rs) (fst r) (snd r) then Ret false
      else is_unary_dims s coords n' (Datatypes.S i)
  end.

Definition is_unary_at (s : Subarray) (range_idx : Z) : run bool :=
  coords ← get_range_coords s range_idx;
  is_unary_dims s coords (dim_num (schema s)) 0.

(** *** [Subarray::cell_num<T>] *)

(** [(uint64_t)(r[1] - r[0])] at type [T].  The operands are promoted:
    the subtraction is carried out in [int] for the types up to 32 bits,
    in [unsigned] for [uint32_t] and in the type itself at 64 bits; the
    result is then converted to [uint64_t].  A signed subtraction that
    leaves its type wraps (two's complement), which is what the test
    [length == UINT64_MAX] of the source expects of it. *)
Definition span (t : Datatype) (lo hi : scalar) : Z :=
  match lo, hi with
  | SInt l, SInt h =>
      match t with
      | INT8 | UINT8 | INT16 | UINT16 | INT32 => wrap64 (wrap_signed 32 (h - l))
      | UINT32 => (h - l) mod 2 ^ 32
      | INT64 => wrap64 (wrap_signed 64 (h - l))
      | _ => wrap64 (h - l)
      end
  | _, _ => 0
  end.

Fixpoint cell_num_loop (t : Datatype) (range : list (scalar * scalar))
    (ret : Z) : Z :=
  match range with
  | [] => ret
  | r :: range' =>
      let length := span t (fst r) (snd r) in
      if length =? UINT64_MAX then UINT64_MAX
      else cell_num_loop t range' (safe_mul (length + 1) ret)
  end.

Definition cell_num (t : Datatype) (s : Subarray) (range_idx : Z) : run Z :=
  u ← is_unary_at s range_idx;
  if (u : bool) then Ret 1
  else if negb (is_integral t) then Ret UINT64_MAX
  else
    rg ← range s range_idx;
    Ret (cell_num_loop t rg 1).

(** *** Tile overlap: [Subarray::compute_tile_overlap<T>]

    The two-dimensional parallel loop writes the disjoint cells
    [tile_overlap_[i][j]]; it is run here fragment by fragment and range by
    range. *)

Fixpoint run_mapM {A B} (f : A -> run B) (l : list A) : run (list B) :=
  match l with
  | [] => Ret []
  | x :: l' => y ← f x; ys ← run_mapM f l'; Ret (y :: ys)
  end.

Definition compute_tile_overlap_T (s : Subarray) : run (Status * Subarray) :=
  if tile_overlap_computed_ s then Ret (Ok, s)
  else
    s ← compute_range_offsets s;
    let meta := fragment_metadata (array_ s) in
    let range_num := range_num s in
    overlap ← run_mapM
      (fun m =>
         run_mapM
           (fun j => rg ← range s (Z.of_nat j);
                     Ret (rtree_get_tile_overlap m rg))
           (seq 0 (Z.to_nat range_num)))
      meta;
    Ret (Ok, set_tile_overlap_computed (set_tile_overlap s overlap) true).

(** *** Result-size estimation for one attribute and one range *)

(** One tile of a fully covered interval. *)
Definition add_full_tile (meta : FragmentMetadata) (attr_name : string)
    (var_size : bool) (tid : Z) (ret : ResultSize) : ResultSize :=
  if negb var_size then
    {| size_fixed_ := size_fixed_ ret + inject_Z (tile_size meta attr_name tid);
       size_var_ := size_var_ ret;
       mem_size_fixed_ := mem_size_fixed_ ret + inject_Z (tile_size meta attr_name tid);
       mem_size_var_ := mem_size_var_ ret |}%Q
  else
    {| size_fixed_ := size_fixed_ ret + inject_Z (tile_size meta attr_name tid);
       size_var_ := size_var_ ret + inject_Z (tile_var_size meta attr_name tid);
       mem_size_fixed_ := mem_size_fixed_ ret + inject_Z (tile_size meta attr_name tid);
       mem_size_var_ := mem_size_var_ ret + inject_Z (tile_var_size meta attr_name tid) |}%Q.

(** One partially covered tile [(tid, ratio)]. *)
Definition add_partial_tile (meta : FragmentMetadata) (attr_name : string)
    (var_size : bool) (t : Z * Q) (ret : ResultSize) : ResultSize :=
  let tid := fst t in
  let ratio := snd t in
  if negb var_size then
    {| size_fixed_ := size_fixed_ ret + inject_Z (tile_size meta attr_name tid) * ratio;
       size_var_ := size_var_ ret;
       mem_size_fixed_ := mem_size_fixed_ ret + inject_Z (tile_size meta attr_name tid);
       mem_size_var_ := mem_size_var_ ret |}%Q
  else
    {| size_fixed_ := size_fixed_ ret + inject_Z (tile_size meta attr_name tid) * ratio;
       size_var_ := size_var_ ret + inject_Z (tile_var_size meta attr_name tid) * ratio;
       mem_size_fixed_ := mem_size_fixed_ ret + inject_Z (tile_size meta attr_name tid);
       mem_size_var_ := mem_size_var_ ret + inject_Z (tile_var_size meta attr_name tid) |}%Q.

(** The tile ids of [for (tid = tr.first; tid <= tr.second; ++tid)], for an
    interval that ends below [UINT64_MAX]. *)
Definition tile_ids (tr : Z * Z) : list Z :=
  map (fun k => fst tr + Z.of_nat k) (seq 0 (Z.to_nat (snd tr - fst tr + 1))).

(** The two loops over the overlap of one fragment. *)
Definition add_overlap (meta : FragmentMetadata) (attr_name : string)
    (var_size : bool) (overlap : TileOverlap) (ret : ResultSize) : ResultSize :=
  let ret :=
    fold_left
      (fun ret tr =>
         fold_left (fun ret tid => add_full_tile meta attr_name var_size tid ret)
           (tile_ids tr) ret)
      (tile_ranges_ overlap) ret in
  fold_left (fun ret t => add_partial_tile meta attr_name var_size t ret)
    (tiles_ overlap) ret.

(** The loop over the fragments: the result size before calibration. *)
Definition est_result_size_raw (s : Subarray) (attr_name : string)
    (range_idx : Z) (var_size : bool) : run ResultSize :=
  let fragment_num := length (fragment_metadata (array_ s)) in
  for_up fragment_num 0
    (fun f ret =>
       row ← at_ (tile_overlap_ s) f;
       overlap ← at_ row (Z.to_nat range_idx);
       meta ← at_ (fragment_metadata (array_ s)) f;
       Ret (add_overlap meta attr_name var_size overlap ret))
    ResultSize_zero.

(** [MIN(a, b)] with [a] a [double] and [b] a [uint64_t]. *)
Definition MIN (a : Q) (b : Z) : Q :=
  if Qle_bool (inject_Z b) a then inject_Z b else a.

Definition calibrate (sch : ArraySchema) (attr_name : string) (var_size : bool)
    (cell_num : Z) (ret : ResultSize) : ResultSize :=
  let max_size_var := UINT64_MAX in
  let max_size_fixed :=
    if var_size then safe_mul cell_num cell_var_offset_size
    else safe_mul cell_num (cell_size sch attr_name) in
  {| size_fixed_ := MIN (size_fixed_ ret) max_size_fixed;
     size_var_ := MIN (size_var_ ret) max_size_var;
     mem_size_fixed_ := mem_size_fixed_ ret;
     mem_size_var_ := mem_size_var_ ret |}.

(** [Subarray::compute_est_result_size<T>(attr_name, range_idx, var_size)] *)
Definition compute_est_result_size_range (t : Datatype) (s : Subarray)
    (attr_name : string) (range_idx : Z) (var_size : bool) : run ResultSize :=
  ret ← est_result_size_raw s attr_name range_idx var_size;
  n ← cell_num t s range_idx;
  Ret (calibrate (schema s) attr_name var_size n ret).

(** *** [Subarray::compute_est_result_size<T>()]

    The parallel loop over the ranges adds into the per-attribute
    accumulators under a mutex; sums of rationals do not depend on the
    order, and the loop is run here in the order of the ranges. *)

Definition ResultSize_add (a b : ResultSize) : ResultSize :=
  {| size_fixed_ := size_fixed_ a + size_fixed_ b;
     size_var_ := size_var_ a + size_var_ b;
     mem_size_fixed_ := mem_size_fixed_ a + mem_size_fixed_ b;
     mem_size_var_ := mem_size_var_ a + mem_size_var_ b |}%Q.

Definition amplify (r : ResultSize) : ResultSize :=
  {| size_fixed_ := size_fixed_ r * est_result_size_amplification;
     size_var_ := size_var_ r * est_result_size_amplification;
     mem_size_fixed_ := mem_size_fixed_ r;
     mem_size_var_ := mem_size_var_ r |}%Q.

(** The names and var-size flags of the [attribute_num + 1] accumulators:
    the attributes, then the coordinates. *)
Definition est_targets (sch : ArraySchema) : list (string * bool) :=
  map (fun a => (attr_name a, attr_var_size a)) (attributes sch)
  ++ [(coords, false)].

(** [v.resize(n)] on a vector of vectors. *)
Definition resize {A} (n : nat) (v : list (list A)) : list (list A) :=
  take n v ++ replicate (n - length v) [].

Definition compute_est_result_size_T (t : Datatype) (s : Subarray)
  : run (Status * Subarray) :=
  if result_est_size_computed_ s then Ret (Ok, s)
  else
    r ← compute_tile_overlap_T s;
    match fst r with
    | SubarrayError msg => Ret (SubarrayError msg, snd r)
    | Ok =>
        let s := snd r in
        let targets := est_targets (schema s) in
        let fragment_num := length (fragment_metadata (array_ s)) in
        let s := set_tile_overlap s (resize fragment_num (tile_overlap_ s)) in
        let range_num := range_num s in
        vec ← for_up (Z.to_nat range_num) 0
          (fun i vec =>
             per ← run_mapM
               (fun tg => compute_est_result_size_range t s (fst tg)
                            (Z.of_nat i) (snd tg))
               targets;
             Ret (zip_with ResultSize_add vec per))
          (replicate (length targets) ResultSize_zero);
        let vec :=
          if Qeq_bool est_result_size_amplification 1 then vec
          else map amplify vec in
        let m : gmap string ResultSize :=
          fold_left (fun m p => <[fst (fst p) := snd p]> m) (zip targets vec) ∅ in
        Ret (Ok, set_result_est_size_computed (set_est_result_size s m) true)
    end.

(** [Subarray::compute_est_result_size()] *)
Definition compute_est_result_size (s : Subarray) : run (Status * Subarray) :=
  if result_est_size_computed_ s then Ret (Ok, s)
  else
    match domain_type (schema s) with
    | INT8 => compute_est_result_size_T INT8 s
    | UINT8 => compute_est_result_size_T UINT8 s
    | INT16 => compute_est_result_size_T INT16 s
    | UINT16 => compute_est_result_size_T UINT16 s
    | INT32 => compute_est_result_size_T INT32 s
    | UINT32 => compute_est_result_size_T UINT32 s
    | INT64 => compute_est_result_size_T INT64 s
    | UINT64 => compute_est_result_size_T UINT64 s
    | FLOAT32 => compute_est_result_size_T FLOAT32 s
    | FLOAT64 => compute_est_result_size_T FLOAT64 s
    | _ =>
        Ret (SubarrayError
               "Cannot compute estimated results size; unsupported domain type",
             s)
    end.

(** *** The size queries *)

(** [est_result_size_[attr_name]]: [operator[]] of the map, which inserts a
    zero-initialised entry for a key that is absent. *)
Definition est_entry (s : Subarray) (attr_name : string) : ResultSize * Subarray :=
  match est_result_size_ s !! attr_name with
  | Some r => (r, s)
  | None =>
      (ResultSize_zero,
       set_est_result_size s (<[attr_name := ResultSize_zero]> (est_result_size_ s)))
  end.

(** [(uint64_t)ceil(x)] *)
Definition ceil (x : Q) : Z := Qceiling x.

(** The outcome of a size query: the status, the values written through
    the output pointers (if any), and the subarray afterwards. *)
Definition query_result (V : Type) : Type := (Status * option V * Subarray)%type.

(** [Subarray::get_est_result_size(attr_name, size)]; a null [attr_name] is
    [None], and [size] tells whether the output pointer is non-null. *)
Definition get_est_result_size (s : Subarray) (attr_name : option string)
    (size : bool) : run (query_result Z) :=
  if dense (schema s) then
    Ret (SubarrayError
           "Cannot get estimated result size; Feature not supported for dense arrays yet",
         None, s)
  else
    match attr_name with
    | None =>
        Ret (SubarrayError "Cannot get estimated result size; Invalid attribute",
             None, s)
    | Some name =>
        let attr := attribute (schema s) name in
        if negb (bool_decide (name = coords)) && bool_decide (attr = None) then
          Ret (SubarrayError "Cannot get estimated result size; Invalid attribute",
               None, s)
        else if negb size then
          Ret (SubarrayError "Cannot get estimated result size; Invalid size input",
               None, s)
        else if negb (bool_decide (name = coords))
                && from_option attr_var_size false attr then
          Ret (SubarrayError
                 "Cannot get estimated result size; Attribute must be fixed-sized",
               None, s)
        else
          r ← compute_est_result_size s;
          match fst r with
          | SubarrayError msg => Ret (SubarrayError msg, None, snd r)
          | Ok =>
              let e := est_entry (snd r) name in
              Ret (Ok, Some (ceil (size_fixed_ (fst e))), snd e)
          end
    end.

(** [Subarray::get_est_result_size(attr_name, size_off, size_val)] *)
Definition get_est_result_size_var (s : Subarray) (attr_name : option string)
    (size_off size_val : bool) : run (query_result (Z * Z)) :=
  if dense (schema s) then
    Ret (SubarrayError
           "Cannot get estimated result size; Feature not supported for dense arrays yet",
         None, s)
  else
    match attr_name with
    | None =>
        Ret (SubarrayError "Cannot get estimated result size; Invalid attribute",
             None, s)
    | Some name =>
        match attribute (schema s) name with
        | None =>
            Ret (SubarrayError "Cannot get estimated result size; Invalid attribute",
                 None, s)
        | Some attr =>
            if negb size_off || negb size_val then
              Ret (SubarrayError "Cannot get estimated result size; Invalid size input",
                   None, s)
            else if negb (attr_var_size attr) then
              Ret (SubarrayError
                     "Cannot get estimated result size; Attribute must be var-sized",
                   None, s)
            else
              r ← compute_est_result_size s;
              match fst r with
              | SubarrayError msg => Ret (SubarrayError msg, None, snd r)
              | Ok =>
                  let e1 := est_entry (snd r) name in
                  let e2 := est_entry (snd e1) name in
                  Ret (Ok,
                       Some (ceil (size_fixed_ (fst e1)), ceil (size_var_ (fst e2))),
                       snd e2)
              end
        end
    end.

(** [Subarray::get_max_memory_size(attr_name, size)] *)
Definition get_max_memory_size (s : Subarray) (attr_name : option string)
    (size : bool) : run (query_result Z) :=
  if dense (schema s) then
    Ret (SubarrayError
           "Cannot get maximum memory size; Feature not supported for dense arrays yet",
         None, s)
  else
    match attr_name with
    | None =>
        Ret (SubarrayError "Cannot get max memory size; Invalid attribute", None, s)
    | Some name =>
        let attr := attribute (schema s) name in
        if negb (bool_decide (name = coords)) && bool_decide (attr = None) then
          Ret (SubarrayError "Cannot get max memory size; Invalid attribute", None, s)
        else if negb size then
          Ret (SubarrayError "Cannot get max memory size; Invalid size input", None, s)
        else if negb (bool_decide (name = coords))
                && from_option attr_var_size false attr then
          Ret (SubarrayError
                 "Cannot get max memory size; Attribute must be fixed-sized",
               None, s)
        else
          (* the status of the estimation is dropped *)
          r ← compute_est_result_size s;
          let e := est_entry (snd r) name in
          Ret (Ok, Some (ceil (mem_size_fixed_ (fst e))), snd e)
    end.

(** [Subarray::get_max_memory_size(attr_name, size_off, size_val)] *)
Definition get_max_memory_size_var (s : Subarray) (attr_name : option string)
    (size_off size_val : bool) : run (query_result (Z * Z)) :=
  if dense (schema s) then
    Ret (SubarrayError
           "Cannot get max memory size; Feature not supported for dense arrays yet",
         None, s)
  else
    match attr_name with
    | None =>
        Ret (SubarrayError "Cannot get max memory size; Invalid attribute", None, s)
    | Some name =>
        match attribute (schema s) name with
        | None =>
            Ret (SubarrayError "Cannot get max memory size; Invalid attribute",
                 None, s)
        | Some attr =>
            if negb size_off || negb size_val then
              Ret (SubarrayError "Cannot get max memory size; Invalid size input",
                   None, s)
            else if negb (attr_var_size attr) then
              Ret (SubarrayError
                     "Cannot get max memory size; Attribute must be var-sized",
                   None, s)
            else
              r ← compute_est_result_size s;
              let e1 := est_entry (snd r) name in
              let e2 := est_entry (snd e1) name in
              Ret (Ok,
                   Some (ceil (mem_size_fixed_ (fst e1)),
                         ceil (mem_size_var_ (fst e2))),
                   snd e2)
        end
    end.

(** ** Notions used in the statements *)

(** The class invariant established by the constructor: one range store
    per dimension of the schema, which has at least one dimension. *)
Record Subarray_inv (s : Subarray) : Prop := {
  inv_dim_num : (1 <= dim_num (schema s))%nat;
  inv_ranges : length (ranges_ s) = dim_num (schema s);
}.

Definition prodZ (l : list Z) : Z := fold_right Z.mul 1 l.
Arguments prodZ : simpl never.

(** The number of ranges of each dimension. *)
Definition range_nums (s : Subarray) : list Z :=
  map Ranges.range_num (ranges_ s).

(** The number of ranges of the subarray, as a mathematical integer. *)
Definition range_count (s : Subarray) : Z := prodZ (range_nums s).

(** Range coordinates: one index per dimension, each below the number of
    ranges of its dimension. *)
Definition valid_range_coords (s : Subarray) (c : list Z) : Prop :=
  Forall2 (fun ci n => 0 <= ci < n) c (range_nums s).

(** Monadic fold: a loop over the elements of a vector. *)
Fixpoint foldM {A S} (f : A -> S -> run S) (l : list A) (s : S) : run S :=
  match l with
  | [] => Ret s
  | x :: l' => s' ← f x s; foldM f l' s'
  end.

(** [a, a*n0, a*n0*n1, ...]: one product per element of [ns]. *)
Fixpoint prefix_prods (a : Z) (ns : list Z) : list Z :=
  match ns with
  | [] => []
  | n :: ns' => a :: prefix_prods (a * n) ns'
  end.

(** Successive quotients of [tmp] by the offsets [os]. *)
Fixpoint digits (os : list Z) (tmp : Z) : run (list Z) :=
  match os with
  | [] => Ret []
  | o :: os' =>
      if o =? 0 then Fault
      else cs ← digits os' (tmp mod o); Ret (tmp / o :: cs)
  end.

Definition remainder (os : list Z) (tmp : Z) : Z :=
  fold_left (fun t o => t mod o) os tmp.

Fixpoint dot (os cs : list Z) : Z :=
  match os, cs with
  | o :: os', c :: cs' => o * c + dot os' cs'
  | _, _ => 0
  end.

(** Value of the digits [cs] in the mixed radix [ns], least significant
    digit first. *)
Fixpoint horner (ns cs : list Z) : Z :=
  match ns, cs with
  | n :: ns', c :: cs' => c + n * horner ns' cs'
  | _, _ => 0
  end.

(** The body of the loops of [compute_range_offsets], once the range store
    has been read. *)
Definition push_step (offs : list Z) (r : Ranges.t) : list Z :=
  offs ++ [wrap64 (back offs * Ranges.range_num r)].

(** The body of the loops of [get_range_coords], once the offset has been
    read. *)
Definition digit_step (o : Z) (st : list Z * Z) : run (list Z * Z) :=
  if o =? 0 then Fault
  else Ret (fst st ++ [snd st / o], snd st mod o).

Definition run_map {A B} (f : A -> B) (m : run A) : run B :=
  x ← m; Ret (f x).

Definition with_layout (s : Subarray) (l : Layout) : Subarray :=
  {| array_ := array_ s; layout_ := l; ranges_ := ranges_ s;
     range_offsets_ := range_offsets_ s; tile_overlap_ := tile_overlap_ s;
     est_result_size_ := est_result_size_ s;
     result_est_size_computed_ := result_est_size_computed_ s;
     tile_overlap_computed_ := tile_overlap_computed_ s |}.

(** ** Sample arrays and subarrays *)

(** A fragment whose R-tree reports, for every range, the tiles 0 and 1 as
    fully covered and tile 2 as half covered; every tile holds 100 bytes
    of fixed-sized data and 40 bytes of var-sized data. *)
Definition sample_fragment : FragmentMetadata :=
  {| tile_size := fun _ _ => 100;
     tile_var_size := fun _ _ => 40;
     rtree_get_tile_overlap := fun _ =>
       {| tile_ranges_ := [(0, 1)]; tiles_ := [(2, 1 # 2)] |} |}.

(** A sparse array of [d] dimensions of type [t], each with the domain
    [[lo, hi]], with a fixed-sized attribute [a1] and a var-sized
    attribute [a2]. *)
Definition sample_array (d : nat) (t : Datatype) (lo hi : scalar)
    (order : Layout) : Array :=
  {| array_schema :=
       {| dim_num := d; domain_type := t;
          domain := concat (replicate d [lo; hi]);
          cell_order := order; dense := false;
          attributes := [ {| attr_name := "a1"; attr_var_size := false |};
                          {| attr_name := "a2"; attr_var_size := true |} ];
          cell_size := fun name =>
            if bool_decide (name = coords) then Z.of_nat d * datatype_size t
            else 4 |};
     fragment_metadata := [sample_fragment] |}.

(** [add_range] for each range of [rs] in turn, on dimension [dim_idx]. *)
Fixpoint add_ranges (s : Subarray) (dim_idx : nat)
    (rs : list (scalar * scalar)) : run Subarray :=
  match rs with
  | [] => Ret s
  | r :: rs' => p ← add_range s dim_idx (Some r); add_ranges (snd p) dim_idx rs'
  end.

(** The unary ranges [[k, k]] for [k = 0 .. n - 1]. *)
Definition points (n : nat) : list (scalar * scalar) :=
  map (fun k => (SInt (Z.of_nat k), SInt (Z.of_nat k))) (seq 0 n).

(** A subarray with [n] unary ranges on each of [d] dimensions, built with
    the constructor and [add_range]. *)
Definition build_grid (d n : nat) (layout : Layout) : run Subarray :=
  s ← Subarray_new (sample_array d INT32 (SInt 0) (SInt 1000) ROW_MAJOR) layout;
  for_up d 0 (fun i s => add_ranges s i (points n)) s.

(** The same subarray, written out. *)
Definition grid (d n : nat) (layout : Layout) : Subarray :=
  {| array_ := sample_array d INT32 (SInt 0) (SInt 1000) ROW_MAJOR;
     layout_ := layout;
     ranges_ := replicate d {| Ranges.type_ := INT32;
                               Ranges.buffer_ := points n;
                               Ranges.has_default_range_ := false |};
     range_offsets_ := []; tile_overlap_ := [];
     est_result_size_ := ∅;
     result_est_size_computed_ := false;
     tile_overlap_computed_ := false |}.

(** The first range of a dimension. *)
Definition first_range (r : Ranges.t) : option (scalar * scalar) :=
  Ranges.buffer_ r !! 0%nat.

(** The bounds of the first range have the same bytes. *)
Definition unary_bytes (r : Ranges.t) : Prop :=
  match first_range r with
  | Some (lo, hi) =>
      object_repr (Ranges.type_ r) lo = object_repr (Ranges.type_ r) hi
  | None => False
  end.

(** The bounds of the first range are equal values: [lo == hi]. *)
Definition unary_value (r : Ranges.t) : Prop :=
  match first_range r with
  | Some (lo, hi) => scalar_eq lo hi = true
  | None => False
  end.

(** A range store of an integer type whose bounds are values of the type. *)
Definition integral_typed (r : Ranges.t) : Prop :=
  is_integral (Ranges.type_ r) = true
  /\ Forall (fun p => has_type (Ranges.type_ r) (fst p)
                      /\ has_type (Ranges.type_ r) (snd p))
       (Ranges.buffer_ r).

(** IEEE data of [float]: [1.0], [-1.0] and the two zeros. *)
Definition f32_one : spec_float := S754_finite false 8388608 (-23).
Definition f32_minus_one : spec_float := S754_finite true 8388608 (-23).
Definition pos_zero : spec_float := S754_zero false.
Definition neg_zero : spec_float := S754_zero true.

(** A one-dimensional [float] subarray over the domain [[-1, 1]] with the
    single range [[-0.0, +0.0]]. *)
Definition build_zero_range : run Subarray :=
  s ← Subarray_new
        (sample_array 1 FLOAT32 (SFloat f32_minus_one) (SFloat f32_one) ROW_MAJOR)
        ROW_MAJOR;
  p ← add_range s 0 (Some (SFloat neg_zero, SFloat pos_zero));
  Ret (snd p).

Definition zero_range : Subarray :=
  {| array_ := sample_array 1 FLOAT32 (SFloat f32_minus_one) (SFloat f32_one)
                 ROW_MAJOR;
     layout_ := ROW_MAJOR;
     ranges_ := [ {| Ranges.type_ := FLOAT32;
                     Ranges.buffer_ := [(SFloat neg_zero, SFloat pos_zero)];
                     Ranges.has_default_range_ := false |} ];
     range_offsets_ := []; tile_overlap_ := [];
     est_result_size_ := ∅;
     result_est_size_computed_ := false;
     tile_overlap_computed_ := false |}.

(** The number of cells of a range of an integer type: the product over
    the dimensions of [hi - lo + 1]. *)
Definition range_cell_count (rg : list (scalar * scalar)) : Z :=
  prodZ (map (fun r => match r with
                       | (SInt l, SInt h) => h - l + 1
                       | _ => 0
                       end) rg).

(** A one-dimensional [int32_t] subarray over the domain
    [[-2000000000, 2000000000]], with its default range and its offsets
    computed. *)
Definition build_wide_int32 : run Subarray :=
  s ← Subarray_new
        (sample_array 1 INT32 (SInt (-2000000000)) (SInt 2000000000) ROW_MAJOR)
        ROW_MAJOR;
  compute_range_offsets s.

Definition wide_int32 : Subarray :=
  {| array_ := sample_array 1 INT32 (SInt (-2000000000)) (SInt 2000000000)
                 ROW_MAJOR;
     layout_ := ROW_MAJOR;
     ranges_ := [ {| Ranges.type_ := INT32;
                     Ranges.buffer_ := [(SInt (-2000000000), SInt 2000000000)];
                     Ranges.has_default_range_ := true |} ];
     range_offsets_ := [1]; tile_overlap_ := [];
     est_result_size_ := ∅;
     result_est_size_computed_ := false;
     tile_overlap_computed_ := false |}.

(** The ten types that the type switches dispatch on. *)
Definition supported_type (t : Datatype) : bool :=
  match t with
  | CHAR | ANY => false
  | _ => true
  end.

(** The subarray after a failed validation of [add_range<T>]: both flags
    are cleared, nothing else has changed. *)
Definition flags_cleared (s : Subarray) : Subarray :=
  set_tile_overlap_computed (set_result_est_size_computed s false) false.

(** A subarray of 2 x 3 ranges whose result size has been estimated. *)
Definition build_estimated : run Subarray :=
  s ← build_grid 2 3 ROW_MAJOR;
  r ← get_est_result_size s (Some "a1") true;
  Ret (snd r).





(** The column [range_idx] of the overlap table: the overlap of every
    fragment with the range, if every row has one. *)
Definition overlap_column (s : Subarray) (range_idx : Z)
  : option (list TileOverlap) :=
  mapM (fun row : list TileOverlap => row !! Z.to_nat range_idx)
    (tile_overlap_ s).






(** A subarray of 2 x 3 ranges whose tile overlap has been computed. *)
Definition build_overlap : run Subarray :=
  s ← build_grid 2 3 ROW_MAJOR;
  p ← compute_tile_overlap_T s;
  Ret (snd p).

Definition with_overlap : Subarray :=
  match build_overlap with
  | Ret s => s
  | _ => grid 2 3 ROW_MAJOR
  end.

(** The attribute checks of the fixed-form size queries pass for [name]:
    it is the name of the coordinates, or of a fixed-sized attribute. *)
Definition fixed_target (sch : ArraySchema) (name : string) : Prop :=
  name = coords
  \/ exists a, attribute sch name = Some a /\ attr_var_size a = false.

(** The attribute checks of the var-form size queries pass for [name]. *)
Definition var_target (sch : ArraySchema) (name : string) : Prop :=
  exists a, attribute sch name = Some a /\ attr_var_size a = true.

Definition unsupported_domain_msg : string :=
  "Cannot compute estimated results size; unsupported domain type".

(** A one-dimensional subarray of an array whose domain type, [CHAR], is
    none of the ten coordinate types. *)
Definition build_char_subarray : run Subarray :=
  Subarray_new (sample_array 1 CHAR (SInt 0) (SInt 100) ROW_MAJOR) ROW_MAJOR.

Definition char_subarray : Subarray :=
  {| array_ := sample_array 1 CHAR (SInt 0) (SInt 100) ROW_MAJOR;
     layout_ := ROW_MAJOR;
     ranges_ := [ {| Ranges.type_ := CHAR;
                     Ranges.buffer_ := [(SInt 0, SInt 100)];
                     Ranges.has_default_range_ := true |} ];
     range_offsets_ := []; tile_overlap_ := [];
     est_result_size_ := ∅;
     result_est_size_computed_ := false;
     tile_overlap_computed_ := false |}.

(** ** The read query

    Modelled from the spec: the read-query state machine (sections 4.5 and
    7; the query classes are not among the sources, only a test that
    drives them through the C API).  The result of the read is the
    sequence of its cells in emission order; a submission copies whole
    cells into the caller's buffers as long as every buffer has room, and
    the resumption cursor is the number of cells copied so far. *)

Module Query.

Inductive QueryStatus := READY | INCOMPLETE | COMPLETED | FAILED.

Inductive ErrorKind := InvalidBufferSize | Unsplittable.

(** The outcome of a call. *)
Inductive Code := Ok | Incomplete | Completed | Err (k : ErrorKind).

(** The value of one attribute in one cell: the bytes of a fixed-sized
    value, or the bytes of a var-sized value, which also takes an 8-byte
    entry of the offsets buffer. *)
Inductive CellValue :=
  | FixedVal (bytes : list Z)
  | VarVal (bytes : list Z).

(** One value per target attribute. *)
Definition Cell : Type := list CellValue.

(** The bytes a cell takes in each buffer; a var-sized attribute has two
    buffers, offsets then values. *)
Definition cost (c : Cell) : list Z :=
  concat (map (fun v => match v with
                        | FixedVal b => [Z.of_nat (length b)]
                        | VarVal b => [8; Z.of_nat (length b)]
                        end) c).

Record t := {
  cells : list Cell;
  cursor : nat;
  (** The capacities given when the buffers were set. *)
  original_sizes : list Z;
  (** The capacities advertised for the next submission. *)
  buffer_sizes : list Z;
  status : QueryStatus;
}.

(** A query on the result [cells] with buffers of the given capacities. *)
Definition create (cells : list Cell) (sizes : list Z) : t :=
  {| cells := cells; cursor := 0; original_sizes := sizes;
     buffer_sizes := sizes; status := READY |}.

(** Whole cells are copied while each buffer has room for the next one. *)
Fixpoint emit (caps used : list Z) (cs : list Cell) : list Cell * list Z :=
  match cs with
  | [] => ([], used)
  | c :: cs' =>
      let used' := zip_with Z.add used (cost c) in
      if forallb (fun p => fst p <=? snd p) (zip used' caps) then
        let r := emit caps used' cs' in (c :: fst r, snd r)
      else ([], used)
  end.

(** The outcome of [submit]: the code, the cells copied, the bytes
    produced in each buffer, and the query afterwards.  No submission is
    legal in the error-terminal state. *)
Definition submit (q : t) : option (Code * list Cell * list Z * t) :=
  match status q with
  | FAILED => None
  | _ =>
      let rest := drop (cursor q) (cells q) in
      let r := emit (buffer_sizes q) (map (fun _ => 0) (buffer_sizes q)) rest in
      let out := fst r in
      let q' st := {| cells := cells q; cursor := cursor q + length out;
                      original_sizes := original_sizes q;
                      buffer_sizes := buffer_sizes q; status := st |} in
      if bool_decide (length out = length rest) then
        Some (Completed, out, snd r, q' COMPLETED)
      else
        match out with
        | [] => Some (Err Unsplittable, [], snd r, q' FAILED)
        | _ => Some (Incomplete, out, snd r, q' INCOMPLETE)
        end
  end.

(** [reset_buffers(new_sizes)]: every new capacity must be at least the
    original one; the cursor is not moved. *)
Definition reset_buffers (q : t) (new_sizes : list Z) : Code * t :=
  if forallb (fun p => fst p <=? snd p) (zip (original_sizes q) new_sizes) then
    (Ok, {| cells := cells q; cursor := cursor q;
            original_sizes := original_sizes q;
            buffer_sizes := new_sizes; status := status q |})
  else (Err InvalidBufferSize, q).

(** The cell of the fixed-sized [int32] attribute [a1] with value [v]. *)
Definition int32_cell (v : Z) : Cell :=
  [FixedVal [v mod 256; v / 256 mod 256; v / 65536 mod 256; v / 16777216 mod 256]].

(** Scenarios S1 and S4: the four cells of the subarray [[1..2, 1..2]],
    read through a buffer of two [int]s. *)
Definition scenario : t := create (map int32_cell [0; 1; 2; 3]) [8].

(** The query of the scenario once its first submission has suspended. *)
Definition suspended : t :=
  {| cells := map int32_cell [0; 1; 2; 3]; cursor := 2;
     original_sizes := [8]; buffer_sizes := [8]; status := INCOMPLETE |}.

(** The same query once its second submission has completed. *)
Definition completed : t :=
  {| cells := map int32_cell [0; 1; 2; 3]; cursor := 4;
     original_sizes := [8]; buffer_sizes := [8]; status := COMPLETED |}.

End Query.

(** Saturation at [UINT64_MAX]. *)
Definition saturate (z : Z) : Z := Z.min z UINT64_MAX.

(** A range of integer type [t] whose subtraction [hi - lo] stays within
    the type it is carried out in: bounds of the type with [lo <= hi], and
    a span below [2^31] if the type is [int32_t]. *)
Definition span_representable (t : Datatype) (r : scalar * scalar) : Prop :=
  exists l h,
    r = (SInt l, SInt h) /\ int_min t <= l /\ l <= h /\ h <= int_max t
    /\ (t = INT32 -> h - l < 2 ^ 31).

(** ** The rest of the class *)

(** [Subarray::clear] *)
Definition clear (s : Subarray) : Subarray :=
  {| array_ := array_ s; layout_ := layout_ s; ranges_ := [];
     range_offsets_ := []; tile_overlap_ := [];
     est_result_size_ := est_result_size_ s;
     result_est_size_computed_ := false;
     tile_overlap_computed_ := false |}.

(** [Subarray::empty] *)
Definition empty (s : Subarray) : bool := range_num s =? 0.

(** [Subarray::get_range(dim_idx, range_idx, range)]: the status and the
    range written through [range]. *)
Definition get_range (s : Subarray) (dim_idx : nat) (range_idx : Z)
  : run (Status * option (scalar * scalar)) :=
  if bool_decide (dim_num (schema s) <= dim_idx)%nat then
    Ret (SubarrayError "Cannot get range; Invalid dimension index", None)
  else
    rs ← at_ (ranges_ s) dim_idx;
    if Ranges.range_num rs <=? range_idx then
      Ret (SubarrayError "Cannot get range; Invalid range index", None)
    else
      r ← Ranges.get_range rs range_idx;
      Ret (Ok, Some r).

(** [Subarray::get_range_num(dim_idx, range_num)] *)
Definition get_range_num (s : Subarray) (dim_idx : nat)
  : run (Status * option Z) :=
  if bool_decide (dim_num (schema s) <= dim_idx)%nat then
    Ret (SubarrayError
           "Cannot get number of ranges for a dimension; Invalid dimension index",
         None)
  else
    rs ← at_ (ranges_ s) dim_idx;
    Ret (Ok, Some (Ranges.range_num rs)).

(** [Subarray::clone]: the estimation map is not among the members that
    are copied. *)
Definition clone (s : Subarray) : Subarray :=
  {| array_ := array_ s; layout_ := layout_ s; ranges_ := ranges_ s;
     range_offsets_ := range_offsets_ s; tile_overlap_ := tile_overlap_ s;
     est_result_size_ := ∅;
     result_est_size_computed_ := result_est_size_computed_ s;
     tile_overlap_computed_ := tile_overlap_computed_ s |}.

(** [this->swap(subarray)]: the two objects afterwards.  The estimation
    map is not among the members that are exchanged. *)
Definition swap (this subarray : Subarray) : Subarray * Subarray :=
  ({| array_ := array_ subarray; layout_ := layout_ subarray;
      ranges_ := ranges_ subarray; range_offsets_ := range_offsets_ subarray;
      tile_overlap_ := tile_overlap_ subarray;
      est_result_size_ := est_result_size_ this;
      result_est_size_computed_ := result_est_size_computed_ subarray;
      tile_overlap_computed_ := tile_overlap_computed_ subarray |},
   {| array_ := array_ this; layout_ := layout_ this;
      ranges_ := ranges_ this; range_offsets_ := range_offsets_ this;
      tile_overlap_ := tile_overlap_ this;
      est_result_size_ := est_result_size_ subarray;
      result_est_size_computed_ := result_est_size_computed_ this;
      tile_overlap_computed_ := tile_overlap_computed_ this |}).

(** [Subarray::operator=(const Subarray&)]: swap with a clone of the
    argument. *)
Definition copy_assign (this subarray : Subarray) : Subarray :=
  fst (swap this (clone subarray)).

(** [Subarray::operator=(Subarray&&)]: swap with the argument. *)
Definition move_assign (this subarray : Subarray) : Subarray * Subarray :=
  swap this subarray.

(** [Subarray::get_subarray<T>(start, end)].  The status of each
    [add_range] on the new subarray is dropped, as in the source. *)
Definition copy_range (s : Subarray) (i : nat) (r : Z) (ret : Subarray)
  : run Subarray :=
  rs ← at_ (ranges_ s) i;
  rg ← Ranges.get_range rs r;
  p ← add_range ret i (Some rg);
  Ret (snd p).

Definition get_subarray (s : Subarray) (start end_ : Z) : run Subarray :=
  ret ← Subarray_new (array_ s) (layout_ s);
  start_coords ← get_range_coords s start;
  end_coords ← get_range_coords s end_;
  ret ← for_up (dim_num (schema s)) 0
    (fun i ret =>
       sc ← at_ start_coords i;
       ec ← at_ end_coords i;
       foldM (copy_range s i) (tile_ids (sc, ec)) ret)
    ret;
  overlap ← run_mapM
    (fun row => run_mapM (fun r => at_ row (Z.to_nat r)) (tile_ids (start, end_)))
    (tile_overlap_ s);
  compute_range_offsets (set_tile_overlap ret overlap).

(** ** Notions used in the further statements *)

(** The domain vector holds the two bounds of every dimension. *)
Definition domain_wf (sch : ArraySchema) : Prop :=
  length (domain sch) = (2 * dim_num sch)%nat.

(** The two bounds of dimension [i] in the domain vector. *)
Definition domain_bounds (sch : ArraySchema) (i : nat) (dlo dhi : scalar) : Prop :=
  domain sch !! (2 * i)%nat = Some dlo /\ domain sch !! (2 * i + 1)%nat = Some dhi.

(** The checks of [add_range<T>] pass for the range [r] on a dimension
    with the bounds [dlo] and [dhi]. *)
Definition range_ok (dlo dhi : scalar) (r : scalar * scalar) : Prop :=
  scalar_isnan (fst r) = false /\ scalar_isnan (snd r) = false
  /\ scalar_gt (fst r) (snd r) = false
  /\ scalar_lt (fst r) dlo = false /\ scalar_gt (snd r) dhi = false.

(** The store of a dimension that holds its default range [[lo, hi]]. *)
Definition default_store (t : Datatype) (lo hi : scalar) : Ranges.t :=
  {| Ranges.type_ := t; Ranges.buffer_ := [(lo, hi)];
     Ranges.has_default_range_ := true |}.

(** The last range of a store. *)
Definition last_range (rs : Ranges.t) : option (scalar * scalar) :=
  last (Ranges.buffer_ rs).

(** The entry [j] of the domain vector. *)
Definition domain_at (sch : ArraySchema) (j : nat) : scalar :=
  default (SInt 0) (domain sch !! j).

(** The stores of the first [k] dimensions, each with its default range. *)
Definition default_stores (sch : ArraySchema) (k : nat) : list Ranges.t :=
  map (fun i => default_store (domain_type sch) (domain_at sch (2 * i))
                  (domain_at sch (2 * i + 1)))
    (seq 0 k).
Arguments default_stores : simpl never.

(** The subarray under construction once [add_default_ranges] has filled
    the stores of the first [k] dimensions. *)
Definition half_built (array : Array) (layout : Layout) (k : nat) : Subarray :=
  let sch := array_schema array in
  {| array_ := array; layout_ := layout;
     ranges_ := default_stores sch k
                ++ replicate (dim_num sch - k) (Ranges.make (domain_type sch));
     range_offsets_ := []; tile_overlap_ := [];
     est_result_size_ := ∅;
     result_est_size_computed_ := false;
     tile_overlap_computed_ := false |}.

(** The subarray of 2 x 3 ranges after the estimation of its sizes. *)
Definition estimated : Subarray :=
  match build_estimated with
  | Ret s => s
  | _ => grid 2 3 ROW_MAJOR
  end.

(** The size of [name] that a map of estimates holds, 0 if it holds none. *)
Definition stored_size (m : gmap string ResultSize) (name : string) : Z :=
  from_option (fun r => ceil (size_fixed_ r)) 0 (m !! name).

(** The exact row-major offsets: for each dimension the product of the
    numbers of ranges of the dimensions after it. *)
Fixpoint row_offs (ns : list Z) : list Z :=
  match ns with
  | [] => []
  | n :: ns' => prodZ ns' :: row_offs ns'
  end.

(** The ranges of the stores [rss] at the coordinates [cs], one per
    dimension. *)
Fixpoint ranges_at (rss : list Ranges.t) (cs : list Z)
  : run (list (scalar * scalar)) :=
  match rss, cs with
  | rs :: rss', c :: cs' =>
      r ← Ranges.get_range rs c;
      rest ← ranges_at rss' cs';
      Ret (r :: rest)
  | [], [] => Ret []
  | _, _ => Fault
  end.

(** The body of the loops of [range<T>], once the offset and the store have
    been read. *)
Definition range_digit_step (p : Z * Ranges.t)
    (st : list (scalar * scalar) * Z) : run (list (scalar * scalar) * Z) :=
  if fst p =? 0 then Fault
  else
    r ← Ranges.get_range (snd p) (snd st / fst p);
    Ret (fst st ++ [r], snd st mod fst p).

(** Successive quotients by the offsets, each used as the index of a
    range of its store. *)
Fixpoint range_digits (l : list (Z * Ranges.t)) (tmp : Z)
  : run (list (scalar * scalar)) :=
  match l with
  | [] => Ret []
  | p :: l' =>
      if fst p =? 0 then Fault
      else
        r ← Ranges.get_range (snd p) (tmp / fst p);
        rest ← range_digits l' (tmp mod fst p);
        Ret (r :: rest)
  end.

(** The range [r] is the one of the store [fst p] at the index [snd p]. *)
Definition range_of (r : scalar * scalar) (p : Ranges.t * Z) : Prop :=
  Ranges.buffer_ (fst p) !! Z.to_nat (snd p) = Some r.

(** A subarray that carries estimates it never computed: the estimated
    subarray of 2 x 3 ranges, assigned from the subarray over the [CHAR]
    domain.  The assignment replaces the array, the ranges and the flags
    and leaves the map of estimates in place. *)
Definition stale_estimates : Subarray := copy_assign estimated char_subarray.

(** The two bounds of the range [snd p] have the same bytes at the type of
    the store [fst p]: [memcmp] finds no difference. *)
Definition same_bytes (p : Ranges.t * (scalar * scalar)) : bool :=
  negb (memcmp_ne (Ranges.type_ (fst p)) (fst (snd p)) (snd (snd p))).

(** A range store of the integer type [t] whose ranges have representable
    spans. *)
Definition store_representable (t : Datatype) (rs : Ranges.t) : Prop :=
  Ranges.type_ rs = t /\ Forall (span_representable t) (Ranges.buffer_ rs).

(** A two-dimensional [int32_t] subarray with the ranges [[0, 9]] and
    [[20, 24]] on the first dimension and [[5, 7]] on the second, built
    with the constructor and [add_range], its offsets computed. *)
Definition build_boxes : run Subarray :=
  s ← Subarray_new (sample_array 2 INT32 (SInt 0) (SInt 1000) ROW_MAJOR)
        ROW_MAJOR;
  p ← add_range s 0 (Some (SInt 0, SInt 9));
  p ← add_range (snd p) 0 (Some (SInt 20, SInt 24));
  p ← add_range (snd p) 1 (Some (SInt 5, SInt 7));
  compute_range_offsets (snd p).

(** The same subarray, written out. *)
Definition boxes : Subarray :=
  {| array_ := sample_array 2 INT32 (SInt 0) (SInt 1000) ROW_MAJOR;
     layout_ := ROW_MAJOR;
     ranges_ :=
       [ {| Ranges.type_ := INT32;
            Ranges.buffer_ := [(SInt 0, SInt 9); (SInt 20, SInt 24)];
            Ranges.has_default_range_ := false |};
         {| Ranges.type_ := INT32;
            Ranges.buffer_ := [(SInt 5, SInt 7)];
            Ranges.has_default_range_ := false |} ];
     range_offsets_ := [1; 1]; tile_overlap_ := [];
     est_result_size_ := ∅;
     result_est_size_computed_ := false;
     tile_overlap_computed_ := false |}.


(** The store that holds the single range [r]. *)
Definition single_store (t : Datatype) (r : scalar * scalar) : Ranges.t :=
  {| Ranges.type_ := t; Ranges.buffer_ := [r];
     Ranges.has_default_range_ := false |}.

(** A subarray over the array of [s], in its layout, with the range stores
    [stores] and nothing computed. *)
Definition fresh (s : Subarray) (stores : list Ranges.t) : Subarray :=
  {| array_ := array_ s; layout_ := layout_ s; ranges_ := stores;
     range_offsets_ := []; tile_overlap_ := [];
     est_result_size_ := ∅;
     result_est_size_computed_ := false;
     tile_overlap_computed_ := false |}.

(** Every stored range passes the checks of [add_range<T>] on its
    dimension. *)
Definition stores_ok (s : Subarray) : Prop :=
  forall i rs dlo dhi,
    ranges_ s !! i = Some rs -> domain_bounds (schema s) i dlo dhi ->
    Forall (range_ok dlo dhi) (Ranges.buffer_ rs).

(** * Proofs *)

(** ** The loops *)

Lemma bind_Ret {A B} (a : A) (k : A -> run B) : (x ← Ret a; k x) = k a.
Proof. reflexivity. Qed.

Lemma for_up_foldM {A S} (body : nat -> S -> run S) (f : A -> S -> run S)
    (l : list A) :
  forall i s,
    (forall k x s, l !! k = Some x -> body (i + k)%nat s = f x s) ->
    for_up (length l) i body s = foldM f l s.
Proof.
  induction l as [|a l IH]; intros i s H; simpl; [reflexivity|].
  rewrite <- (H 0%nat a s eq_refl), Nat.add_0_r.
  destruct (body i s); simpl; try reflexivity.
  apply IH. intros k x s' Hk.
  rewrite <- (H (Datatypes.S k) x s' Hk). f_equal. lia.
Qed.

Lemma for_down_foldM {A S} (body : nat -> S -> run S) (f : A -> S -> run S)
    (l : list A) :
  forall x s,
    (forall k y s, (l ++ [x]) !! k = Some y -> body k s = f y s) ->
    for_down (length l) body s = foldM f (x :: rev l) s.
Proof.
  induction l as [|y l IH] using rev_ind; intros x s H.
  - simpl. rewrite (H 0%nat x s eq_refl).
    destruct (f x s); reflexivity.
  - rewrite length_app, Nat.add_comm. simpl.
    rewrite rev_app_distr. simpl.
    rewrite (H (Datatypes.S (length l)) x s).
    2:{ rewrite lookup_app_r; rewrite length_app; simpl; [|lia].
        replace (Datatypes.S (length l) - (length l + 1))%nat with 0%nat by lia.
        reflexivity. }
    destruct (f x s); simpl; try reflexivity.
    apply IH. intros k z s' Hk. apply H.
    rewrite lookup_app_l; [exact Hk|].
    apply lookup_lt_Some in Hk. rewrite length_app in *. simpl in *. lia.
Qed.

Lemma foldM_pure {A S} (f : A -> S -> run S) (g : S -> A -> S) (l : list A) :
  (forall x s, f x s = Ret (g s x)) ->
  forall s, foldM f l s = Ret (fold_left g l s).
Proof.
  intros H. induction l as [|a l IH]; intros s; simpl; [reflexivity|].
  rewrite H. simpl. apply IH.
Qed.

Lemma at_Some {A} (v : list A) i x : v !! i = Some x -> at_ v i = Ret x.
Proof. unfold at_. intros ->. reflexivity. Qed.

(** ** Arithmetic on 64 bits *)

Lemma wrap64_range z : 0 <= wrap64 z < 2 ^ 64.
Proof. unfold wrap64. apply Z.mod_pos_bound. lia. Qed.

Lemma wrap64_small z : 0 <= z < 2 ^ 64 -> wrap64 z = z.
Proof. unfold wrap64. intros. apply Z.mod_small. lia. Qed.

Lemma wrap64_mul_l a b : wrap64 (wrap64 a * b) = wrap64 (a * b).
Proof. unfold wrap64. apply Z.mul_mod_idemp_l. lia. Qed.

Lemma wrap64_add a b : wrap64 (wrap64 a + wrap64 b) = wrap64 (a + b).
Proof. unfold wrap64. symmetry. apply Z.add_mod. lia. Qed.

Lemma wrap64_divide p q : (p | q) -> wrap64 p = 0 -> wrap64 q = 0.
Proof.
  unfold wrap64. intros [k ->] Hp.
  rewrite Z.mul_mod, Hp, Z.mul_0_r by lia. reflexivity.
Qed.

Lemma prodZ_cons a l : prodZ (a :: l) = a * prodZ l.
Proof. reflexivity. Qed.

Lemma prodZ_app l1 l2 : prodZ (l1 ++ l2) = prodZ l1 * prodZ l2.
Proof.
  induction l1 as [|a l1 IH].
  - change (prodZ []) with 1. simpl. lia.
  - simpl. rewrite !prodZ_cons, IH. ring.
Qed.

Lemma prodZ_rev l : prodZ (rev l) = prodZ l.
Proof.
  induction l as [|a l IH]; simpl; [reflexivity|].
  rewrite prodZ_app, IH, !prodZ_cons. change (prodZ []) with 1. ring.
Qed.

(** ** The range offsets *)

Lemma length_prefix_prods a ns : length (prefix_prods a ns) = length ns.
Proof. revert a. induction ns; intros; simpl; auto. Qed.

Lemma prefix_prods_divide ns :
  forall a, Forall (fun p => (p | a * prodZ ns)) (prefix_prods a ns).
Proof.
  induction ns as [|n ns IH]; intros a; simpl; constructor.
  - exists (prodZ (n :: ns)). ring.
  - specialize (IH (a * n)). eapply Forall_impl; [exact IH|].
    intros p [k Hk]. exists k. rewrite <- Hk, prodZ_cons. ring.
Qed.

Lemma back_snoc l x : back (l ++ [x]) = x.
Proof. unfold back. rewrite last_snoc. reflexivity. Qed.

Lemma fold_push_step l : forall acc a m,
  fold_left push_step l (acc ++ [wrap64 a])
  = acc ++ map wrap64 (prefix_prods a (map Ranges.range_num l ++ [m])).
Proof.
  induction l as [|r l IH]; intros acc a m; simpl; [reflexivity|].
  unfold push_step at 2. rewrite back_snoc, wrap64_mul_l.
  rewrite (IH (acc ++ [wrap64 a]) _ m), <- app_assoc. reflexivity.
Qed.

Lemma push_offset_at s j r offs :
  ranges_ s !! j = Some r -> push_offset s j offs = Ret (push_step offs r).
Proof. intros H. unfold push_offset. rewrite (at_Some _ _ _ H). reflexivity. Qed.

Lemma ranges_nonempty s : Subarray_inv s -> ranges_ s <> [].
Proof.
  intros [H1 H2] E. rewrite E in H2. simpl in H2. lia.
Qed.

Lemma compute_range_offsets_col s :
  Subarray_inv s -> effective_layout s = COL_MAJOR ->
  compute_range_offsets s
  = Ret (set_range_offsets s (map wrap64 (prefix_prods 1 (range_nums s)))).
Proof.
  intros Hinv HL. pose proof (ranges_nonempty s Hinv) as Hne.
  destruct Hinv as [H1 H2].
  unfold compute_range_offsets. rewrite HL.
  destruct (exists_last Hne) as (l & x & Hl).
  assert (Hd : dim_num (schema s) = Datatypes.S (length l)).
  { rewrite <- H2, Hl, length_app. simpl. lia. }
  assert (Hoffs : [1] ++ [] = [1]) by reflexivity.
  assert (Hres : fold_left push_step l [1]
                 = map wrap64 (prefix_prods 1 (range_nums s))).
  { unfold range_nums. rewrite Hl, map_app. simpl.
    apply (fold_push_step l [] 1). }
  case_decide as Hlt.
  - rewrite Hd. replace (Datatypes.S (length l) - 1)%nat with (length l) by lia.
    rewrite (for_up_foldM _ (fun r offs => Ret (push_step offs r)) l).
    + rewrite (foldM_pure _ push_step) by reflexivity. simpl. rewrite Hres.
      reflexivity.
    + intros k r offs Hk. simpl. rewrite Nat.sub_0_r.
      apply push_offset_at. rewrite Hl. apply lookup_app_l_Some. exact Hk.
  - assert (l = []) by (destruct l; [reflexivity | simpl in *; lia]). subst l.
    simpl in Hres. simpl. rewrite <- Hres. reflexivity.
Qed.

Lemma compute_range_offsets_row s :
  Subarray_inv s -> effective_layout s = ROW_MAJOR ->
  compute_range_offsets s
  = Ret (set_range_offsets s
           (rev (map wrap64 (prefix_prods 1 (rev (range_nums s)))))).
Proof.
  intros Hinv HL. pose proof (ranges_nonempty s Hinv) as Hne.
  destruct Hinv as [H1 H2].
  unfold compute_range_offsets. rewrite HL.
  destruct (ranges_ s) as [|r0 tl] eqn:Hr; [congruence|].
  assert (Hres : fold_left push_step (rev tl) [1]
                 = map wrap64 (prefix_prods 1 (rev (range_nums s)))).
  { unfold range_nums. rewrite Hr. simpl. rewrite <- map_rev.
    apply (fold_push_step (rev tl) [] 1). }
  case_decide as Hlt.
  - assert (Htl : tl <> []) by (intros ->; simpl in *; lia).
    destruct (exists_last Htl) as (l & x & Hl).
    assert (Hd : (dim_num (schema s) - 2)%nat = length l).
    { rewrite <- H2, Hl. simpl. rewrite length_app. simpl. lia. }
    rewrite Hd.
    rewrite (for_down_foldM _ (fun r offs => Ret (push_step offs r)) l x).
    + rewrite (foldM_pure _ push_step) by reflexivity. simpl.
      rewrite Hl, rev_app_distr in Hres. simpl in Hres. rewrite Hres.
      reflexivity.
    + intros k r offs Hk. apply push_offset_at.
      rewrite Hr, Hl, Nat.add_1_r. simpl. exact Hk.
  - assert (tl = []) by (destruct tl; [reflexivity | simpl in *; lia]). subst tl.
    simpl in Hres. simpl. rewrite <- Hres. reflexivity.
Qed.

(** ** Index to coordinates and back *)

Lemma coords_step_at s i o st :
  range_offsets_ s !! i = Some o -> coords_step s i st = digit_step o st.
Proof.
  intros H. unfold coords_step, digit_step. destruct st as [ret tmp].
  rewrite (at_Some _ _ _ H). reflexivity.
Qed.

Lemma foldM_digit_step os : forall acc tmp,
  foldM digit_step os (acc, tmp)
  = (cs ← digits os tmp; Ret (acc ++ cs, remainder os tmp)).
Proof.
  induction os as [|o os IH]; intros acc tmp.
  - simpl. rewrite app_nil_r. reflexivity.
  - change (foldM digit_step (o :: os) (acc, tmp))
      with (s' ← digit_step o (acc, tmp); foldM digit_step os s').
    change (digits (o :: os) tmp)
      with (if o =? 0 then Fault
            else cs ← digits os (tmp mod o); Ret (tmp / o :: cs)).
    change (remainder (o :: os) tmp) with (remainder os (tmp mod o)).
    replace (digit_step o (acc, tmp))
      with (if o =? 0 then @Fault (list Z * Z)
            else Ret (acc ++ [tmp / o], tmp mod o)) by reflexivity.
    destruct (o =? 0); [reflexivity|].
    rewrite bind_Ret, IH.
    destruct (digits os (tmp mod o)) as [cs| |]; try reflexivity.
    rewrite !bind_Ret, <- app_assoc. reflexivity.
Qed.

Lemma get_range_coords_row s idx :
  effective_layout s = ROW_MAJOR ->
  length (range_offsets_ s) = dim_num (schema s) ->
  get_range_coords s idx = digits (range_offsets_ s) idx.
Proof.
  intros HL Hlen. unfold get_range_coords. rewrite HL, <- Hlen.
  rewrite (for_up_foldM _ digit_step (range_offsets_ s)).
  - rewrite foldM_digit_step.
    destruct (digits (range_offsets_ s) idx); reflexivity.
  - intros k o st Hk. apply coords_step_at. exact Hk.
Qed.

Lemma get_range_coords_col s idx :
  effective_layout s = COL_MAJOR ->
  length (range_offsets_ s) = dim_num (schema s) ->
  (1 <= dim_num (schema s))%nat ->
  get_range_coords s idx
  = (cs ← digits (rev (range_offsets_ s)) idx; Ret (rev cs)).
Proof.
  intros HL Hlen Hd. unfold get_range_coords. rewrite HL.
  assert (Hne : range_offsets_ s <> []).
  { intros E. rewrite E in Hlen. simpl in Hlen. lia. }
  destruct (exists_last Hne) as (l & x & Hl).
  destruct (dim_num (schema s)) as [|d] eqn:Ed; [lia|].
  assert (d = length l) as ->.
  { rewrite Hl, length_app in Hlen. simpl in Hlen. lia. }
  rewrite (for_down_foldM _ digit_step l x).
  - rewrite foldM_digit_step, Hl, rev_app_distr. simpl.
    destruct (x =? 0); [reflexivity|]. simpl.
    destruct (digits (rev l) (idx mod x)); reflexivity.
  - intros k o st Hk. apply coords_step_at. rewrite Hl. exact Hk.
Qed.

Lemma fold_dot l : forall a,
  fold_left (fun ret (p : Z * Z) => wrap64 (ret + wrap64 (fst p * snd p)))
    l (wrap64 a)
  = wrap64 (a + dot (map fst l) (map snd l)).
Proof.
  induction l as [|[o c] l IH]; intros a; simpl.
  - rewrite Z.add_0_r. reflexivity.
  - rewrite wrap64_add, IH. f_equal. ring.
Qed.

Lemma range_idx_dot s c :
  length (range_offsets_ s) = dim_num (schema s) ->
  length c = dim_num (schema s) ->
  range_idx s c = Ret (wrap64 (dot (range_offsets_ s) c)).
Proof.
  intros Ho Hc. unfold range_idx.
  replace (dim_num (schema s)) with (length (zip (range_offsets_ s) c)).
  2:{ rewrite length_zip_with. lia. }
  rewrite (for_up_foldM _
             (fun (p : Z * Z) ret => Ret (wrap64 (ret + wrap64 (fst p * snd p))))).
  - rewrite (foldM_pure _
               (fun ret (p : Z * Z) => wrap64 (ret + wrap64 (fst p * snd p))))
      by reflexivity.
    change 0 with (wrap64 0) at 1. rewrite fold_dot.
    rewrite fst_zip, snd_zip by lia. reflexivity.
  - intros k [o c'] ret Hk. simpl.
    apply lookup_zip_with_Some in Hk as (o' & c'' & E & Ho' & Hc').
    inversion E; subst.
    rewrite (at_Some _ _ _ Ho'). simpl. rewrite (at_Some _ _ _ Hc'). reflexivity.
Qed.

Lemma remainder_snoc_1 os idx : remainder (os ++ [1]) idx = 0.
Proof.
  unfold remainder. rewrite fold_left_app. simpl. apply Z.mod_1_r.
Qed.

Lemma digits_dot os : forall idx,
  Forall (fun o => 0 < o) os -> 0 <= idx ->
  exists cs, digits os idx = Ret cs /\ length cs = length os
             /\ dot os cs + remainder os idx = idx.
Proof.
  induction os as [|o os IH]; intros idx Hpos Hidx; simpl.
  - exists []. simpl. unfold remainder. simpl. auto.
  - inversion Hpos as [|? ? Ho Hos]; subst.
    destruct (Z.eqb_spec o 0) as [->|_]; [lia|].
    destruct (IH (idx mod o) Hos) as (cs & Hcs & Hlen & Hsum).
    { apply Z.mod_pos_bound. lia. }
    exists (idx / o :: cs). rewrite Hcs. simpl. repeat split; [lia|].
    change (remainder (o :: os) idx) with (remainder os (idx mod o)).
    pose proof (Z.div_mod idx o). lia.
Qed.

Lemma dot_snoc a b x y :
  length a = length b -> dot (a ++ [x]) (b ++ [y]) = dot a b + x * y.
Proof.
  revert b. induction a as [|o a IH]; intros [|c b] H; simpl in *; try lia.
  rewrite IH by lia. ring.
Qed.

Lemma dot_rev a b : length a = length b -> dot (rev a) (rev b) = dot a b.
Proof.
  revert b. induction a as [|o a IH]; intros [|c b] H; simpl in *; try lia.
  rewrite dot_snoc, IH by (rewrite ?length_rev; lia). ring.
Qed.

(** The offsets are non-zero as soon as the subarray has a range. *)
Lemma offsets_positive ms :
  wrap64 (prodZ ms) <> 0 ->
  Forall (fun o => 0 < o) (map wrap64 (prefix_prods 1 ms)).
Proof.
  intros H. apply Forall_map.
  eapply Forall_impl; [apply (prefix_prods_divide ms 1)|].
  intros p Hp. simpl. pose proof (wrap64_range p).
  assert (wrap64 p <> 0); [|lia].
  intros E. apply H. rewrite Z.mul_1_l in Hp. exact (wrap64_divide _ _ Hp E).
Qed.

Lemma range_num_wrap s :
  ranges_ s <> [] -> range_num s = wrap64 (range_count s).
Proof.
  intros Hne. unfold range_num, range_count, range_nums.
  destruct (ranges_ s) as [|r l] eqn:E; [congruence|]. clear Hne E.
  assert (G : forall l a,
             fold_left (fun ret r => wrap64 (ret * Ranges.range_num r)) l (wrap64 a)
             = wrap64 (a * prodZ (map Ranges.range_num l))).
  { clear. induction l as [|r l IH]; intros a; simpl.
    - change (prodZ []) with 1. rewrite Z.mul_1_r. reflexivity.
    - rewrite wrap64_mul_l, IH, prodZ_cons. f_equal. ring. }
  change 1 with (wrap64 1) at 1. rewrite G. f_equal. lia.
Qed.

Lemma roundtrip_digits D idx :
  Forall (fun o => 0 < o) (D ++ [1]) -> 0 <= idx ->
  exists cs, digits (D ++ [1]) idx = Ret cs
             /\ length cs = length (D ++ [1])
             /\ dot (D ++ [1]) cs = idx.
Proof.
  intros Hpos Hidx.
  destruct (digits_dot (D ++ [1]) idx Hpos Hidx) as (cs & H1 & H2 & H3).
  exists cs. rewrite remainder_snoc_1 in H3. repeat split; auto. lia.
Qed.

(** What [compute_range_offsets] stores, for the two layouts it accepts. *)
Lemma compute_range_offsets_inv s0 s :
  Subarray_inv s0 -> compute_range_offsets s0 = Ret s ->
  (effective_layout s0 = ROW_MAJOR
   /\ s = set_range_offsets s0
            (rev (map wrap64 (prefix_prods 1 (rev (range_nums s0))))))
  \/ (effective_layout s0 = COL_MAJOR
      /\ s = set_range_offsets s0 (map wrap64 (prefix_prods 1 (range_nums s0)))).
Proof.
  intros Hinv H.
  destruct (effective_layout s0) eqn:HL.
  - left. rewrite (compute_range_offsets_row s0 Hinv HL) in H.
    inversion H. auto.
  - right. rewrite (compute_range_offsets_col s0 Hinv HL) in H.
    inversion H. auto.
  - unfold compute_range_offsets in H. rewrite HL in H. discriminate.
  - unfold compute_range_offsets in H. rewrite HL in H. discriminate.
Qed.

Lemma range_nums_nonempty s : Subarray_inv s -> range_nums s <> [].
Proof.
  intros Hinv E. apply (ranges_nonempty s Hinv).
  unfold range_nums in E. destruct (ranges_ s); [reflexivity | discriminate].
Qed.

Lemma length_range_nums s : length (range_nums s) = length (ranges_ s).
Proof. unfold range_nums. apply length_map. Qed.

Lemma prefix_prods_head ms :
  ms <> [] -> exists P, map wrap64 (prefix_prods 1 ms) = 1 :: P.
Proof.
  destruct ms as [|m ms]; [congruence|]. intros _. simpl.
  eexists. reflexivity.
Qed.

Lemma roundtrip_row s idx :
  Subarray_inv s -> effective_layout s = ROW_MAJOR ->
  range_offsets_ s = rev (map wrap64 (prefix_prods 1 (rev (range_nums s)))) ->
  0 <= idx < range_num s ->
  exists c, get_range_coords s idx = Ret c /\ range_idx s c = Ret idx.
Proof.
  intros Hinv HL Hoffs Hidx.
  pose proof (ranges_nonempty s Hinv) as Hne.
  pose proof (range_nums_nonempty s Hinv) as Hne'.
  rewrite (range_num_wrap s Hne) in Hidx.
  pose proof (wrap64_range (range_count s)) as Hb.
  assert (Hlen : length (range_offsets_ s) = dim_num (schema s)).
  { rewrite Hoffs, length_rev, length_map, length_prefix_prods, length_rev,
      length_range_nums. apply Hinv. }
  assert (Hpos : Forall (fun o => 0 < o) (range_offsets_ s)).
  { rewrite Hoffs. apply Forall_rev, offsets_positive.
    rewrite prodZ_rev. fold (range_count s). lia. }
  destruct (prefix_prods_head (rev (range_nums s))) as (P & HP).
  { intros E. apply Hne'. rewrite <- (rev_involutive (range_nums s)), E.
    reflexivity. }
  assert (HD : range_offsets_ s = rev P ++ [1]).
  { rewrite Hoffs, HP. reflexivity. }
  rewrite HD in Hpos.
  destruct (roundtrip_digits (rev P) idx Hpos) as (cs & H1 & H2 & H3); [lia|].
  rewrite <- HD in H1, H2, H3.
  exists cs. split.
  - rewrite get_range_coords_row by assumption. exact H1.
  - rewrite range_idx_dot by lia. rewrite H3, wrap64_small by lia. reflexivity.
Qed.

Lemma roundtrip_col s idx :
  Subarray_inv s -> effective_layout s = COL_MAJOR ->
  range_offsets_ s = map wrap64 (prefix_prods 1 (range_nums s)) ->
  0 <= idx < range_num s ->
  exists c, get_range_coords s idx = Ret c /\ range_idx s c = Ret idx.
Proof.
  intros Hinv HL Hoffs Hidx.
  pose proof (ranges_nonempty s Hinv) as Hne.
  pose proof (range_nums_nonempty s Hinv) as Hne'.
  rewrite (range_num_wrap s Hne) in Hidx.
  pose proof (wrap64_range (range_count s)) as Hb.
  assert (Hlen : length (range_offsets_ s) = dim_num (schema s)).
  { rewrite Hoffs, length_map, length_prefix_prods, length_range_nums.
    apply Hinv. }
  assert (Hpos : Forall (fun o => 0 < o) (rev (range_offsets_ s))).
  { rewrite Hoffs. apply Forall_rev, offsets_positive.
    fold (range_count s). lia. }
  destruct (prefix_prods_head (range_nums s) Hne') as (P & HP).
  assert (HD : rev (range_offsets_ s) = rev P ++ [1]).
  { rewrite Hoffs, HP. reflexivity. }
  rewrite HD in Hpos.
  destruct (roundtrip_digits (rev P) idx Hpos) as (cs & H1 & H2 & H3); [lia|].
  rewrite <- HD in H1, H2, H3. rewrite length_rev in H2.
  exists (rev cs). split.
  - rewrite get_range_coords_col by (assumption || apply Hinv).
    rewrite H1. reflexivity.
  - rewrite range_idx_dot by (rewrite ?length_rev; lia).
    rewrite <- (rev_involutive (range_offsets_ s)).
    rewrite dot_rev by (rewrite length_rev; lia).
    rewrite H3, wrap64_small by lia. reflexivity.
Qed.

(** ** Injectivity of [range_idx] *)

Lemma dot_wrap ps : forall c,
  wrap64 (dot (map wrap64 ps) c) = wrap64 (dot ps c).
Proof.
  induction ps as [|p ps IH]; intros [|c cs]; simpl; try reflexivity.
  rewrite <- wrap64_add, wrap64_mul_l, IH, wrap64_add. reflexivity.
Qed.

Lemma dot_prefix_prods ns : forall c a,
  length c = length ns -> dot (prefix_prods a ns) c = a * horner ns c.
Proof.
  induction ns as [|n ns IH]; intros [|c cs] a H; simpl in *; try lia.
  rewrite IH by lia. ring.
Qed.

Lemma horner_bound ns c :
  Forall2 (fun ci n => 0 <= ci < n) c ns -> 0 <= horner ns c < prodZ ns.
Proof.
  induction 1 as [|ci n c ns Hc _ IH]; simpl.
  - change (prodZ []) with 1. lia.
  - rewrite prodZ_cons. nia.
Qed.

Lemma horner_inj ns : forall c c',
  Forall2 (fun ci n => 0 <= ci < n) c ns ->
  Forall2 (fun ci n => 0 <= ci < n) c' ns ->
  horner ns c = horner ns c' -> c = c'.
Proof.
  induction ns as [|n ns IH]; intros c c' H H' E.
  - inversion H; inversion H'; reflexivity.
  - inversion H as [|ci ? cs ? Hc Hcs]; subst.
    inversion H' as [|ci' ? cs' ? Hc' Hcs']; subst.
    simpl in E.
    set (h := horner ns cs) in *. set (h' := horner ns cs') in *.
    assert (Hh : h = h').
    { destruct (Z.lt_trichotomy h h') as [L|[L|L]]; [|exact L|]; nia. }
    assert (ci = ci') by (rewrite Hh in E; lia).
    subst ci'. f_equal. apply IH; auto.
Qed.

Lemma Forall2_rev_Z (P : Z -> Z -> Prop) l k :
  Forall2 P l k -> Forall2 P (rev l) (rev k).
Proof.
  induction 1 as [|x y l k Hxy _ IH]; simpl; [constructor|].
  apply Forall2_app; [exact IH | repeat constructor; exact Hxy].
Qed.

Lemma range_idx_injective_col s c c' :
  Subarray_inv s ->
  range_offsets_ s = map wrap64 (prefix_prods 1 (range_nums s)) ->
  range_count s <= 2 ^ 64 ->
  valid_range_coords s c -> valid_range_coords s c' ->
  range_idx s c = range_idx s c' -> c = c'.
Proof.
  intros Hinv Hoffs Hcount Hc Hc' E.
  pose proof (Forall2_length _ _ _ Hc) as Lc.
  pose proof (Forall2_length _ _ _ Hc') as Lc'.
  rewrite length_range_nums in Lc, Lc'.
  assert (Hlen : length (range_offsets_ s) = dim_num (schema s)).
  { rewrite Hoffs, length_map, length_prefix_prods, length_range_nums.
    apply Hinv. }
  destruct Hinv as [_ H2].
  rewrite !range_idx_dot in E by lia.
  inversion E as [E']. clear E.
  rewrite Hoffs, !dot_wrap in E'.
  rewrite !dot_prefix_prods, !Z.mul_1_l in E'
    by (rewrite length_range_nums; lia).
  pose proof (horner_bound _ _ Hc). pose proof (horner_bound _ _ Hc').
  unfold range_count in Hcount.
  rewrite !wrap64_small in E' by lia.
  eapply horner_inj; eauto.
Qed.

Lemma range_idx_injective_row s c c' :
  Subarray_inv s ->
  range_offsets_ s = rev (map wrap64 (prefix_prods 1 (rev (range_nums s)))) ->
  range_count s <= 2 ^ 64 ->
  valid_range_coords s c -> valid_range_coords s c' ->
  range_idx s c = range_idx s c' -> c = c'.
Proof.
  intros Hinv Hoffs Hcount Hc Hc' E.
  pose proof (Forall2_length _ _ _ Hc) as Lc.
  pose proof (Forall2_length _ _ _ Hc') as Lc'.
  rewrite length_range_nums in Lc, Lc'.
  assert (Hlen : length (range_offsets_ s) = dim_num (schema s)).
  { rewrite Hoffs, length_rev, length_map, length_prefix_prods, length_rev,
      length_range_nums. apply Hinv. }
  destruct Hinv as [_ H2].
  rewrite !range_idx_dot in E by lia.
  inversion E as [E']. clear E.
  rewrite Hoffs in E'.
  rewrite <- (rev_involutive c), <- (rev_involutive c') in E'.
  rewrite !dot_rev in E'
    by (rewrite !length_rev, length_map, length_prefix_prods, length_rev,
          length_range_nums; lia).
  rewrite !dot_wrap in E'.
  rewrite !dot_prefix_prods, !Z.mul_1_l in E'
    by (rewrite !length_rev, length_range_nums; lia).
  assert (Hr : Forall2 (fun ci n => 0 <= ci < n) (rev c) (rev (range_nums s)))
    by (apply Forall2_rev_Z; exact Hc).
  assert (Hr' : Forall2 (fun ci n => 0 <= ci < n) (rev c') (rev (range_nums s)))
    by (apply Forall2_rev_Z; exact Hc').
  pose proof (horner_bound _ _ Hr) as B. pose proof (horner_bound _ _ Hr') as B'.
  rewrite prodZ_rev in B, B'. unfold range_count in Hcount.
  rewrite !wrap64_small in E' by lia.
  apply (horner_inj _ _ _ Hr Hr') in E'.
  rewrite <- (rev_involutive c), <- (rev_involutive c'), E'. reflexivity.
Qed.

(** ** Sample subarrays *)

Example build_grid_2_3 layout : build_grid 2 3 layout = Ret (grid 2 3 layout).
Proof. destruct layout; vm_compute; reflexivity. Qed.

Example build_grid_2_1 layout : build_grid 2 1 layout = Ret (grid 2 1 layout).
Proof. destruct layout; vm_compute; reflexivity. Qed.

Example build_grid_17_16 : build_grid 17 16 ROW_MAJOR = Ret (grid 17 16 ROW_MAJOR).
Proof. vm_compute. reflexivity. Qed.

Lemma grid_inv d n layout : (1 <= d)%nat -> Subarray_inv (grid d n layout).
Proof.
  intros H. split; simpl; [exact H|]. apply length_replicate.
Qed.

(** ** The class invariant *)

Lemma for_up_inv {S} (P : S -> Prop) (body : nat -> S -> run S) n :
  (forall i s s', body i s = Ret s' -> P s -> P s') ->
  forall i s s', for_up n i body s = Ret s' -> P s -> P s'.
Proof.
  intros Hb. induction n as [|n IH]; intros i s s' H Hs; simpl in H.
  - inversion H; subst. exact Hs.
  - destruct (body i s) as [s1| |] eqn:E; try discriminate.
    rewrite bind_Ret in H. eapply IH; eauto.
Qed.

(** The constructor establishes the invariant. *)
Lemma Subarray_new_inv array layout s :
  (1 <= dim_num (array_schema array))%nat ->
  Subarray_new array layout = Ret s -> Subarray_inv s.
Proof.
  intros Hd H. unfold Subarray_new, add_default_ranges in H.
  assert (G : schema s = array_schema array
              /\ length (ranges_ s) = dim_num (array_schema array)).
  { eapply (for_up_inv
              (fun s => schema s = array_schema array
                        /\ length (ranges_ s) = dim_num (array_schema array)));
      [|exact H|].
    - intros i s1 s2 Hb [Hs Hl]. unfold add_default_range in Hb.
      destruct (at_ (ranges_ s1) i) as [rs| |]; try discriminate.
      rewrite bind_Ret in Hb.
      destruct (at_ (domain (schema s1)) (2 * i)) as [lo| |]; try discriminate.
      rewrite bind_Ret in Hb.
      destruct (at_ (domain (schema s1)) (2 * i + 1)) as [hi| |];
        try discriminate.
      rewrite bind_Ret in Hb. inversion Hb; subst. split.
      + exact Hs.
      + simpl. rewrite length_insert. exact Hl.
    - split; [reflexivity|]. simpl. apply length_replicate. }
  destruct G as [Hs Hl]. split; rewrite Hs; assumption.
Qed.

(** [add_range] preserves it. *)
Lemma add_range_inv s dim_idx range st s' :
  Subarray_inv s -> add_range s dim_idx range = Ret (st, s') -> Subarray_inv s'.
Proof.
  intros Hinv H.
  assert (G : forall r, add_range_T s dim_idx r = Ret (st, s') -> Subarray_inv s').
  { clear H. intros r H. unfold add_range_T in H.
    destruct (negb _); [discriminate|].
    fold (flags_cleared s) in H.
    change (schema (flags_cleared s)) with (schema s) in H.
    change (ranges_ (flags_cleared s)) with (ranges_ s) in H.
    assert (Hf : Subarray_inv (flags_cleared s))
      by (destruct Hinv; split; assumption).
    destruct (check_nan r); [|inversion H; subst; exact Hf].
    destruct (scalar_gt _ _); [inversion H; subst; exact Hf|].
    destruct (at_ (domain (schema s)) (2 * dim_idx)) as [dlo| |];
      try discriminate.
    rewrite bind_Ret in H.
    destruct (scalar_lt (fst r) dlo).
    - rewrite bind_Ret in H. inversion H; subst. exact Hf.
    - destruct (at_ (domain (schema s)) (2 * dim_idx + 1)) as [dhi| |];
        try discriminate.
      rewrite !bind_Ret in H.
      destruct (scalar_gt (snd r) dhi); [inversion H; subst; exact Hf|].
      destruct (at_ (ranges_ s) dim_idx) as [rs| |]; try discriminate.
      rewrite bind_Ret in H. inversion H; subst.
      destruct Hinv as [H1 H2]. split; [exact H1|].
      simpl. rewrite length_insert. exact H2. }
  unfold add_range in H. destruct range as [r|]; [|inversion H; subst; exact Hinv].
  destruct (bool_decide _); [inversion H; subst; exact Hinv|].
  destruct (domain_type (schema s));
    try (exact (G r H)); inversion H; subst; exact Hinv.
Qed.

(** ** Index round trip and injectivity *)

Lemma set_range_offsets_inv s offs :
  Subarray_inv s -> Subarray_inv (set_range_offsets s offs).
Proof. intros [H1 H2]. split; assumption. Qed.

Lemma roundtrip s0 s idx :
  Subarray_inv s0 -> compute_range_offsets s0 = Ret s ->
  0 <= idx < range_num s ->
  exists c, get_range_coords s idx = Ret c /\ range_idx s c = Ret idx.
Proof.
  intros Hinv H Hidx.
  destruct (compute_range_offsets_inv s0 s Hinv H) as [[HL ->]|[HL ->]].
  - apply roundtrip_row; auto using set_range_offsets_inv.
  - apply roundtrip_col; auto using set_range_offsets_inv.
Qed.

Lemma range_idx_injective s0 s c c' :
  Subarray_inv s0 -> compute_range_offsets s0 = Ret s ->
  range_count s <= 2 ^ 64 ->
  valid_range_coords s c -> valid_range_coords s c' ->
  range_idx s c = range_idx s c' -> c = c'.
Proof.
  intros Hinv H Hc V V' E.
  destruct (compute_range_offsets_inv s0 s Hinv H) as [[HL ->]|[HL ->]].
  - match type of V with
    | valid_range_coords ?s _ => apply (range_idx_injective_row s c c')
    end; auto using set_range_offsets_inv.
  - match type of V with
    | valid_range_coords ?s _ => apply (range_idx_injective_col s c c')
    end; auto using set_range_offsets_inv.
Qed.

(** C1 (amended).  After [compute_range_offsets], for the row-major and the
    col-major effective layout alike: every linear index below [range_num]
    is converted by [get_range_coords] to coordinates that [range_idx]
    converts back to the index; and [range_idx] is injective on the valid
    coordinate vectors provided that the number of ranges, the product of
    the per-dimension counts, does not exceed [2^64]. *)
Theorem range_idx_get_range_coords :
  forall s0 s,
    Subarray_inv s0 ->
    compute_range_offsets s0 = Ret s ->
    (forall idx, 0 <= idx < range_num s ->
       exists c, get_range_coords s idx = Ret c /\ range_idx s c = Ret idx)
    /\ (range_count s <= 2 ^ 64 ->
        forall c c', valid_range_coords s c -> valid_range_coords s c' ->
                     range_idx s c = range_idx s c' -> c = c').
Proof.
  intros s0 s Hinv H. split.
  - intros idx Hidx. exact (roundtrip s0 s idx Hinv H Hidx).
  - intros Hc c c' V V' E. exact (range_idx_injective s0 s c c' Hinv H Hc V V' E).
Qed.

(** The theorem at a col-major subarray of 2 x 3 ranges and the index 4,
    whose coordinates are [(1, 1)]. *)
Lemma range_idx_get_range_coords_witness :
  exists s,
    compute_range_offsets (grid 2 3 COL_MAJOR) = Ret s
    /\ (exists c, get_range_coords s 4 = Ret c /\ range_idx s c = Ret 4)
    /\ (forall c', valid_range_coords s c' -> range_idx s c' = Ret 4 ->
                   c' = [1; 1]).
Proof.
  eexists. split; [reflexivity|].
  destruct (range_idx_get_range_coords (grid 2 3 COL_MAJOR) _
              (grid_inv 2 3 COL_MAJOR ltac:(lia)) eq_refl) as [R I].
  split.
  - apply (R 4). split; [lia | vm_compute; reflexivity].
  - intros c' V E. apply (I ltac:(vm_compute; discriminate) c' [1; 1] V).
    + unfold valid_range_coords. vm_compute. repeat constructor; discriminate.
    + rewrite E. vm_compute. reflexivity.
Defined.

(** Seventeen dimensions of sixteen ranges each: [2^68] ranges.  The offset
    of dimension 0 is [16^16 mod 2^64 = 0], and two valid coordinate
    vectors have the linear index 0. *)
Lemma range_idx_not_injective :
  exists s,
    build_grid 17 16 ROW_MAJOR = Ret (grid 17 16 ROW_MAJOR)
    /\ compute_range_offsets (grid 17 16 ROW_MAJOR) = Ret s
    /\ valid_range_coords s (replicate 17 0)
    /\ valid_range_coords s (1 :: replicate 16 0)
    /\ range_idx s (replicate 17 0) = Ret 0
    /\ range_idx s (1 :: replicate 16 0) = Ret 0
    /\ replicate 17 0 <> 1 :: replicate 16 0.
Proof.
  eexists. split; [exact build_grid_17_16|].
  split; [vm_compute; reflexivity|].
  split; [unfold valid_range_coords; vm_compute; repeat constructor; discriminate|].
  split; [unfold valid_range_coords; vm_compute; repeat constructor; discriminate|].
  split; [vm_compute; reflexivity|].
  split; [vm_compute; reflexivity|].
  discriminate.
Qed.

(** ** The number of ranges *)

Lemma range_count_nonneg s : 0 <= range_count s.
Proof.
  unfold range_count, range_nums.
  induction (ranges_ s) as [|r l IH]; simpl.
  - change (prodZ []) with 1. lia.
  - rewrite prodZ_cons. unfold Ranges.range_num at 1. nia.
Qed.

(** C5 (amended).  [range_num] is the product of the per-dimension range
    counts reduced modulo [2^64] (and 0 for a subarray without range
    store): the product itself whenever it is below [2^64]; the
    multiplication wraps, it does not saturate. *)
Theorem range_num_product :
  forall s,
    (ranges_ s = [] -> range_num s = 0)
    /\ (ranges_ s <> [] -> range_num s = range_count s mod 2 ^ 64)
    /\ (ranges_ s <> [] -> range_count s < 2 ^ 64 ->
        range_num s = range_count s).
Proof.
  intros s. split; [|split].
  - intros E. unfold range_num. rewrite E. reflexivity.
  - intros Hne. apply range_num_wrap. exact Hne.
  - intros Hne Hlt. rewrite (range_num_wrap s Hne).
    apply wrap64_small. pose proof (range_count_nonneg s). lia.
Qed.

(** The theorem at a subarray of 2 x 3 ranges. *)
Lemma range_num_product_witness :
  range_num (grid 2 3 ROW_MAJOR) = range_count (grid 2 3 ROW_MAJOR)
  /\ range_count (grid 2 3 ROW_MAJOR) = 9.
Proof.
  split; [|reflexivity].
  apply (proj2 (proj2 (range_num_product (grid 2 3 ROW_MAJOR)))).
  - discriminate.
  - vm_compute. reflexivity.
Defined.

(** Seventeen dimensions of sixteen ranges each: the product is [2^68],
    and [range_num] is 0, neither the product nor [UINT64_MAX]. *)
Lemma range_num_wraps :
  build_grid 17 16 ROW_MAJOR = Ret (grid 17 16 ROW_MAJOR)
  /\ range_count (grid 17 16 ROW_MAJOR) = 2 ^ 68
  /\ range_num (grid 17 16 ROW_MAJOR) = 0
  /\ range_num (grid 17 16 ROW_MAJOR) <> UINT64_MAX
  /\ range_num (grid 17 16 ROW_MAJOR) <> range_count (grid 17 16 ROW_MAJOR).
Proof.
  split; [exact build_grid_17_16|].
  repeat split; vm_compute; congruence.
Qed.

(** ** Layouts *)

Lemma effective_layout_unordered s :
  layout_ s = UNORDERED ->
  effective_layout (with_layout s (cell_order (schema s))) = effective_layout s.
Proof.
  intros H. unfold effective_layout. rewrite H. simpl.
  unfold schema. simpl. destruct (cell_order (array_schema (array_ s))); reflexivity.
Qed.

Lemma compute_range_offsets_with_layout s l :
  effective_layout (with_layout s l) = effective_layout s ->
  run_map range_offsets_ (compute_range_offsets (with_layout s l))
  = run_map range_offsets_ (compute_range_offsets s).
Proof.
  intros H. unfold compute_range_offsets. rewrite H.
  unfold push_offset, schema. simpl.
  destruct (effective_layout s); try reflexivity; case_decide; try reflexivity.
  - match goal with
    | |- context [for_down ?n ?f ?a] => destruct (for_down n f a)
    end; reflexivity.
  - match goal with
    | |- context [for_up ?n ?i ?f ?a] => destruct (for_up n i f a)
    end; reflexivity.
Qed.

Lemma get_range_coords_succeeds s0 s idx :
  Subarray_inv s0 -> compute_range_offsets s0 = Ret s ->
  0 <= idx < range_num s -> exists c, get_range_coords s idx = Ret c.
Proof.
  intros Hinv H Hidx.
  destruct (roundtrip s0 s idx Hinv H Hidx) as (c & Hc & _).
  exists c. exact Hc.
Qed.

(** C7 (amended).  With the row-major or the col-major layout, and with the
    unordered layout, which stands for the cell order of the array,
    [compute_range_offsets] succeeds and [get_range_coords] converts every
    linear index below [range_num]; the unordered layout gives the offsets
    and the coordinates of the cell order.  With the global-order layout
    both functions end in the [assert(false)] of their last branch. *)
Theorem range_offsets_layouts :
  forall s0,
    Subarray_inv s0 ->
    (effective_layout s0 = ROW_MAJOR \/ effective_layout s0 = COL_MAJOR ->
     exists s, compute_range_offsets s0 = Ret s
               /\ forall idx, 0 <= idx < range_num s ->
                              exists c, get_range_coords s idx = Ret c)
    /\ (layout_ s0 = UNORDERED ->
        run_map range_offsets_ (compute_range_offsets s0)
        = run_map range_offsets_
            (compute_range_offsets (with_layout s0 (cell_order (schema s0))))
        /\ forall idx,
             get_range_coords s0 idx
             = get_range_coords (with_layout s0 (cell_order (schema s0))) idx)
    /\ (layout_ s0 = GLOBAL_ORDER ->
        compute_range_offsets s0 = AssertFail
        /\ forall idx, get_range_coords s0 idx = AssertFail).
Proof.
  intros s0 Hinv. split; [|split].
  - intros HL.
    assert (exists s, compute_range_offsets s0 = Ret s) as [s Hs].
    { destruct HL as [HL|HL].
      - rewrite (compute_range_offsets_row s0 Hinv HL). eauto.
      - rewrite (compute_range_offsets_col s0 Hinv HL). eauto. }
    exists s. split; [exact Hs|].
    intros idx Hidx. eapply get_range_coords_succeeds; eauto.
  - intros HU. pose proof (effective_layout_unordered s0 HU) as E.
    split.
    + symmetry. apply compute_range_offsets_with_layout. exact E.
    + intros idx. unfold get_range_coords. rewrite E. reflexivity.
  - intros HG. split.
    + unfold compute_range_offsets, effective_layout. rewrite HG. reflexivity.
    + intros idx. unfold get_range_coords, effective_layout. rewrite HG.
      reflexivity.
Qed.

(** The theorem at three subarrays of 2 x 3 ranges: row-major, unordered
    (on an array whose cell order is row-major) and global-order. *)
Lemma range_offsets_layouts_witness :
  (exists s, compute_range_offsets (grid 2 3 ROW_MAJOR) = Ret s
             /\ exists c, get_range_coords s 5 = Ret c)
  /\ run_map range_offsets_ (compute_range_offsets (grid 2 3 UNORDERED))
     = Ret [3; 1]
  /\ compute_range_offsets (grid 2 3 GLOBAL_ORDER) = AssertFail.
Proof.
  split; [|split].
  - destruct (proj1 (range_offsets_layouts (grid 2 3 ROW_MAJOR)
                       (grid_inv 2 3 ROW_MAJOR ltac:(lia)))
                (or_introl eq_refl)) as (s & Hs & Hc).
    exists s. split; [exact Hs|]. apply Hc.
    rewrite (range_num_wrap s).
    + assert (E : range_count s = 9).
      { vm_compute in Hs. inversion Hs. reflexivity. }
      rewrite E. vm_compute. split; [discriminate | reflexivity].
    + vm_compute in Hs. inversion Hs. discriminate.
  - rewrite (proj1 (proj1 (proj2 (range_offsets_layouts (grid 2 3 UNORDERED)
                       (grid_inv 2 3 UNORDERED ltac:(lia)))) eq_refl)).
    vm_compute. reflexivity.
  - exact (proj1 (proj2 (proj2 (range_offsets_layouts (grid 2 3 GLOBAL_ORDER)
                       (grid_inv 2 3 GLOBAL_ORDER ltac:(lia)))) eq_refl)).
Defined.

(** A global-order subarray of 2 x 3 ranges: the offsets are not computed,
    whereas the same ranges in row-major layout give the offsets
    [[3; 1]]. *)
Lemma global_order_not_row_major :
  build_grid 2 3 GLOBAL_ORDER = Ret (grid 2 3 GLOBAL_ORDER)
  /\ compute_range_offsets (grid 2 3 GLOBAL_ORDER) = AssertFail
  /\ get_range_coords (grid 2 3 GLOBAL_ORDER) 0 = AssertFail
  /\ run_map range_offsets_ (compute_range_offsets (grid 2 3 ROW_MAJOR))
     = Ret [3; 1]
  /\ run_map range_offsets_ (compute_range_offsets (grid 2 3 GLOBAL_ORDER))
     <> run_map range_offsets_ (compute_range_offsets (grid 2 3 ROW_MAJOR)).
Proof.
  split; [apply build_grid_2_3|].
  repeat split; try (vm_compute; reflexivity).
  vm_compute. discriminate.
Qed.

(** ** Unary subarrays *)

Lemma mod_window_inj M lo a b :
  0 < M -> lo <= a < lo + M -> lo <= b < lo + M ->
  a mod M = b mod M -> a = b.
Proof.
  intros HM Ha Hb E.
  pose proof (Z.div_mod a M ltac:(lia)) as Da.
  pose proof (Z.div_mod b M ltac:(lia)) as Db.
  rewrite E in Da.
  assert (a / M = b / M); [|nia].
  destruct (Z.lt_trichotomy (a / M) (b / M)) as [L|[L|L]]; [|exact L|]; nia.
Qed.

Lemma object_repr_int_inj t a b :
  has_type t (SInt a) -> has_type t (SInt b) ->
  object_repr t (SInt a) = object_repr t (SInt b) -> a = b.
Proof.
  intros [Hi Ha] [_ Hb] E. simpl in E.
  apply (mod_window_inj (2 ^ (8 * datatype_size t)) (int_min t)); auto;
    destruct t; try discriminate Hi; simpl in *;
    change (8 * 1) with 8 in *; change (8 * 2) with 16 in *;
    change (8 * 4) with 32 in *; change (8 * 8) with 64 in *; clear E; lia.
Qed.

Lemma unary_bytes_value r :
  integral_typed r -> unary_bytes r <-> unary_value r.
Proof.
  intros [Hint Hty]. unfold unary_bytes, unary_value, first_range.
  destruct (Ranges.buffer_ r) as [|[lo hi] l] eqn:E; simpl; [tauto|].
  inversion Hty as [|? ? [Hlo Hhi] _]; subst. simpl in *.
  destruct lo as [a|f], hi as [b|g]; simpl in *;
    try (destruct Hlo; congruence); try (destruct Hhi; congruence);
    try congruence.
  split.
  - intros H. apply Z.eqb_eq. eapply object_repr_int_inj; eauto.
  - intros H. apply Z.eqb_eq in H. subst. reflexivity.
Qed.

Lemma is_unary_ranges_spec rs :
  Forall (fun r => Ranges.buffer_ r <> []) rs ->
  exists b, is_unary_ranges rs = Ret b /\ (b = true <-> Forall unary_bytes rs).
Proof.
  induction 1 as [|r rs Hr _ (b & Hb & IH)].
  - exists true. split; [reflexivity|]. split; auto.
  - destruct (Ranges.buffer_ r) as [|[lo hi] l] eqn:E; [congruence|].
    assert (Hu : unary_bytes r
                 <-> object_repr (Ranges.type_ r) lo = object_repr (Ranges.type_ r) hi).
    { unfold unary_bytes, first_range. rewrite E. reflexivity. }
    simpl. unfold Ranges.get_range, at_. rewrite E. simpl.
    unfold memcmp_ne.
    destruct (Z.eqb_spec (object_repr (Ranges.type_ r) lo)
                (object_repr (Ranges.type_ r) hi)) as [Heq|Hne]; simpl.
    + exists b. split; [exact Hb|]. rewrite IH. split.
      * intros H. constructor; [apply Hu; exact Heq | exact H].
      * intros H. inversion H; assumption.
    + exists false. split; [reflexivity|]. split; [discriminate|].
      intros H. inversion H as [|? ? H1 _]; subst. apply Hu in H1. contradiction.
Qed.

Lemma prodZ_zero ns : In 0 ns -> prodZ ns = 0.
Proof.
  induction ns as [|n ns IH]; simpl; [tauto|].
  rewrite prodZ_cons. intros [->|H]; [lia|]. rewrite IH by assumption. lia.
Qed.

Lemma range_num_1_nonempty s :
  range_num s = 1 -> Forall (fun r => Ranges.buffer_ r <> []) (ranges_ s).
Proof.
  intros H. apply Forall_forall. intros r Hr E.
  assert (Hne : ranges_ s <> []) by (intros E'; rewrite E' in Hr; inversion Hr).
  rewrite (range_num_wrap s Hne) in H.
  unfold range_count in H. rewrite prodZ_zero in H; [discriminate|].
  unfold range_nums. apply in_map_iff. exists r. split.
  - unfold Ranges.range_num. rewrite E. reflexivity.
  - apply list_elem_of_In. exact Hr.
Qed.

Lemma Forall_iff_on {A} (P Q R : A -> Prop) l :
  Forall R l -> (forall x, R x -> (P x <-> Q x)) -> Forall P l <-> Forall Q l.
Proof.
  intros HR H. induction HR as [|x l Hx _ IH].
  - split; constructor.
  - split; intros G; inversion G; subst; constructor;
      try (apply (H x Hx); assumption); apply IH; assumption.
Qed.

(** C4 (amended).  [is_unary()] always returns, and it returns true if and
    only if [range_num() == 1] and, on every dimension, the bounds of the
    single range have identical bytes.  For the eight integer types this is
    [lo == hi]; for [float] and [double] it is equality of the bit
    patterns. *)
Theorem is_unary_iff :
  forall s,
    exists b,
      is_unary s = Ret b
      /\ (b = true <-> range_num s = 1 /\ Forall unary_bytes (ranges_ s))
      /\ (Forall integral_typed (ranges_ s) ->
          (b = true <-> range_num s = 1 /\ Forall unary_value (ranges_ s))).
Proof.
  intros s. unfold is_unary.
  destruct (Z.eqb_spec (range_num s) 1) as [H1|H1]; simpl.
  - destruct (is_unary_ranges_spec (ranges_ s) (range_num_1_nonempty s H1))
      as (b & Hb & Hiff).
    exists b. split; [exact Hb|]. split.
    + rewrite Hiff. tauto.
    + intros Hty. rewrite Hiff.
      rewrite (Forall_iff_on unary_bytes unary_value integral_typed _ Hty
                 unary_bytes_value).
      tauto.
  - exists false. split; [reflexivity|]. split; [|intros _]; split;
      try discriminate; intros [H _]; contradiction.
Qed.

Lemma grid_2_1_integral_typed :
  Forall integral_typed (ranges_ (grid 2 1 ROW_MAJOR)).
Proof.
  repeat constructor; simpl; lia.
Qed.

(** The theorem at a subarray of 2 x 1 unary ranges, which is unary. *)
Lemma is_unary_iff_witness :
  is_unary (grid 2 1 ROW_MAJOR) = Ret true
  /\ range_num (grid 2 1 ROW_MAJOR) = 1
  /\ Forall unary_value (ranges_ (grid 2 1 ROW_MAJOR)).
Proof.
  destruct (is_unary_iff (grid 2 1 ROW_MAJOR)) as (b & Hb & _ & Hv).
  assert (E : is_unary (grid 2 1 ROW_MAJOR) = Ret true) by reflexivity.
  rewrite E in Hb. inversion Hb; subst b.
  split; [reflexivity|].
  apply (proj1 (Hv grid_2_1_integral_typed)). reflexivity.
Defined.

(** A [float] dimension with the single range [[-0.0, +0.0]]:
    [range_num() == 1] and [lo == hi], yet [is_unary()] is false, because
    the two zeros differ in their sign bit. *)
Lemma is_unary_signed_zero :
  build_zero_range = Ret zero_range
  /\ range_num zero_range = 1
  /\ Forall unary_value (ranges_ zero_range)
  /\ is_unary zero_range = Ret false.
Proof.
  split; [vm_compute; reflexivity|].
  split; [reflexivity|].
  split; [repeat constructor|vm_compute; reflexivity].
Qed.

(** ** Cells of a range *)

(** C3 (the code at the failing input).  On an [int32_t] dimension the
    default range [[-2000000000, 2000000000]] holds 4000000001 cells, a
    number that fits 64 bits; the subtraction [r[1] - r[0]] is carried out
    in [int] and leaves it, and [cell_num<int32_t>] returns
    [2^64 - 294967295]. *)
Theorem cell_num_int32_wide_range :
  build_wide_int32 = Ret wide_int32
  /\ range wide_int32 0 = Ret [(SInt (-2000000000), SInt 2000000000)]
  /\ range_cell_count [(SInt (-2000000000), SInt 2000000000)] = 4000000001
  /\ cell_num INT32 wide_int32 0 = Ret 18446744073414584321
  /\ 18446744073414584321 = 2 ^ 64 - 294967295.
Proof.
  repeat split; vm_compute; reflexivity.
Qed.

(** Apart from that case the loop of [cell_num] computes the saturated
    product. *)
Lemma span_exact t l h :
  supported_type t = true -> is_integral t = true ->
  int_min t <= l -> l <= h -> h <= int_max t ->
  (t = INT32 -> h - l < 2 ^ 31) ->
  span t (SInt l) (SInt h) = h - l.
Proof.
  intros Hs Hi Hl Hlh Hh H32. unfold span, wrap64, wrap_signed.
  destruct t; try discriminate; simpl in *;
    change (8 * 1) with 8 in *; change (8 * 2) with 16 in *;
    change (8 * 4) with 32 in *; change (8 * 8) with 64 in *;
    change (32 - 1) with 31; change (64 - 1) with 63;
    try specialize (H32 eq_refl).
  all: try (rewrite (Z.mod_small (h - l + 2 ^ 31)) by lia;
            rewrite Z.mod_small by lia; lia).
  all: try (rewrite Z.mod_small by lia; lia).
  - (* INT64 *)
    destruct (Z_lt_ge_dec (h - l) (2 ^ 63)) as [L|G].
    + rewrite (Z.mod_small (h - l + 2 ^ 63)) by lia.
      rewrite Z.mod_small by lia. lia.
    + replace (h - l + 2 ^ 63) with ((h - l - 2 ^ 63) + 1 * 2 ^ 64) by lia.
      rewrite Z.mod_add by lia.
      rewrite (Z.mod_small (h - l - 2 ^ 63)) by lia.
      replace (h - l - 2 ^ 63 - 2 ^ 63) with ((h - l) + (-1) * 2 ^ 64) by lia.
      rewrite Z.mod_add by lia. rewrite Z.mod_small by lia. reflexivity.
Qed.

Lemma range_cell_count_pos t rg :
  Forall (span_representable t) rg -> 1 <= range_cell_count rg.
Proof.
  unfold range_cell_count.
  induction 1 as [|r rg (l & h & -> & _ & Hlh & _) _ IH]; simpl.
  - change (prodZ []) with 1. lia.
  - rewrite prodZ_cons. nia.
Qed.

Lemma cell_num_loop_product t rg :
  supported_type t = true -> is_integral t = true ->
  Forall (span_representable t) rg ->
  forall p, 1 <= p ->
    cell_num_loop t rg (saturate p) = saturate (p * range_cell_count rg).
Proof.
  intros Hs Hi Hrg.
  induction Hrg as [|r rg (l & h & -> & Hl & Hlh & Hh & H32) Hrest IH];
    intros p Hp.
  - simpl. unfold range_cell_count. simpl. change (prodZ []) with 1.
    rewrite Z.mul_1_r. reflexivity.
  - pose proof (range_cell_count_pos t rg Hrest) as Hpos.
    assert (Hc : range_cell_count ((SInt l, SInt h) :: rg)
                 = (h - l + 1) * range_cell_count rg).
    { unfold range_cell_count. simpl. rewrite prodZ_cons. reflexivity. }
    rewrite Hc. cbn [cell_num_loop fst snd].
    rewrite (span_exact t l h Hs Hi Hl Hlh Hh H32).
    unfold saturate, UINT64_MAX in *.
    destruct (Z.eqb_spec (h - l) (2 ^ 64 - 1)) as [E|NE].
    + rewrite Z.min_r by nia. reflexivity.
    + assert (Hb : h - l + 1 <= 2 ^ 64 - 1).
      { assert (h - l <= 2 ^ 64 - 1); [|lia].
        destruct t; try discriminate; simpl in *; lia. }
      assert (Hm : safe_mul (h - l + 1) (Z.min p (2 ^ 64 - 1))
                   = Z.min ((h - l + 1) * p) (2 ^ 64 - 1)).
      { unfold safe_mul, UINT64_MAX.
        destruct (Z.le_gt_cases p (2 ^ 64 - 1)) as [Lp|Gp].
        - rewrite (Z.min_l p) by lia.
          destruct (Z.leb_spec ((h - l + 1) * p) (2 ^ 64 - 1)); lia.
        - rewrite (Z.min_r p) by lia.
          destruct (Z.leb_spec ((h - l + 1) * (2 ^ 64 - 1)) (2 ^ 64 - 1)); nia. }
      rewrite Hm. rewrite IH by nia. f_equal. ring.
Qed.

(** [cell_num<T>] by cases: 1 on a unary range; [UINT64_MAX] on a
    non-unary range of a real type; the saturated product on a non-unary
    range of an integer type whose spans are representable. *)
Lemma cell_num_cases t s idx u :
  is_unary_at s idx = Ret u ->
  (u = true -> cell_num t s idx = Ret 1)
  /\ (u = false -> is_integral t = false -> cell_num t s idx = Ret UINT64_MAX)
  /\ (u = false -> is_integral t = true -> supported_type t = true ->
      forall rg, range s idx = Ret rg -> Forall (span_representable t) rg ->
                 cell_num t s idx = Ret (saturate (range_cell_count rg))).
Proof.
  intros Hu. unfold cell_num. rewrite Hu, bind_Ret. split; [|split].
  - intros ->. reflexivity.
  - intros -> Hi. rewrite Hi. reflexivity.
  - intros -> Hi Hs rg Hrg Hsp. rewrite Hi, Hrg, bind_Ret. simpl negb. cbv iota.
    f_equal. change 1 with (saturate 1) at 1.
    rewrite (cell_num_loop_product t rg Hs Hi Hsp 1) by lia.
    f_equal. lia.
Qed.

(** ** Range insertion *)

Lemma add_range_T_invalid s dim_idx lo hi dlo dhi :
  (dim_idx < dim_num (schema s))%nat ->
  domain (schema s) !! (2 * dim_idx)%nat = Some dlo ->
  domain (schema s) !! (2 * dim_idx + 1)%nat = Some dhi ->
  scalar_isnan lo = true \/ scalar_isnan hi = true
  \/ scalar_gt lo hi = true
  \/ scalar_lt lo dlo = true \/ scalar_gt hi dhi = true ->
  exists msg,
    add_range_T s dim_idx (lo, hi) = Ret (SubarrayError msg, flags_cleared s).
Proof.
  intros Hd Hlo Hhi Hbad. unfold add_range_T.
  rewrite bool_decide_eq_true_2 by exact Hd. cbn [negb].
  fold (flags_cleared s). unfold check_nan. cbn [fst snd].
  change (schema (flags_cleared s)) with (schema s).
  rewrite (at_Some _ _ _ Hlo), (at_Some _ _ _ Hhi).
  destruct (scalar_isnan lo) eqn:Nlo; [eexists; reflexivity|].
  destruct (scalar_isnan hi) eqn:Nhi; [eexists; reflexivity|].
  cbn [orb]. cbv iota.
  destruct (scalar_gt lo hi) eqn:Hgt; [eexists; reflexivity|].
  rewrite bind_Ret.
  destruct (scalar_lt lo dlo) eqn:Hl1; [eexists; reflexivity|].
  rewrite !bind_Ret.
  destruct (scalar_gt hi dhi) eqn:Hg2; [eexists; reflexivity|].
  destruct Hbad as [H|[H|[H|[H|H]]]]; congruence.
Qed.

(** C2 (amended).  A null range and a dimension index that is not below
    [dim_num] are refused with the subarray unchanged.  A range with a NaN
    bound, with [lo > hi], or not inside the domain of its dimension is
    refused and no range is appended, but the subarray afterwards has both
    flags cleared, whatever their values were. *)
Theorem add_range_invalid :
  forall s dim_idx,
    (exists msg, add_range s dim_idx None = Ret (SubarrayError msg, s))
    /\ (forall r, (dim_num (schema s) <= dim_idx)%nat ->
          exists msg, add_range s dim_idx (Some r) = Ret (SubarrayError msg, s))
    /\ (forall lo hi dlo dhi,
          (dim_idx < dim_num (schema s))%nat ->
          supported_type (domain_type (schema s)) = true ->
          domain (schema s) !! (2 * dim_idx)%nat = Some dlo ->
          domain (schema s) !! (2 * dim_idx + 1)%nat = Some dhi ->
          scalar_isnan lo = true \/ scalar_isnan hi = true
          \/ scalar_gt lo hi = true
          \/ scalar_lt lo dlo = true \/ scalar_gt hi dhi = true ->
          exists msg s',
            add_range s dim_idx (Some (lo, hi)) = Ret (SubarrayError msg, s')
            /\ s' = flags_cleared s
            /\ ranges_ s' = ranges_ s
            /\ result_est_size_computed_ s' = false
            /\ tile_overlap_computed_ s' = false).
Proof.
  intros s dim_idx. split; [|split].
  - eexists. reflexivity.
  - intros r Hd. unfold add_range.
    rewrite bool_decide_eq_true_2 by exact Hd. eexists. reflexivity.
  - intros lo hi dlo dhi Hd Hsup Hlo Hhi Hbad.
    destruct (add_range_T_invalid s dim_idx lo hi dlo dhi Hd Hlo Hhi Hbad)
      as (msg & Hmsg).
    exists msg, (flags_cleared s). split.
    + unfold add_range. rewrite bool_decide_eq_false_2 by lia.
      destruct (domain_type (schema s)); try discriminate Hsup; exact Hmsg.
    + repeat split.
Qed.

(** The theorem at a subarray of 2 x 3 ranges over the domain [[0, 1000]]
    and the range [[5, 3]] on dimension 0. *)
Lemma add_range_invalid_witness :
  exists msg,
    add_range (grid 2 3 ROW_MAJOR) 0 (Some (SInt 5, SInt 3))
    = Ret (SubarrayError msg, flags_cleared (grid 2 3 ROW_MAJOR)).
Proof.
  destruct (proj2 (proj2 (add_range_invalid (grid 2 3 ROW_MAJOR) 0%nat))
              (SInt 5) (SInt 3) (SInt 0) (SInt 1000)
              ltac:(simpl; lia) eq_refl eq_refl eq_refl
              (or_intror (or_intror (or_introl eq_refl))))
    as (msg & s' & H & -> & _).
  exists msg. exact H.
Defined.

(** A subarray whose result size has been estimated has both flags set;
    the refused range [[5, 3]] leaves it with both flags cleared. *)
Lemma add_range_invalid_clears_flags :
  exists s1 msg s2,
    build_estimated = Ret s1
    /\ result_est_size_computed_ s1 = true
    /\ tile_overlap_computed_ s1 = true
    /\ add_range s1 0 (Some (SInt 5, SInt 3)) = Ret (SubarrayError msg, s2)
    /\ ranges_ s2 = ranges_ s1
    /\ result_est_size_computed_ s2 = false
    /\ tile_overlap_computed_ s2 = false
    /\ s2 <> s1.
Proof.
  eexists. eexists. eexists.
  split; [vm_compute; reflexivity|].
  split; [reflexivity|]. split; [reflexivity|].
  split; [vm_compute; reflexivity|].
  split; [reflexivity|]. split; [reflexivity|]. split; [reflexivity|].
  intros E. apply (f_equal result_est_size_computed_) in E. discriminate E.
Qed.

(** ** The result-size estimator *)
















Example build_overlap_value : build_overlap = Ret with_overlap.
Proof. vm_compute. reflexivity. Qed.



(** ** The size queries *)

Lemma compute_tile_overlap_T_status s r :
  compute_tile_overlap_T s = Ret r -> fst r = Ok.
Proof.
  unfold compute_tile_overlap_T.
  destruct (tile_overlap_computed_ s); [intros H; inversion H; reflexivity|].
  destruct (compute_range_offsets s) as [s1| |]; try discriminate.
  rewrite bind_Ret.
  match goal with
  | |- context [run_mapM ?f ?l] => destruct (run_mapM f l)
  end; try discriminate.
  rewrite bind_Ret. intros H. inversion H. reflexivity.
Qed.

Lemma compute_est_result_size_T_status t s r :
  compute_est_result_size_T t s = Ret r -> fst r = Ok.
Proof.
  unfold compute_est_result_size_T.
  destruct (result_est_size_computed_ s); [intros H; inversion H; reflexivity|].
  destruct (compute_tile_overlap_T s) as [p| |] eqn:E; try discriminate.
  rewrite bind_Ret. rewrite (compute_tile_overlap_T_status s p E).
  match goal with
  | |- context [for_up ?n ?i ?f ?a] => destruct (for_up n i f a)
  end; try discriminate.
  rewrite bind_Ret. intros H. inversion H. reflexivity.
Qed.

Lemma compute_est_result_size_status s r :
  compute_est_result_size s = Ret r ->
  fst r = Ok \/ fst r = SubarrayError unsupported_domain_msg.
Proof.
  unfold compute_est_result_size.
  destruct (result_est_size_computed_ s);
    [intros H; inversion H; left; reflexivity|].
  destruct (domain_type (schema s));
    try (intros H; left; exact (compute_est_result_size_T_status _ _ _ H));
    intros H; inversion H; right; reflexivity.
Qed.

(** The fixed-form queries, past their checks. *)
Lemma get_est_result_size_fixed_target s name :
  dense (schema s) = false -> fixed_target (schema s) name ->
  get_est_result_size s (Some name) true
  = (r ← compute_est_result_size s;
     match fst r with
     | SubarrayError msg => Ret (SubarrayError msg, None, snd r)
     | Ok =>
         let e := est_entry (snd r) name in
         Ret (Ok, Some (ceil (size_fixed_ (fst e))), snd e)
     end).
Proof.
  intros Hd Ht. unfold get_est_result_size. rewrite Hd.
  destruct (decide (name = coords)) as [->|Hne].
  - rewrite bool_decide_eq_true_2 by reflexivity. reflexivity.
  - destruct Ht as [->|(a & Ha & Hv)]; [congruence|].
    rewrite (bool_decide_eq_false_2 (name = coords)) by exact Hne.
    rewrite Ha. rewrite bool_decide_eq_false_2 by discriminate.
    simpl. rewrite Hv. reflexivity.
Qed.

Lemma get_max_memory_size_fixed_target s name :
  dense (schema s) = false -> fixed_target (schema s) name ->
  get_max_memory_size s (Some name) true
  = (r ← compute_est_result_size s;
     let e := est_entry (snd r) name in
     Ret (Ok, Some (ceil (mem_size_fixed_ (fst e))), snd e)).
Proof.
  intros Hd Ht. unfold get_max_memory_size. rewrite Hd.
  destruct (decide (name = coords)) as [->|Hne].
  - rewrite bool_decide_eq_true_2 by reflexivity. reflexivity.
  - destruct Ht as [->|(a & Ha & Hv)]; [congruence|].
    rewrite (bool_decide_eq_false_2 (name = coords)) by exact Hne.
    rewrite Ha. rewrite bool_decide_eq_false_2 by discriminate.
    simpl. rewrite Hv. reflexivity.
Qed.

Lemma get_est_result_size_var_target s name :
  dense (schema s) = false -> var_target (schema s) name ->
  get_est_result_size_var s (Some name) true true
  = (r ← compute_est_result_size s;
     match fst r with
     | SubarrayError msg => Ret (SubarrayError msg, None, snd r)
     | Ok =>
         let e1 := est_entry (snd r) name in
         let e2 := est_entry (snd e1) name in
         Ret (Ok, Some (ceil (size_fixed_ (fst e1)), ceil (size_var_ (fst e2))),
              snd e2)
     end).
Proof.
  intros Hd (a & Ha & Hv). unfold get_est_result_size_var.
  rewrite Hd, Ha. simpl. rewrite Hv. reflexivity.
Qed.

Lemma get_max_memory_size_var_target s name :
  dense (schema s) = false -> var_target (schema s) name ->
  get_max_memory_size_var s (Some name) true true
  = (r ← compute_est_result_size s;
     let e1 := est_entry (snd r) name in
     let e2 := est_entry (snd e1) name in
     Ret (Ok,
          Some (ceil (mem_size_fixed_ (fst e1)), ceil (mem_size_var_ (fst e2))),
          snd e2)).
Proof.
  intros Hd (a & Ha & Hv). unfold get_max_memory_size_var.
  rewrite Hd, Ha. simpl. rewrite Hv. reflexivity.
Qed.

Lemma compute_est_result_size_error s msg s0 :
  compute_est_result_size s = Ret (SubarrayError msg, s0) -> s0 = s.
Proof.
  unfold compute_est_result_size.
  destruct (result_est_size_computed_ s); [discriminate|].
  destruct (domain_type (schema s));
    try (intros H; apply compute_est_result_size_T_status in H; discriminate H);
    intros H; inversion H; reflexivity.
Qed.

Lemma est_entry_idem s name :
  est_entry (snd (est_entry s name)) name
  = (fst (est_entry s name), snd (est_entry s name)).
Proof.
  unfold est_entry at 2 3 4.
  destruct (est_result_size_ s !! name) as [r|] eqn:E; cbn [fst snd].
  - unfold est_entry. rewrite E. reflexivity.
  - unfold est_entry. cbn [est_result_size_ set_est_result_size].
    rewrite lookup_insert_eq. reflexivity.
Qed.

Lemma est_entry_lookup s name :
  fst (est_entry s name)
  = default ResultSize_zero (est_result_size_ s !! name).
Proof.
  unfold est_entry. destruct (est_result_size_ s !! name); reflexivity.
Qed.

Example build_char_subarray_value : build_char_subarray = Ret char_subarray.
Proof. vm_compute. reflexivity. Qed.

(** C9.  On a sparse array whose schema has no attribute of the reserved
    name of the coordinates, the fixed-form queries accept that name: they
    skip the attribute-existence and the fixed-sized checks, so that
    [get_est_result_size] fails only if the estimation fails and
    [get_max_memory_size] succeeds; the var-form queries refuse the name
    with their invalid-attribute error, whatever the output pointers. *)
Theorem coords_fixed_form_accepted :
  forall s,
    dense (schema s) = false ->
    attribute (schema s) coords = None ->
    (forall st v s',
       get_est_result_size s (Some coords) true = Ret (st, v, s') ->
       st = Ok \/ st = SubarrayError unsupported_domain_msg)
    /\ (forall s1,
          compute_est_result_size s = Ret (Ok, s1) ->
          exists v s2,
            get_est_result_size s (Some coords) true = Ret (Ok, Some v, s2))
    /\ (forall r,
          compute_est_result_size s = Ret r ->
          exists v s2,
            get_max_memory_size s (Some coords) true = Ret (Ok, Some v, s2))
    /\ (forall size_off size_val,
          get_est_result_size_var s (Some coords) size_off size_val
          = Ret (SubarrayError
                   "Cannot get estimated result size; Invalid attribute",
                 None, s))
    /\ (forall size_off size_val,
          get_max_memory_size_var s (Some coords) size_off size_val
          = Ret (SubarrayError "Cannot get max memory size; Invalid attribute",
                 None, s)).
Proof.
  intros s Hd Hc.
  assert (Ht : fixed_target (schema s) coords) by (left; reflexivity).
  split; [|split; [|split; [|split]]].
  - intros st v s'.
    rewrite (get_est_result_size_fixed_target s coords Hd Ht).
    destruct (compute_est_result_size s) as [r| |] eqn:E; try discriminate.
    rewrite bind_Ret.
    destruct (compute_est_result_size_status s r E) as [H|H]; rewrite H.
    + intros G. inversion G. left. reflexivity.
    + intros G. inversion G. right. reflexivity.
  - intros s1 E. rewrite (get_est_result_size_fixed_target s coords Hd Ht), E.
    rewrite bind_Ret. simpl. eauto.
  - intros r E. rewrite (get_max_memory_size_fixed_target s coords Hd Ht), E.
    rewrite bind_Ret. simpl. eauto.
  - intros so sv. unfold get_est_result_size_var. rewrite Hd, Hc. reflexivity.
  - intros so sv. unfold get_max_memory_size_var. rewrite Hd, Hc. reflexivity.
Qed.

(** The theorem at a subarray of 2 x 3 unary ranges: the estimated size of
    the coordinates is 72 bytes (9 ranges of one cell of 8 bytes), the
    memory bound 2700 bytes. *)
Lemma coords_fixed_form_accepted_witness :
  (exists s2, get_est_result_size (grid 2 3 ROW_MAJOR) (Some coords) true
              = Ret (Ok, Some 72, s2))
  /\ (exists s2, get_max_memory_size (grid 2 3 ROW_MAJOR) (Some coords) true
                 = Ret (Ok, Some 2700, s2))
  /\ get_est_result_size_var (grid 2 3 ROW_MAJOR) (Some coords) true true
     = Ret (SubarrayError "Cannot get estimated result size; Invalid attribute",
            None, grid 2 3 ROW_MAJOR).
Proof.
  destruct (coords_fixed_form_accepted (grid 2 3 ROW_MAJOR) eq_refl eq_refl)
    as (_ & H2 & H3 & H4 & _).
  split; [|split].
  - destruct (compute_est_result_size (grid 2 3 ROW_MAJOR)) as [[st s1]| |] eqn:E;
      try (vm_compute in E; discriminate E).
    assert (st = Ok) as -> by (vm_compute in E; inversion E; reflexivity).
    destruct (H2 s1 eq_refl) as (v & s2 & Hv).
    exists s2. rewrite Hv.
    assert (G : exists s3, get_est_result_size (grid 2 3 ROW_MAJOR) (Some coords) true
                           = Ret (Ok, Some 72, s3))
      by (eexists; vm_compute; reflexivity).
    destruct G as (s3 & G). rewrite G in Hv. inversion Hv. reflexivity.
  - destruct (compute_est_result_size (grid 2 3 ROW_MAJOR)) as [r| |] eqn:E;
      try (vm_compute in E; discriminate E).
    destruct (H3 r eq_refl) as (v & s2 & Hv).
    exists s2. rewrite Hv.
    assert (G : exists s3, get_max_memory_size (grid 2 3 ROW_MAJOR) (Some coords) true
                           = Ret (Ok, Some 2700, s3))
      by (eexists; vm_compute; reflexivity).
    destruct G as (s3 & G). rewrite G in Hv. inversion Hv. reflexivity.
  - apply H4.
Defined.

(** C10.  The estimation fails only with the result-size flag unset and
    leaves the subarray as it is.  When it fails, [get_est_result_size]
    returns its error to the caller, in both forms, whereas
    [get_max_memory_size], in both forms, drops the status and returns [Ok]
    with the memory sizes of the entry that the estimation map of the
    subarray holds for the attribute, a zero entry being inserted if it
    holds none.  There are subarrays on which the estimation fails and
    [get_max_memory_size] reports success: over a domain of type [CHAR]
    the answer is 0 on an empty map, and 2700 and (2700, 1080) on a map of
    estimates that were computed for another array. *)
Theorem max_memory_size_ignores_status :
  (forall s name msg s1,
     dense (schema s) = false ->
     compute_est_result_size s = Ret (SubarrayError msg, s1) ->
     s1 = s /\ result_est_size_computed_ s = false
     /\ (fixed_target (schema s) name ->
         get_est_result_size s (Some name) true
         = Ret (SubarrayError msg, None, s1)
         /\ get_max_memory_size s (Some name) true
            = Ret (Ok,
                   Some (ceil (mem_size_fixed_
                                 (default ResultSize_zero
                                    (est_result_size_ s !! name)))),
                   snd (est_entry s name)))
     /\ (var_target (schema s) name ->
         get_est_result_size_var s (Some name) true true
         = Ret (SubarrayError msg, None, s1)
         /\ get_max_memory_size_var s (Some name) true true
            = Ret (Ok,
                   Some (ceil (mem_size_fixed_
                                 (default ResultSize_zero
                                    (est_result_size_ s !! name))),
                         ceil (mem_size_var_
                                 (default ResultSize_zero
                                    (est_result_size_ s !! name)))),
                   snd (est_entry s name))))
  /\ (exists s2,
        build_char_subarray = Ret char_subarray
        /\ compute_est_result_size char_subarray
           = Ret (SubarrayError unsupported_domain_msg, char_subarray)
        /\ get_est_result_size char_subarray (Some "a1") true
           = Ret (SubarrayError unsupported_domain_msg, None, char_subarray)
        /\ get_max_memory_size char_subarray (Some "a1") true
           = Ret (Ok, Some 0, s2))
  /\ (result_est_size_computed_ stale_estimates = false
      /\ compute_est_result_size stale_estimates
         = Ret (SubarrayError unsupported_domain_msg, stale_estimates)
      /\ get_est_result_size stale_estimates (Some "a1") true
         = Ret (SubarrayError unsupported_domain_msg, None, stale_estimates)
      /\ get_max_memory_size stale_estimates (Some "a1") true
         = Ret (Ok, Some 2700, stale_estimates)
      /\ get_est_result_size_var stale_estimates (Some "a2") true true
         = Ret (SubarrayError unsupported_domain_msg, None, stale_estimates)
      /\ get_max_memory_size_var stale_estimates (Some "a2") true true
         = Ret (Ok, Some (2700, 1080), stale_estimates)).
Proof.
  split; [|split].
  - intros s name msg s1 Hd E.
    pose proof (compute_est_result_size_error s msg s1 E) as ->.
    split; [reflexivity|]. split.
    { unfold compute_est_result_size in E.
      destruct (result_est_size_computed_ s); [discriminate E|reflexivity]. }
    split.
    + intros Ht. split.
      * rewrite (get_est_result_size_fixed_target s name Hd Ht), E. reflexivity.
      * rewrite (get_max_memory_size_fixed_target s name Hd Ht), E.
        rewrite bind_Ret. cbn [fst snd]. cbv zeta.
        rewrite est_entry_lookup. reflexivity.
    + intros Ht. split.
      * rewrite (get_est_result_size_var_target s name Hd Ht), E. reflexivity.
      * rewrite (get_max_memory_size_var_target s name Hd Ht), E.
        rewrite bind_Ret. cbn [fst snd]. cbv zeta.
        rewrite est_entry_idem. cbn [fst snd].
        rewrite est_entry_lookup. reflexivity.
  - eexists. split; [exact build_char_subarray_value|].
    repeat split; vm_compute; reflexivity.
  - split; [|split; [|split; [|split; [|split]]]]; vm_compute; reflexivity.
Qed.

(** The theorem at the subarray over the [CHAR] domain that carries the
    estimates of another array, and the var-sized attribute [a2]: the
    estimation fails, and the memory sizes are those of the map. *)
Lemma max_memory_size_ignores_status_witness :
  get_est_result_size_var stale_estimates (Some "a2") true true
  = Ret (SubarrayError unsupported_domain_msg, None, stale_estimates)
  /\ get_max_memory_size_var stale_estimates (Some "a2") true true
     = Ret (Ok, Some (2700, 1080), stale_estimates).
Proof.
  assert (Hd : dense (schema stale_estimates) = false)
    by (vm_compute; reflexivity).
  assert (E : compute_est_result_size stale_estimates
              = Ret (SubarrayError unsupported_domain_msg, stale_estimates))
    by (vm_compute; reflexivity).
  assert (Ht : var_target (schema stale_estimates) "a2").
  { exists {| attr_name := "a2"; attr_var_size := true |}.
    split; vm_compute; reflexivity. }
  destruct (proj1 max_memory_size_ignores_status stale_estimates "a2"
              unsupported_domain_msg stale_estimates Hd E)
    as (_ & _ & _ & H).
  destruct (H Ht) as [H1 H2]. split; [exact H1|].
  rewrite H2. vm_compute. reflexivity.
Defined.

(** ** The read query *)

Lemma forallb_zip_le (a b : list Z) :
  length a = length b ->
  forallb (fun p => fst p <=? snd p) (zip a b) = true <-> Forall2 Z.le a b.
Proof.
  revert b. induction a as [|x a IH]; intros [|y b] H; simpl in *; try lia.
  - split; auto.
  - rewrite andb_true_iff, Z.leb_le, IH by lia. split.
    + intros [H1 H2]. constructor; assumption.
    + intros G. inversion G; subst. split; assumption.
Qed.

Lemma emit_prefix caps : forall cs used,
  fst (Query.emit caps used cs) = take (length (fst (Query.emit caps used cs))) cs.
Proof.
  induction cs as [|c cs IH]; intros used; simpl; [reflexivity|].
  destruct (forallb _ _); simpl; [|reflexivity].
  f_equal. apply IH.
Qed.

(** C8.  For a query suspended in the incomplete state and a vector of new
    capacities, one per buffer: if every new capacity is at least the
    original one, [reset_buffers] succeeds, leaves the cursor and the status
    as they are, and the next submission copies the cells that follow the
    cursor, advancing the cursor by their number; if some new capacity is
    below the original one, [reset_buffers] fails with [InvalidBufferSize]
    and leaves the query, cursor included, unchanged. *)
Theorem reset_buffers_rule :
  forall q new_sizes,
    Query.status q = Query.INCOMPLETE ->
    length new_sizes = length (Query.original_sizes q) ->
    (Forall2 Z.le (Query.original_sizes q) new_sizes ->
     exists q',
       Query.reset_buffers q new_sizes = (Query.Ok, q')
       /\ Query.cursor q' = Query.cursor q
       /\ Query.status q' = Query.INCOMPLETE
       /\ Query.buffer_sizes q' = new_sizes
       /\ exists code out used q'',
            Query.submit q' = Some (code, out, used, q'')
            /\ out = take (length out) (drop (Query.cursor q) (Query.cells q))
            /\ Query.cursor q'' = (Query.cursor q + length out)%nat)
    /\ (~ Forall2 Z.le (Query.original_sizes q) new_sizes ->
        Query.reset_buffers q new_sizes
        = (Query.Err Query.InvalidBufferSize, q)).
Proof.
  intros q new_sizes Hst Hlen. split.
  - intros Hle. unfold Query.reset_buffers.
    rewrite (proj2 (forallb_zip_le _ _ (eq_sym Hlen)) Hle).
    eexists. split; [reflexivity|]. simpl. repeat split; try assumption.
    unfold Query.submit. simpl. rewrite Hst.
    set (rest := drop (Query.cursor q) (Query.cells q)).
    set (r := Query.emit new_sizes (map (fun _ => 0) new_sizes) rest).
    pose proof (emit_prefix new_sizes rest (map (fun _ => 0) new_sizes)) as Hp.
    fold r in Hp.
    case_bool_decide.
    + do 4 eexists. split; [reflexivity|]. simpl. split; [exact Hp | reflexivity].
    + destruct (fst r) as [|c out] eqn:E.
      * do 4 eexists. split; [reflexivity|]. simpl. split; reflexivity.
      * do 4 eexists. split; [reflexivity|]. simpl. split; [exact Hp | reflexivity].
  - intros Hn. unfold Query.reset_buffers.
    destruct (forallb _ _) eqn:E; [|reflexivity].
    exfalso. apply Hn. apply (forallb_zip_le _ _ (eq_sym Hlen)). exact E.
Qed.

(** Scenario S4: the first submission returns [Incomplete] with the cells
    0 and 1; a reset to one [int] (4 bytes) is refused and a reset to the
    original 8 bytes is accepted, both by the theorem; the next submission
    returns [Completed] with the cells 2 and 3 and 8 bytes produced. *)
Lemma reset_buffers_rule_witness :
  Query.submit Query.scenario
  = Some (Query.Incomplete, map Query.int32_cell [0; 1], [8], Query.suspended)
  /\ Query.reset_buffers Query.suspended [4]
     = (Query.Err Query.InvalidBufferSize, Query.suspended)
  /\ Query.reset_buffers Query.suspended [8] = (Query.Ok, Query.suspended)
  /\ Query.submit Query.suspended
     = Some (Query.Completed, map Query.int32_cell [2; 3], [8], Query.completed).
Proof.
  destruct (reset_buffers_rule Query.suspended [4] eq_refl eq_refl) as [_ Hbad].
  destruct (reset_buffers_rule Query.suspended [8] eq_refl eq_refl) as [Hgood _].
  split; [vm_compute; reflexivity|]. split; [|split].
  - apply Hbad. intros H. inversion H as [|? ? ? ? Hle _]; subst.
    vm_compute in Hle. apply Hle. reflexivity.
  - destruct Hgood as (q' & Hq' & _).
    + repeat constructor. vm_compute. discriminate.
    + rewrite Hq'. f_equal.
      assert (E : Query.reset_buffers Query.suspended [8]
                  = (Query.Ok, Query.suspended)) by reflexivity.
      rewrite E in Hq'. inversion Hq'. reflexivity.
  - vm_compute. reflexivity.
Defined.

(** * Further properties of the class *)

(** ** Construction *)

Lemma for_up_total_inv_idx {S} (P : nat -> S -> Prop) (body : nat -> S -> run S) n :
  forall i s,
    (forall k s, (k < n)%nat -> P (i + k)%nat s ->
                 exists s', body (i + k)%nat s = Ret s'
                            /\ P (Datatypes.S (i + k)) s') ->
    P i s -> exists s', for_up n i body s = Ret s' /\ P (i + n)%nat s'.
Proof.
  induction n as [|n IH]; intros i s Hb Hs; simpl.
  - exists s. rewrite Nat.add_0_r. auto.
  - destruct (Hb 0%nat s ltac:(lia)) as (s1 & H1 & P1);
      [rewrite Nat.add_0_r; exact Hs|].
    rewrite Nat.add_0_r in H1, P1. rewrite H1, bind_Ret.
    destruct (IH (Datatypes.S i) s1) as (s2 & H2 & P2); [|exact P1|].
    + intros k s3 Hk P3.
      replace (Datatypes.S i + k)%nat with (i + Datatypes.S k)%nat in * by lia.
      apply Hb; [lia | exact P3].
    + exists s2. split; [exact H2|].
      replace (i + Datatypes.S n)%nat with (Datatypes.S i + n)%nat by lia.
      exact P2.
Qed.

Lemma domain_wf_bounds sch i :
  domain_wf sch -> (i < dim_num sch)%nat ->
  exists dlo dhi, domain_bounds sch i dlo dhi.
Proof.
  intros Hwf Hi. unfold domain_wf in Hwf. unfold domain_bounds.
  destruct (lookup_lt_is_Some_2 (domain sch) (2 * i)%nat ltac:(lia)) as [lo Hlo].
  destruct (lookup_lt_is_Some_2 (domain sch) (2 * i + 1)%nat ltac:(lia))
    as [hi Hhi].
  eauto.
Qed.

Lemma default_stores_S sch k :
  default_stores sch (Datatypes.S k)
  = default_stores sch k
    ++ [default_store (domain_type sch) (domain_at sch (2 * k))
          (domain_at sch (2 * k + 1))].
Proof. unfold default_stores. rewrite seq_S, map_app. reflexivity. Qed.

Lemma length_default_stores sch k : length (default_stores sch k) = k.
Proof. unfold default_stores. rewrite length_map, length_seq. reflexivity. Qed.

Lemma add_default_range_step array layout k :
  domain_wf (array_schema array) ->
  (k < dim_num (array_schema array))%nat ->
  add_default_range k (half_built array layout k)
  = Ret (half_built array layout (Datatypes.S k)).
Proof.
  intros Hwf Hk.
  destruct (domain_wf_bounds _ k Hwf Hk) as (lo & hi & Hb1 & Hb2).
  assert (Hrs : ranges_ (half_built array layout k) !! k
                = Some (Ranges.make (domain_type (array_schema array)))).
  { simpl. rewrite lookup_app_r by (rewrite length_default_stores; lia).
    rewrite length_default_stores, Nat.sub_diag.
    apply lookup_replicate_2. lia. }
  unfold add_default_range.
  change (schema (half_built array layout k)) with (array_schema array).
  rewrite (at_Some _ _ _ Hrs), bind_Ret, (at_Some _ _ _ Hb1), bind_Ret,
    (at_Some _ _ _ Hb2), bind_Ret.
  f_equal. unfold half_built, set_ranges.
  cbn [array_ layout_ ranges_ range_offsets_ tile_overlap_ est_result_size_
       result_est_size_computed_ tile_overlap_computed_].
  f_equal.
  rewrite insert_app_r_alt by (rewrite length_default_stores; lia).
  rewrite length_default_stores, Nat.sub_diag.
  replace (dim_num (array_schema array) - k)%nat
    with (Datatypes.S (dim_num (array_schema array) - Datatypes.S k)) by lia.
  rewrite default_stores_S. unfold domain_at. rewrite Hb1, Hb2.
  rewrite <- app_assoc. reflexivity.
Qed.

(** The constructor returns, and its result is known field by field: one
    store per dimension, each holding the default range of its dimension. *)
Lemma Subarray_new_value array layout :
  domain_wf (array_schema array) ->
  Subarray_new array layout
  = Ret (half_built array layout (dim_num (array_schema array))).
Proof.
  intros Hwf. unfold Subarray_new, add_default_ranges.
  destruct (for_up_total_inv_idx
              (fun k s => s = half_built array layout k)
              add_default_range (dim_num (array_schema array)) 0%nat
              (half_built array layout 0)) as (s' & H & ->).
  - intros k s Hk ->. eexists. split; [|reflexivity].
    apply add_default_range_step; assumption.
  - reflexivity.
  - unfold half_built at 1 in H. simpl in H. rewrite Nat.sub_0_r in H.
    exact H.
Qed.

Lemma prodZ_ones l : Forall (fun n => n = 1) l -> prodZ l = 1.
Proof.
  induction 1 as [|n l -> _ IH]; [reflexivity|]. rewrite prodZ_cons, IH. lia.
Qed.

Lemma half_built_full_ranges array layout :
  ranges_ (half_built array layout (dim_num (array_schema array)))
  = default_stores (array_schema array) (dim_num (array_schema array)).
Proof.
  unfold half_built.
  cbn [ranges_]. rewrite Nat.sub_diag. apply app_nil_r.
Qed.

Lemma default_stores_lookup sch d i :
  domain_wf sch -> (d <= dim_num sch)%nat -> (i < d)%nat ->
  exists lo hi,
    domain_bounds sch i lo hi
    /\ default_stores sch d !! i = Some (default_store (domain_type sch) lo hi).
Proof.
  intros Hwf Hd Hi.
  destruct (domain_wf_bounds sch i Hwf ltac:(lia)) as (lo & hi & Hb).
  exists lo, hi. split; [exact Hb|]. destruct Hb as [Hb1 Hb2].
  unfold default_stores. rewrite list_lookup_fmap, lookup_seq_lt by lia.
  simpl. unfold domain_at.
  replace (i + (i + 0))%nat with (2 * i)%nat by lia.
  rewrite Hb1, Hb2. reflexivity.
Qed.

(** X1.  On a schema whose domain vector has the two bounds of every
    dimension, the constructor returns a subarray with one store per
    dimension, each holding exactly the default range, the domain of its
    dimension; nothing is computed yet, and the subarray consists of one
    range: it is not empty. *)
Theorem Subarray_new_default_ranges :
  forall array layout,
    domain_wf (array_schema array) ->
    exists s,
      Subarray_new array layout = Ret s
      /\ array_ s = array /\ layout_ s = layout
      /\ length (ranges_ s) = dim_num (array_schema array)
      /\ (forall i, (i < dim_num (array_schema array))%nat ->
            exists lo hi,
              domain_bounds (array_schema array) i lo hi
              /\ ranges_ s !! i
                 = Some (default_store (domain_type (array_schema array)) lo hi))
      /\ range_offsets_ s = [] /\ tile_overlap_ s = []
      /\ result_est_size_computed_ s = false
      /\ tile_overlap_computed_ s = false
      /\ ((1 <= dim_num (array_schema array))%nat ->
          range_num s = 1 /\ empty s = false).
Proof.
  intros array layout Hwf.
  exists (half_built array layout (dim_num (array_schema array))).
  split; [apply Subarray_new_value; exact Hwf|].
  split; [reflexivity|]. split; [reflexivity|].
  rewrite half_built_full_ranges.
  split; [apply length_default_stores|].
  split; [intros i Hi; apply default_stores_lookup; auto|].
  do 4 (split; [reflexivity|]).
  intros Hd.
  assert (R : range_num (half_built array layout (dim_num (array_schema array)))
              = 1).
  { rewrite range_num_wrap.
    - unfold range_count, range_nums. rewrite half_built_full_ranges.
      rewrite prodZ_ones; [reflexivity|].
      unfold default_stores. rewrite Forall_map, Forall_map.
      apply Forall_forall. intros; reflexivity.
    - rewrite half_built_full_ranges. intros E.
      apply (f_equal length) in E. rewrite length_default_stores in E.
      simpl in E. lia. }
  split; [exact R|]. unfold empty. rewrite R. reflexivity.
Qed.

(** The theorem at the schema of the sample array of two dimensions. *)
Lemma Subarray_new_default_ranges_witness :
  exists s,
    Subarray_new (sample_array 2 INT32 (SInt 0) (SInt 1000) ROW_MAJOR) COL_MAJOR
    = Ret s
    /\ ranges_ s = replicate 2 (default_store INT32 (SInt 0) (SInt 1000))
    /\ range_num s = 1.
Proof.
  destruct (Subarray_new_default_ranges
              (sample_array 2 INT32 (SInt 0) (SInt 1000) ROW_MAJOR) COL_MAJOR
              eq_refl)
    as (s & Hs & _ & _ & _ & _ & _ & _ & _ & _ & Hn).
  exists s. split; [exact Hs|]. split.
  - assert (E : Subarray_new
                  (sample_array 2 INT32 (SInt 0) (SInt 1000) ROW_MAJOR) COL_MAJOR
                = Ret (half_built
                         (sample_array 2 INT32 (SInt 0) (SInt 1000) ROW_MAJOR)
                         COL_MAJOR 2)) by (vm_compute; reflexivity).
    rewrite E in Hs. inversion Hs. reflexivity.
  - apply Hn. simpl. lia.
Defined.

(** ** Accepted ranges *)

Lemma add_range_T_valid s dim_idx r dlo dhi rs :
  (dim_idx < dim_num (schema s))%nat ->
  domain_bounds (schema s) dim_idx dlo dhi ->
  ranges_ s !! dim_idx = Some rs ->
  range_ok dlo dhi r ->
  add_range_T s dim_idx r
  = Ret (Ok, set_ranges (flags_cleared s)
               (<[dim_idx := Ranges.add_range rs r false]> (ranges_ s))).
Proof.
  intros Hd [Hlo Hhi] Hrs (N1 & N2 & G & L & G2). unfold add_range_T.
  rewrite bool_decide_eq_true_2 by exact Hd. cbn [negb].
  fold (flags_cleared s). unfold check_nan.
  change (schema (flags_cleared s)) with (schema s).
  change (ranges_ (flags_cleared s)) with (ranges_ s).
  rewrite N1, N2. cbn [orb]. cbv iota. rewrite G.
  rewrite (at_Some _ _ _ Hlo), bind_Ret, L, (at_Some _ _ _ Hhi), !bind_Ret, G2.
  rewrite (at_Some _ _ _ Hrs), bind_Ret. reflexivity.
Qed.

Lemma range_ok_dec dlo dhi r :
  range_ok dlo dhi r
  \/ (scalar_isnan (fst r) = true \/ scalar_isnan (snd r) = true
      \/ scalar_gt (fst r) (snd r) = true
      \/ scalar_lt (fst r) dlo = true \/ scalar_gt (snd r) dhi = true).
Proof.
  unfold range_ok.
  destruct (scalar_isnan (fst r)); [tauto|].
  destruct (scalar_isnan (snd r)); [tauto|].
  destruct (scalar_gt (fst r) (snd r)); [tauto|].
  destruct (scalar_lt (fst r) dlo); [tauto|].
  destruct (scalar_gt (snd r) dhi); tauto.
Qed.

Lemma last_range_add rs r : last_range (Ranges.add_range rs r false) = Some r.
Proof.
  unfold last_range, Ranges.add_range.
  destruct (Ranges.has_default_range_ rs); simpl; [reflexivity|].
  apply last_snoc.
Qed.

(** X2.  On a subarray that satisfies the class invariant, [add_range]
    always returns; it returns [Ok] exactly when the range is non-null, the
    dimension index is below [dim_num], the domain type is one of the ten
    of the switch, no bound is NaN, [lo > hi] is false and neither bound
    lies outside the domain of the dimension.  An accepted range becomes
    the last range of its dimension; the stores of the other dimensions,
    the offsets, the overlap and the estimation map are untouched, and both
    flags are cleared. *)
Theorem add_range_accepts :
  forall s dim_idx range,
    Subarray_inv s -> domain_wf (schema s) ->
    exists st s',
      add_range s dim_idx range = Ret (st, s')
      /\ (st = Ok <->
          exists r dlo dhi,
            range = Some r /\ (dim_idx < dim_num (schema s))%nat
            /\ supported_type (domain_type (schema s)) = true
            /\ domain_bounds (schema s) dim_idx dlo dhi
            /\ range_ok dlo dhi r)
      /\ (st = Ok ->
          (exists rs', ranges_ s' !! dim_idx = Some rs'
                       /\ last_range rs' = range)
          /\ (forall j, j <> dim_idx -> ranges_ s' !! j = ranges_ s !! j)
          /\ array_ s' = array_ s /\ layout_ s' = layout_ s
          /\ range_offsets_ s' = range_offsets_ s
          /\ tile_overlap_ s' = tile_overlap_ s
          /\ est_result_size_ s' = est_result_size_ s
          /\ result_est_size_computed_ s' = false
          /\ tile_overlap_computed_ s' = false).
Proof.
  intros s dim_idx range Hinv Hwf.
  destruct range as [r|].
  2:{ do 2 eexists. split; [reflexivity|]. split; [|discriminate].
      split; [discriminate|]. intros (r & _ & _ & H & _). discriminate H. }
  destruct (decide (dim_idx < dim_num (schema s))%nat) as [Hd|Hd].
  2:{ do 2 eexists. split.
      - unfold add_range. rewrite bool_decide_eq_true_2 by lia. reflexivity.
      - split; [|discriminate]. split; [discriminate|].
        intros (? & ? & ? & _ & H & _). lia. }
  destruct (supported_type (domain_type (schema s))) eqn:Hsup.
  2:{ do 2 eexists. split.
      - unfold add_range. rewrite bool_decide_eq_false_2 by lia.
        destruct (domain_type (schema s)); try discriminate Hsup; reflexivity.
      - split; [|discriminate]. split; [discriminate|].
        intros (? & ? & ? & _ & _ & H & _). discriminate H. }
  destruct (domain_wf_bounds _ dim_idx Hwf Hd) as (dlo & dhi & Hb).
  destruct (lookup_lt_is_Some_2 (ranges_ s) dim_idx) as [rs Hrs].
  { destruct Hinv as [_ H]. rewrite H. exact Hd. }
  assert (Hadd : add_range s dim_idx (Some r) = add_range_T s dim_idx r).
  { unfold add_range. rewrite bool_decide_eq_false_2 by lia.
    destruct (domain_type (schema s)); try discriminate Hsup; reflexivity. }
  destruct (range_ok_dec dlo dhi r) as [Hok|Hbad].
  - exists Ok. eexists. split.
    + rewrite Hadd. apply (add_range_T_valid s dim_idx r dlo dhi rs); auto.
    + split.
      * split; [|reflexivity]. intros _. exists r, dlo, dhi. auto.
      * intros _. split.
        { eexists. split.
          - simpl. apply list_lookup_insert_eq.
            apply lookup_lt_Some in Hrs. exact Hrs.
          - apply last_range_add. }
        split.
        { intros j Hj. simpl. apply list_lookup_insert_ne. auto. }
        repeat split.
  - destruct Hb as [Hb1 Hb2].
    destruct (add_range_T_invalid s dim_idx (fst r) (snd r) dlo dhi Hd Hb1 Hb2 Hbad)
      as (msg & Hmsg).
    exists (SubarrayError msg), (flags_cleared s). split.
    + rewrite Hadd. destruct r. exact Hmsg.
    + split; [|discriminate]. split; [discriminate|].
      intros (r' & dlo' & dhi' & E & _ & _ & [Hb1' Hb2'] & Hok).
      inversion E; subst r'. rewrite Hb1 in Hb1'. rewrite Hb2 in Hb2'.
      inversion Hb1'; inversion Hb2'; subst.
      destruct Hok as (N1 & N2 & G & L & G2).
      destruct Hbad as [H|[H|[H|[H|H]]]]; congruence.
Qed.

(** The theorem at a subarray of 2 x 3 ranges and the range [[7, 9]]. *)
Lemma add_range_accepts_witness :
  exists s' rs',
    add_range (grid 2 3 ROW_MAJOR) 1 (Some (SInt 7, SInt 9)) = Ret (Ok, s')
    /\ ranges_ s' !! 1%nat = Some rs'
    /\ last_range rs' = Some (SInt 7, SInt 9)
    /\ ranges_ s' !! 0%nat = ranges_ (grid 2 3 ROW_MAJOR) !! 0%nat.
Proof.
  destruct (add_range_accepts (grid 2 3 ROW_MAJOR) 1 (Some (SInt 7, SInt 9))
              (grid_inv 2 3 ROW_MAJOR ltac:(lia)) eq_refl)
    as (st & s' & H & Hiff & Heff).
  assert (Hst : st = Ok).
  { apply Hiff. exists (SInt 7, SInt 9), (SInt 0), (SInt 1000).
    repeat split; simpl; lia. }
  subst st. destruct (Heff eq_refl) as ((rs' & H1 & H2) & H3 & _).
  exists s', rs'. repeat split; auto.
Defined.

(** ** Reading the ranges back *)

(** X3.  On a subarray that satisfies the class invariant, [get_range] and
    [get_range_num] refuse a dimension index that is not below [dim_num];
    [get_range] refuses a range index that is not below the number of
    ranges of the dimension; otherwise they return the stored range and
    the number of ranges. *)
Theorem get_range_cases :
  forall s dim_idx range_idx,
    Subarray_inv s -> 0 <= range_idx ->
    ((dim_num (schema s) <= dim_idx)%nat ->
     get_range s dim_idx range_idx
     = Ret (SubarrayError "Cannot get range; Invalid dimension index", None)
     /\ get_range_num s dim_idx
        = Ret (SubarrayError
                 "Cannot get number of ranges for a dimension; Invalid dimension index",
               None))
    /\ ((dim_idx < dim_num (schema s))%nat ->
        exists rs,
          ranges_ s !! dim_idx = Some rs
          /\ get_range_num s dim_idx = Ret (Ok, Some (Ranges.range_num rs))
          /\ (Ranges.range_num rs <= range_idx ->
              get_range s dim_idx range_idx
              = Ret (SubarrayError "Cannot get range; Invalid range index", None))
          /\ (range_idx < Ranges.range_num rs ->
              exists r,
                Ranges.buffer_ rs !! Z.to_nat range_idx = Some r
                /\ get_range s dim_idx range_idx = Ret (Ok, Some r))).
Proof.
  intros s dim_idx range_idx Hinv Hidx. split.
  - intros Hd. unfold get_range, get_range_num.
    rewrite !bool_decide_eq_true_2 by exact Hd. split; reflexivity.
  - intros Hd.
    destruct (lookup_lt_is_Some_2 (ranges_ s) dim_idx) as [rs Hrs].
    { destruct Hinv as [_ H]. rewrite H. exact Hd. }
    exists rs. split; [exact Hrs|].
    unfold get_range, get_range_num.
    rewrite !bool_decide_eq_false_2 by lia.
    rewrite (at_Some _ _ _ Hrs), !bind_Ret.
    split; [reflexivity|]. split.
    + intros Hge. rewrite (proj2 (Z.leb_le _ _) Hge). reflexivity.
    + intros Hlt. rewrite (proj2 (Z.leb_gt _ _) Hlt).
      destruct (lookup_lt_is_Some_2 (Ranges.buffer_ rs) (Z.to_nat range_idx))
        as [r Hr].
      { unfold Ranges.range_num in Hlt. lia. }
      exists r. split; [exact Hr|].
      unfold Ranges.get_range. rewrite (at_Some _ _ _ Hr). reflexivity.
Qed.

(** The theorem at a subarray of 2 x 3 ranges. *)
Lemma get_range_cases_witness :
  get_range (grid 2 3 ROW_MAJOR) 2 0
  = Ret (SubarrayError "Cannot get range; Invalid dimension index", None)
  /\ get_range (grid 2 3 ROW_MAJOR) 1 3
     = Ret (SubarrayError "Cannot get range; Invalid range index", None)
  /\ get_range (grid 2 3 ROW_MAJOR) 1 2 = Ret (Ok, Some (SInt 2, SInt 2)).
Proof.
  pose proof (get_range_cases (grid 2 3 ROW_MAJOR) 2 0
                (grid_inv 2 3 ROW_MAJOR ltac:(lia)) ltac:(lia)) as [H1 _].
  pose proof (get_range_cases (grid 2 3 ROW_MAJOR) 1 3
                (grid_inv 2 3 ROW_MAJOR ltac:(lia)) ltac:(lia)) as [_ H2].
  pose proof (get_range_cases (grid 2 3 ROW_MAJOR) 1 2
                (grid_inv 2 3 ROW_MAJOR ltac:(lia)) ltac:(lia)) as [_ H3].
  split; [apply H1; simpl; lia|]. split.
  - destruct (H2 ltac:(simpl; lia)) as (rs & Hrs & _ & Hge & _).
    apply Hge. simpl in Hrs. inversion Hrs; subst rs. vm_compute. discriminate.
  - destruct (H3 ltac:(simpl; lia)) as (rs & Hrs & _ & _ & Hlt).
    simpl in Hrs. inversion Hrs; subst rs.
    destruct Hlt as (r & Hr & G); [vm_compute; reflexivity|].
    rewrite G. vm_compute in Hr. inversion Hr. reflexivity.
Defined.

Lemma add_range_Ok_state s dim_idx r s' :
  add_range s dim_idx (Some r) = Ret (Ok, s') ->
  (dim_idx < dim_num (schema s))%nat
  /\ exists rs,
       ranges_ s !! dim_idx = Some rs
       /\ s' = set_ranges (flags_cleared s)
                 (<[dim_idx := Ranges.add_range rs r false]> (ranges_ s)).
Proof.
  intros H. unfold add_range in H.
  case_bool_decide as Hd; [discriminate|].
  split; [lia|].
  assert (G : add_range_T s dim_idx r = Ret (Ok, s')).
  { destruct (domain_type (schema s)); try exact H; discriminate. }
  clear H. unfold add_range_T in G.
  destruct (negb _); [discriminate|].
  fold (flags_cleared s) in G.
  change (schema (flags_cleared s)) with (schema s) in G.
  change (ranges_ (flags_cleared s)) with (ranges_ s) in G.
  destruct (check_nan r); [|discriminate].
  destruct (scalar_gt _ _); [discriminate|].
  destruct (at_ (domain (schema s)) (2 * dim_idx)) as [dlo| |]; try discriminate.
  rewrite bind_Ret in G.
  assert (K : forall outside : bool,
            (if outside
             then Ret (SubarrayError
                         "Cannot add range to dimension; Range must be in the domain the subarray is constructed from",
                       flags_cleared s)
             else rs ← at_ (ranges_ s) dim_idx;
                  Ret (Ok, set_ranges (flags_cleared s)
                             (<[dim_idx := Ranges.add_range rs r false]>
                                (ranges_ s))))
            = Ret (Ok, s') ->
            exists rs,
              ranges_ s !! dim_idx = Some rs
              /\ s' = set_ranges (flags_cleared s)
                        (<[dim_idx := Ranges.add_range rs r false]> (ranges_ s))).
  { intros [|] K; [discriminate|]. unfold at_ in K.
    destruct (ranges_ s !! dim_idx) as [rs|]; [|discriminate].
    rewrite bind_Ret in K. inversion K. eauto. }
  destruct (scalar_lt (fst r) dlo).
  - rewrite bind_Ret in G. discriminate.
  - destruct (at_ (domain (schema s)) (2 * dim_idx + 1)) as [dhi| |];
      try discriminate.
    rewrite !bind_Ret in G. exact (K _ G).
Qed.

(** X4.  A range that [add_range] has accepted is read back: afterwards
    [get_range_num] on its dimension returns a number [n >= 1], and
    [get_range] at the index [n - 1] returns the range. *)
Theorem add_range_get_range :
  forall s dim_idx r s',
    add_range s dim_idx (Some r) = Ret (Ok, s') ->
    exists n,
      get_range_num s' dim_idx = Ret (Ok, Some n)
      /\ 1 <= n
      /\ get_range s' dim_idx (n - 1) = Ret (Ok, Some r).
Proof.
  intros s dim_idx r s' H.
  destruct (add_range_Ok_state s dim_idx r s' H) as (Hd & rs & Hrs & ->).
  set (rs' := Ranges.add_range rs r false).
  assert (Hrs' : <[dim_idx := rs']> (ranges_ s) !! dim_idx = Some rs').
  { apply list_lookup_insert_eq. apply lookup_lt_Some in Hrs. exact Hrs. }
  pose proof (last_range_add rs r) as Hlast. fold rs' in Hlast.
  unfold last_range in Hlast. rewrite last_lookup in Hlast.
  assert (Hlen : (0 < length (Ranges.buffer_ rs'))%nat).
  { destruct (Ranges.buffer_ rs'); [discriminate Hlast | simpl; lia]. }
  exists (Ranges.range_num rs'). unfold get_range_num, get_range.
  change (schema (set_ranges (flags_cleared s) (<[dim_idx:=rs']> (ranges_ s))))
    with (schema s).
  change (ranges_ (set_ranges (flags_cleared s) (<[dim_idx:=rs']> (ranges_ s))))
    with (<[dim_idx:=rs']> (ranges_ s)).
  rewrite !bool_decide_eq_false_2 by lia.
  rewrite (at_Some _ _ _ Hrs'), !bind_Ret.
  split; [reflexivity|]. unfold Ranges.range_num. split; [lia|].
  rewrite (proj2 (Z.leb_gt _ _)) by lia.
  unfold Ranges.get_range.
  replace (Z.to_nat (Z.of_nat (length (Ranges.buffer_ rs')) - 1))
    with (Nat.pred (length (Ranges.buffer_ rs'))) by lia.
  rewrite (at_Some _ _ _ Hlast). reflexivity.
Qed.

(** The theorem at a subarray of 2 x 3 ranges and the range [[7, 9]]. *)
Lemma add_range_get_range_witness :
  exists s' n,
    add_range (grid 2 3 ROW_MAJOR) 1 (Some (SInt 7, SInt 9)) = Ret (Ok, s')
    /\ get_range_num s' 1 = Ret (Ok, Some n)
    /\ get_range s' 1 (n - 1) = Ret (Ok, Some (SInt 7, SInt 9)).
Proof.
  eexists.
  destruct (add_range_get_range (grid 2 3 ROW_MAJOR) 1 (SInt 7, SInt 9) _
              eq_refl)
    as (n & H1 & _ & H2).
  exists n. split; [reflexivity|]. split; assumption.
Defined.

(** ** Clearing *)

(** X5.  [clear] removes the range stores and the computed tables and
    clears both flags; the array, the layout and the estimation map stay.
    The cleared subarray is empty and not unary.  As [dim_num] is still
    that of the schema, every later access to the store of a dimension
    reads [ranges_] outside its bounds: [get_range], [get_range_num] and,
    for a range that passes its checks, [add_range]. *)
Theorem clear_removes_stores :
  forall s,
    range_num (clear s) = 0
    /\ empty (clear s) = true
    /\ is_unary (clear s) = Ret false
    /\ ranges_ (clear s) = [] /\ range_offsets_ (clear s) = []
    /\ tile_overlap_ (clear s) = []
    /\ result_est_size_computed_ (clear s) = false
    /\ tile_overlap_computed_ (clear s) = false
    /\ array_ (clear s) = array_ s /\ layout_ (clear s) = layout_ s
    /\ est_result_size_ (clear s) = est_result_size_ s
    /\ (forall dim_idx,
          (dim_idx < dim_num (schema s))%nat ->
          get_range_num (clear s) dim_idx = Fault
          /\ (forall range_idx, get_range (clear s) dim_idx range_idx = Fault)
          /\ (forall r dlo dhi,
                supported_type (domain_type (schema s)) = true ->
                domain_bounds (schema s) dim_idx dlo dhi ->
                range_ok dlo dhi r ->
                add_range (clear s) dim_idx (Some r) = Fault)).
Proof.
  intros s. do 11 (split; [reflexivity|]).
  intros dim_idx Hd. split; [|split].
  - unfold get_range_num. change (schema (clear s)) with (schema s).
    rewrite bool_decide_eq_false_2 by lia. reflexivity.
  - intros i. unfold get_range. change (schema (clear s)) with (schema s).
    rewrite bool_decide_eq_false_2 by lia. reflexivity.
  - intros r dlo dhi Hsup [Hlo Hhi] (N1 & N2 & G & L & G2).
    assert (E : add_range (clear s) dim_idx (Some r)
                = add_range_T (clear s) dim_idx r).
    { unfold add_range. change (schema (clear s)) with (schema s).
      rewrite bool_decide_eq_false_2 by lia.
      destruct (domain_type (schema s)); try discriminate Hsup; reflexivity. }
    rewrite E. unfold add_range_T. change (schema (clear s)) with (schema s).
    rewrite bool_decide_eq_true_2 by exact Hd. cbn [negb].
    unfold check_nan. rewrite N1, N2. cbn [orb]. cbv iota. rewrite G.
    match goal with
    | |- context [schema ?x] => change (schema x) with (schema s)
    end.
    rewrite (at_Some _ _ _ Hlo), bind_Ret, L, (at_Some _ _ _ Hhi), !bind_Ret, G2.
    reflexivity.
Qed.

(** The theorem at a cleared subarray of 2 x 3 ranges and the range
    [[7, 9]]. *)
Lemma clear_removes_stores_witness :
  get_range_num (clear (grid 2 3 ROW_MAJOR)) 0 = Fault
  /\ add_range (clear (grid 2 3 ROW_MAJOR)) 0 (Some (SInt 7, SInt 9)) = Fault.
Proof.
  destruct (clear_removes_stores (grid 2 3 ROW_MAJOR))
    as (_ & _ & _ & _ & _ & _ & _ & _ & _ & _ & _ & H).
  destruct (H 0%nat ltac:(simpl; lia)) as (H1 & _ & H3).
  split; [exact H1|].
  apply (H3 (SInt 7, SInt 9) (SInt 0) (SInt 1000) eq_refl).
  - split; reflexivity.
  - repeat split.
Defined.

(** ** Cached estimates *)

Lemma compute_est_result_size_cached s :
  result_est_size_computed_ s = true -> compute_est_result_size s = Ret (Ok, s).
Proof. intros H. unfold compute_est_result_size. rewrite H. reflexivity. Qed.

Lemma get_est_result_size_cached s name :
  dense (schema s) = false -> fixed_target (schema s) name ->
  result_est_size_computed_ s = true ->
  get_est_result_size s (Some name) true
  = Ret (Ok, Some (ceil (size_fixed_ (fst (est_entry s name)))),
         snd (est_entry s name)).
Proof.
  intros Hd Ht Hc.
  rewrite (get_est_result_size_fixed_target s name Hd Ht),
    (compute_est_result_size_cached s Hc).
  reflexivity.
Qed.

Lemma get_max_memory_size_cached s name :
  dense (schema s) = false -> fixed_target (schema s) name ->
  result_est_size_computed_ s = true ->
  get_max_memory_size s (Some name) true
  = Ret (Ok, Some (ceil (mem_size_fixed_ (fst (est_entry s name)))),
         snd (est_entry s name)).
Proof.
  intros Hd Ht Hc.
  rewrite (get_max_memory_size_fixed_target s name Hd Ht),
    (compute_est_result_size_cached s Hc).
  reflexivity.
Qed.

(** ** Copies *)

(** X6.  [clone] copies the array, the layout, the range stores, the
    offsets, the overlap and the two flags, so the range enumeration of the
    clone is that of the original; the estimation map is not copied.  The
    clone of a subarray whose sizes have been estimated therefore claims
    that its sizes are computed while its map is empty, and the fixed-form
    size queries on it return [Ok] with the size 0. *)
Theorem clone_drops_estimates :
  forall s,
    array_ (clone s) = array_ s /\ layout_ (clone s) = layout_ s
    /\ ranges_ (clone s) = ranges_ s
    /\ range_offsets_ (clone s) = range_offsets_ s
    /\ tile_overlap_ (clone s) = tile_overlap_ s
    /\ result_est_size_computed_ (clone s) = result_est_size_computed_ s
    /\ tile_overlap_computed_ (clone s) = tile_overlap_computed_ s
    /\ range_num (clone s) = range_num s
    /\ (forall idx, get_range_coords (clone s) idx = get_range_coords s idx)
    /\ (forall c, range_idx (clone s) c = range_idx s c)
    /\ (forall idx, range (clone s) idx = range s idx)
    /\ est_result_size_ (clone s) = ∅
    /\ (forall name,
          dense (schema s) = false -> fixed_target (schema s) name ->
          result_est_size_computed_ s = true ->
          (exists s2, get_est_result_size (clone s) (Some name) true
                      = Ret (Ok, Some 0, s2))
          /\ (exists s2, get_max_memory_size (clone s) (Some name) true
                         = Ret (Ok, Some 0, s2))).
Proof.
  intros s. do 12 (split; [reflexivity|]).
  intros name Hd Ht Hc. split.
  - rewrite (get_est_result_size_cached (clone s) name Hd Ht Hc).
    eexists. reflexivity.
  - rewrite (get_max_memory_size_cached (clone s) name Hd Ht Hc).
    eexists. reflexivity.
Qed.

Example build_estimated_value : build_estimated = Ret estimated.
Proof. vm_compute. reflexivity. Qed.

(** The theorem at the subarray of 2 x 3 ranges after its estimation: the
    attribute [a1] is estimated at 36 bytes, and at 0 bytes on the clone. *)
Lemma clone_drops_estimates_witness :
  (exists s2, get_est_result_size estimated (Some "a1") true
              = Ret (Ok, Some 36, s2))
  /\ (exists s2, get_est_result_size (clone estimated) (Some "a1") true
                 = Ret (Ok, Some 0, s2)).
Proof.
  split; [eexists; vm_compute; reflexivity|].
  destruct (clone_drops_estimates estimated)
    as (_ & _ & _ & _ & _ & _ & _ & _ & _ & _ & _ & _ & H).
  assert (Hd : dense (schema estimated) = false) by (vm_compute; reflexivity).
  assert (Ht : fixed_target (schema estimated) "a1").
  { right. exists {| attr_name := "a1"; attr_var_size := false |}.
    split; vm_compute; reflexivity. }
  assert (Hc : result_est_size_computed_ estimated = true)
    by (vm_compute; reflexivity).
  exact (proj1 (H "a1" Hd Ht Hc)).
Defined.

(** X7.  [swap] exchanges the array, the layout, the range stores, the
    offsets, the overlap and the two flags of two subarrays, and swapping
    twice restores both; the estimation maps are not exchanged.  After the
    copy assignment [this = other] the subarray has the ranges and the
    flags of [other] with the estimation map it had before: if the sizes
    of [other] were estimated, [get_est_result_size] returns what the old
    map of [this] holds for the attribute, 0 if it holds nothing. *)
Theorem swap_keeps_estimates :
  forall this other,
    swap (fst (swap this other)) (snd (swap this other)) = (this, other)
    /\ ranges_ (fst (swap this other)) = ranges_ other
    /\ ranges_ (snd (swap this other)) = ranges_ this
    /\ est_result_size_ (fst (swap this other)) = est_result_size_ this
    /\ est_result_size_ (snd (swap this other)) = est_result_size_ other
    /\ ranges_ (copy_assign this other) = ranges_ other
    /\ range_num (copy_assign this other) = range_num other
    /\ result_est_size_computed_ (copy_assign this other)
       = result_est_size_computed_ other
    /\ est_result_size_ (copy_assign this other) = est_result_size_ this
    /\ (forall name,
          dense (schema other) = false -> fixed_target (schema other) name ->
          result_est_size_computed_ other = true ->
          exists s2,
            get_est_result_size (copy_assign this other) (Some name) true
            = Ret (Ok, Some (stored_size (est_result_size_ this) name), s2)).
Proof.
  intros this other. split.
  { destruct this, other. reflexivity. }
  do 8 (split; [reflexivity|]).
  intros name Hd Ht Hc.
  rewrite (get_est_result_size_cached (copy_assign this other) name Hd Ht Hc).
  rewrite est_entry_lookup. eexists. unfold stored_size. simpl.
  destruct (est_result_size_ this !! name); reflexivity.
Qed.

(** The theorem at a fresh subarray assigned from the estimated one: the
    estimate of [a1] is 36 bytes on the source and 0 on the copy. *)
Lemma swap_keeps_estimates_witness :
  exists s2,
    get_est_result_size (copy_assign (grid 2 3 ROW_MAJOR) estimated)
      (Some "a1") true
    = Ret (Ok, Some 0, s2).
Proof.
  destruct (swap_keeps_estimates (grid 2 3 ROW_MAJOR) estimated)
    as (_ & _ & _ & _ & _ & _ & _ & _ & _ & H).
  assert (Hd : dense (schema estimated) = false) by (vm_compute; reflexivity).
  assert (Ht : fixed_target (schema estimated) "a1").
  { right. exists {| attr_name := "a1"; attr_var_size := false |}.
    split; vm_compute; reflexivity. }
  assert (Hc : result_est_size_computed_ estimated = true)
    by (vm_compute; reflexivity).
  destruct (H "a1" Hd Ht Hc) as (s2 & Hs2).
  exists s2.
  assert (E : stored_size (est_result_size_ (grid 2 3 ROW_MAJOR)) "a1" = 0)
    by reflexivity.
  rewrite E in Hs2. exact Hs2.
Defined.

(** ** Errors and repetition of the size queries *)

(** X8.  Whenever one of the four size queries returns an error, nothing
    is written through the output pointers and the subarray is left as it
    was: this holds for the errors of the argument checks and for the
    error of the estimation. *)
Theorem size_query_error_keeps_state :
  forall s name,
    (forall size msg v s',
       get_est_result_size s name size = Ret (SubarrayError msg, v, s') ->
       v = None /\ s' = s)
    /\ (forall size_off size_val msg v s',
          get_est_result_size_var s name size_off size_val
          = Ret (SubarrayError msg, v, s') ->
          v = None /\ s' = s)
    /\ (forall size msg v s',
          get_max_memory_size s name size = Ret (SubarrayError msg, v, s') ->
          v = None /\ s' = s)
    /\ (forall size_off size_val msg v s',
          get_max_memory_size_var s name size_off size_val
          = Ret (SubarrayError msg, v, s') ->
          v = None /\ s' = s).
Proof.
  intros s name.
  assert (E : forall (V : Type) (k : Status * Subarray -> run (query_result V))
                     msg (v : option V) s',
             (forall r, fst r = Ok -> k r <> Ret (SubarrayError msg, v, s')) ->
             (forall m, k (SubarrayError m, s) = Ret (SubarrayError m, None, s)) ->
             (r ← compute_est_result_size s; k r) = Ret (SubarrayError msg, v, s') ->
             v = None /\ s' = s).
  { intros V k msg v s' Hok Herr H.
    destruct (compute_est_result_size s) as [[st s0]| |] eqn:C; try discriminate.
    rewrite bind_Ret in H. destruct st as [|m].
    - exfalso. exact (Hok (Ok, s0) eq_refl H).
    - rewrite (compute_est_result_size_error s m s0 C) in H.
      rewrite Herr in H. inversion H. auto. }
  split; [|split; [|split]].
  - intros size msg v s'. unfold get_est_result_size.
    destruct (dense (schema s)); [intros H; inversion H; auto|].
    destruct name as [n|]; [|intros H; inversion H; auto].
    destruct (_ && _); [intros H; inversion H; auto|].
    destruct (negb size); [intros H; inversion H; auto|].
    destruct (_ && _); [intros H; inversion H; auto|].
    apply E.
    + intros r Hr. rewrite Hr. discriminate.
    + reflexivity.
  - intros so sv msg v s'. unfold get_est_result_size_var.
    destruct (dense (schema s)); [intros H; inversion H; auto|].
    destruct name as [n|]; [|intros H; inversion H; auto].
    destruct (attribute (schema s) n) as [a|]; [|intros H; inversion H; auto].
    destruct (_ || _); [intros H; inversion H; auto|].
    destruct (negb _); [intros H; inversion H; auto|].
    apply E.
    + intros r Hr. rewrite Hr. discriminate.
    + reflexivity.
  - intros size msg v s'. unfold get_max_memory_size.
    destruct (dense (schema s)); [intros H; inversion H; auto|].
    destruct name as [n|]; [|intros H; inversion H; auto].
    destruct (_ && _); [intros H; inversion H; auto|].
    destruct (negb size); [intros H; inversion H; auto|].
    destruct (_ && _); [intros H; inversion H; auto|].
    destruct (compute_est_result_size s) as [r| |]; discriminate.
  - intros so sv msg v s'. unfold get_max_memory_size_var.
    destruct (dense (schema s)); [intros H; inversion H; auto|].
    destruct name as [n|]; [|intros H; inversion H; auto].
    destruct (attribute (schema s) n) as [a|]; [|intros H; inversion H; auto].
    destruct (_ || _); [intros H; inversion H; auto|].
    destruct (negb _); [intros H; inversion H; auto|].
    destruct (compute_est_result_size s) as [r| |]; discriminate.
Qed.

(** The theorem at the subarray over the [CHAR] domain, where the
    estimation fails, and at an unknown attribute. *)
Lemma size_query_error_keeps_state_witness :
  (exists msg, get_est_result_size char_subarray (Some "a1") true
               = Ret (SubarrayError msg, None, char_subarray))
  /\ (exists msg, get_max_memory_size_var (grid 2 3 ROW_MAJOR) (Some "b") true true
                  = Ret (SubarrayError msg, None, grid 2 3 ROW_MAJOR)).
Proof.
  split.
  - destruct (get_est_result_size char_subarray (Some "a1") true)
      as [[[st v] s']| |] eqn:E; try (vm_compute in E; discriminate E).
    destruct st as [|msg]; [vm_compute in E; discriminate E|].
    destruct (proj1 (size_query_error_keeps_state char_subarray (Some "a1"))
                true msg v s' E) as [-> ->].
    exists msg. reflexivity.
  - destruct (get_max_memory_size_var (grid 2 3 ROW_MAJOR) (Some "b") true true)
      as [[[st v] s']| |] eqn:E; try (vm_compute in E; discriminate E).
    destruct st as [|msg]; [vm_compute in E; discriminate E|].
    destruct (proj2 (proj2 (proj2
                (size_query_error_keeps_state (grid 2 3 ROW_MAJOR) (Some "b"))))
                true true msg v s' E) as [-> ->].
    exists msg. reflexivity.
Defined.

Lemma compute_range_offsets_fields s s' :
  compute_range_offsets s = Ret s' ->
  exists offs, s' = set_range_offsets s offs.
Proof.
  unfold compute_range_offsets.
  destruct (effective_layout s); try discriminate.
  - match goal with
    | |- context [mbind ?k ?m] => destruct m as [offs| |]
    end; try discriminate.
    rewrite bind_Ret. intros H. inversion H. eauto.
  - match goal with
    | |- context [mbind ?k ?m] => destruct m as [offs| |]
    end; try discriminate.
    rewrite bind_Ret. intros H. inversion H. eauto.
Qed.

Lemma compute_tile_overlap_T_fields s st s' :
  compute_tile_overlap_T s = Ret (st, s') ->
  array_ s' = array_ s /\ layout_ s' = layout_ s /\ ranges_ s' = ranges_ s
  /\ est_result_size_ s' = est_result_size_ s
  /\ result_est_size_computed_ s' = result_est_size_computed_ s
  /\ (tile_overlap_computed_ s = false -> tile_overlap_computed_ s' = true).
Proof.
  unfold compute_tile_overlap_T.
  destruct (tile_overlap_computed_ s) eqn:F.
  - intros H. inversion H; subst. repeat split. discriminate.
  - destruct (compute_range_offsets s) as [s1| |] eqn:C; try discriminate.
    rewrite bind_Ret.
    destruct (compute_range_offsets_fields s s1 C) as (offs & ->).
    match goal with
    | |- context [run_mapM ?f ?l] => destruct (run_mapM f l)
    end; try discriminate.
    rewrite bind_Ret. intros H. inversion H; subst. repeat split.
Qed.

Lemma compute_est_result_size_T_fields t s st s' :
  compute_est_result_size_T t s = Ret (st, s') ->
  array_ s' = array_ s /\ layout_ s' = layout_ s /\ ranges_ s' = ranges_ s
  /\ (result_est_size_computed_ s = false ->
      result_est_size_computed_ s' = true).
Proof.
  unfold compute_est_result_size_T.
  destruct (result_est_size_computed_ s) eqn:F.
  - intros H. inversion H; subst. repeat split. discriminate.
  - destruct (compute_tile_overlap_T s) as [[st1 s1]| |] eqn:C; try discriminate.
    rewrite bind_Ret.
    pose proof (compute_tile_overlap_T_status s _ C) as Hst. simpl in Hst.
    subst st1. cbn [fst snd].
    destruct (compute_tile_overlap_T_fields s _ _ C) as (A & L & R & _).
    match goal with
    | |- context [for_up ?n ?i ?f ?a] => destruct (for_up n i f a)
    end; try discriminate.
    rewrite bind_Ret. intros H. inversion H; subst. simpl. repeat split; auto.
Qed.

Lemma compute_est_result_size_Ok s s0 :
  compute_est_result_size s = Ret (Ok, s0) ->
  array_ s0 = array_ s /\ layout_ s0 = layout_ s /\ ranges_ s0 = ranges_ s
  /\ result_est_size_computed_ s0 = true.
Proof.
  unfold compute_est_result_size.
  destruct (result_est_size_computed_ s) eqn:F.
  - intros H. inversion H; subst. auto.
  - destruct (domain_type (schema s));
      try (intros H; apply compute_est_result_size_T_fields in H;
           destruct H as (A & L & R & C); repeat split; auto);
      discriminate.
Qed.

Lemma est_entry_fields s name :
  array_ (snd (est_entry s name)) = array_ s
  /\ result_est_size_computed_ (snd (est_entry s name))
     = result_est_size_computed_ s.
Proof.
  unfold est_entry. destruct (est_result_size_ s !! name); split; reflexivity.
Qed.

(** X9.  The estimate is computed once: when [get_est_result_size] has
    returned [Ok] with a size, the subarray it leaves has its sizes marked
    as computed, and the same query on it returns the same size and leaves
    it unchanged. *)
Theorem get_est_result_size_repeat :
  forall s name v s1,
    get_est_result_size s (Some name) true = Ret (Ok, Some v, s1) ->
    result_est_size_computed_ s1 = true
    /\ get_est_result_size s1 (Some name) true = Ret (Ok, Some v, s1).
Proof.
  intros s name v s1 H. unfold get_est_result_size in H.
  destruct (dense (schema s)) eqn:Hd; [discriminate|].
  destruct (negb (bool_decide (name = coords))
            && bool_decide (attribute (schema s) name = None)) eqn:C1;
    [discriminate|].
  cbn [negb] in H.
  destruct (negb (bool_decide (name = coords))
            && from_option attr_var_size false (attribute (schema s) name))
    eqn:C2; [discriminate|].
  destruct (compute_est_result_size s) as [[st s0]| |] eqn:C; try discriminate.
  rewrite bind_Ret in H. cbn [fst snd] in H.
  destruct st; [|discriminate].
  inversion H as [[Hv Hs1]]. clear H.
  destruct (compute_est_result_size_Ok s s0 C) as (A & _ & _ & F).
  destruct (est_entry_fields s0 name) as (A1 & F1).
  assert (Hsch : schema (snd (est_entry s0 name)) = schema s).
  { unfold schema. rewrite A1, A. reflexivity. }
  assert (F2 : result_est_size_computed_ (snd (est_entry s0 name)) = true)
    by (rewrite F1; exact F).
  split; [exact F2|].
  unfold get_est_result_size. rewrite Hsch, Hd, C1. cbn [negb]. rewrite C2.
  rewrite (compute_est_result_size_cached _ F2), bind_Ret. cbn [fst snd].
  rewrite est_entry_idem. reflexivity.
Qed.

(** The theorem at a subarray of 2 x 3 ranges and the attribute [a1],
    estimated at 36 bytes. *)
Lemma get_est_result_size_repeat_witness :
  exists s1,
    get_est_result_size (grid 2 3 ROW_MAJOR) (Some "a1") true
    = Ret (Ok, Some 36, s1)
    /\ get_est_result_size s1 (Some "a1") true = Ret (Ok, Some 36, s1).
Proof.
  eexists. split; [vm_compute; reflexivity|].
  match goal with
  | |- get_est_result_size ?s1 _ _ = _ =>
      apply (proj2 (get_est_result_size_repeat (grid 2 3 ROW_MAJOR) "a1" 36 s1
                      ltac:(vm_compute; reflexivity)))
  end.
Defined.

(** ** The enumeration is a bijection *)

Lemma prefix_prods_snoc ns : forall a x,
  prefix_prods a (ns ++ [x]) = prefix_prods a ns ++ [a * prodZ ns].
Proof.
  induction ns as [|n ns IH]; intros a x; simpl.
  - change (prodZ []) with 1. rewrite Z.mul_1_r. reflexivity.
  - rewrite IH, prodZ_cons, Z.mul_assoc. reflexivity.
Qed.

Lemma rev_prefix_prods_rev ns : rev (prefix_prods 1 (rev ns)) = row_offs ns.
Proof.
  induction ns as [|n ns IH]; simpl; [reflexivity|].
  rewrite prefix_prods_snoc, rev_app_distr, IH, prodZ_rev, Z.mul_1_l.
  reflexivity.
Qed.

Lemma prefix_prods_bounds ns : forall a,
  0 < a -> Forall (fun n => 0 < n) ns ->
  Forall (fun p => 0 < p <= a * prodZ ns) (prefix_prods a ns).
Proof.
  induction ns as [|n ns IH]; intros a Ha Hns; simpl; [constructor|].
  inversion Hns as [|? ? Hn Hns']; subst.
  assert (Hp : 0 < prodZ ns).
  { clear - Hns'. induction Hns' as [|m l Hm _ IH]; [reflexivity|].
    rewrite prodZ_cons. cbv beta in Hm. nia. }
  rewrite prodZ_cons.
  assert (Hnp : 1 <= n * prodZ ns) by nia.
  constructor; [nia|].
  eapply Forall_impl; [apply (IH (a * n)); [nia | exact Hns']|].
  intros p Hpb. simpl in Hpb. rewrite Z.mul_assoc. lia.
Qed.

Lemma offsets_exact ns :
  Forall (fun n => 0 < n) ns -> prodZ ns < 2 ^ 64 ->
  map wrap64 (prefix_prods 1 ns) = prefix_prods 1 ns.
Proof.
  intros Hns Hlt.
  pose proof (prefix_prods_bounds ns 1 ltac:(lia) Hns) as Hb.
  induction Hb as [|p l Hp _ IH]; simpl; [reflexivity|].
  rewrite IH, wrap64_small by lia. reflexivity.
Qed.

Lemma Forall_pos_rev (l : list Z) :
  Forall (fun n => 0 < n) l -> Forall (fun n => 0 < n) (rev l).
Proof. apply Forall_rev. Qed.

Lemma prodZ_pos_all l :
  Forall (fun n => 0 <= n) l -> 0 < prodZ l -> Forall (fun n => 0 < n) l.
Proof.
  induction 1 as [|n l Hn Hl IH]; intros Hp; [constructor|].
  rewrite prodZ_cons in Hp.
  assert (0 < n /\ 0 < prodZ l) as [H1 H2].
  { assert (0 <= prodZ l).
    { clear - Hl. induction Hl as [|m k Hm _ IH]; [discriminate|].
      rewrite prodZ_cons. nia. }
    nia. }
  constructor; auto.
Qed.

Lemma range_nums_nonneg s : Forall (fun n => 0 <= n) (range_nums s).
Proof.
  unfold range_nums. apply Forall_map, Forall_forall. intros r _. simpl.
  unfold Ranges.range_num. lia.
Qed.

Lemma valid_coords_pos c ns :
  Forall2 (fun ci n => 0 <= ci < n) c ns -> Forall (fun n => 0 < n) ns.
Proof. induction 1; constructor; auto; lia. Qed.

Lemma dot_row_offs_bound ns c :
  Forall2 (fun ci n => 0 <= ci < n) c ns ->
  0 <= dot (row_offs ns) c < prodZ ns.
Proof.
  induction 1 as [|ci n c ns Hc _ IH]; simpl.
  - change (prodZ []) with 1. lia.
  - rewrite prodZ_cons. nia.
Qed.

Lemma digits_row_offs ns : forall idx,
  Forall (fun n => 0 < n) ns -> 0 <= idx < prodZ ns ->
  exists cs, digits (row_offs ns) idx = Ret cs
             /\ Forall2 (fun ci n => 0 <= ci < n) cs ns.
Proof.
  induction ns as [|n ns IH]; intros idx Hns Hidx; simpl.
  - exists []. split; [reflexivity | constructor].
  - inversion Hns as [|? ? Hn Hns']; subst.
    rewrite prodZ_cons in Hidx.
    assert (Hp : 0 < prodZ ns) by nia.
    destruct (Z.eqb_spec (prodZ ns) 0) as [E|_]; [lia|].
    destruct (IH (idx mod prodZ ns) Hns') as (cs & Hcs & Hv).
    { apply Z.mod_pos_bound. exact Hp. }
    exists (idx / prodZ ns :: cs). rewrite Hcs. split; [reflexivity|].
    constructor; [|exact Hv]. split.
    + apply Z.div_pos; lia.
    + apply Z.div_lt_upper_bound; lia.
Qed.

Lemma digits_dot_inverse ns c :
  Forall2 (fun ci n => 0 <= ci < n) c ns ->
  digits (row_offs ns) (dot (row_offs ns) c) = Ret c.
Proof.
  induction 1 as [|ci n c ns Hc Hrest IH]; simpl; [reflexivity|].
  pose proof (dot_row_offs_bound ns c Hrest) as Hb.
  destruct (Z.eqb_spec (prodZ ns) 0) as [E|_]; [lia|].
  replace (prodZ ns * ci + dot (row_offs ns) c)
    with (dot (row_offs ns) c + ci * prodZ ns) by ring.
  rewrite Z.mod_add, Z.div_add by lia.
  rewrite Z.mod_small, Z.div_small by lia.
  rewrite IH. reflexivity.
Qed.

Lemma length_row_offs ns : length (row_offs ns) = length ns.
Proof. induction ns; simpl; auto. Qed.

Lemma computed_offsets_exact s0 s :
  Subarray_inv s0 -> compute_range_offsets s0 = Ret s ->
  Forall (fun n => 0 < n) (range_nums s) -> range_count s < 2 ^ 64 ->
  (effective_layout s = ROW_MAJOR /\ range_offsets_ s = row_offs (range_nums s))
  \/ (effective_layout s = COL_MAJOR
      /\ rev (range_offsets_ s) = row_offs (rev (range_nums s))).
Proof.
  intros Hinv H Hpos Hlt.
  destruct (compute_range_offsets_inv s0 s Hinv H) as [[HL ->]|[HL ->]].
  - left. split; [exact HL|]. cbn [range_offsets_ set_range_offsets].
    change (range_nums (set_range_offsets s0 _)) with (range_nums s0) in *.
    change (range_count (set_range_offsets s0 _)) with (range_count s0) in *.
    rewrite offsets_exact.
    + apply rev_prefix_prods_rev.
    + apply Forall_rev. exact Hpos.
    + rewrite prodZ_rev. exact Hlt.
  - right. split; [exact HL|]. cbn [range_offsets_ set_range_offsets].
    change (range_nums (set_range_offsets s0 _)) with (range_nums s0) in *.
    change (range_count (set_range_offsets s0 _)) with (range_count s0) in *.
    rewrite offsets_exact by assumption.
    rewrite <- (rev_involutive (range_nums s0)) at 1.
    apply rev_prefix_prods_rev.
Qed.

Lemma computed_offsets_inv s0 s :
  Subarray_inv s0 -> compute_range_offsets s0 = Ret s ->
  Subarray_inv s /\ length (range_offsets_ s) = dim_num (schema s).
Proof.
  intros Hinv H.
  destruct (compute_range_offsets_inv s0 s Hinv H) as [[HL ->]|[HL ->]];
    (split; [apply set_range_offsets_inv; exact Hinv|]);
    cbn [range_offsets_ set_range_offsets];
    rewrite ?length_rev, length_map, length_prefix_prods, ?length_rev,
      length_range_nums; apply Hinv.
Qed.

Lemma coords_valid s0 s idx c :
  Subarray_inv s0 -> compute_range_offsets s0 = Ret s ->
  range_count s < 2 ^ 64 -> 0 <= idx < range_num s ->
  get_range_coords s idx = Ret c -> valid_range_coords s c.
Proof.
  intros Hinv H Hlt Hidx Hc.
  destruct (computed_offsets_inv s0 s Hinv H) as [Hinv' Hlen].
  pose proof (ranges_nonempty s Hinv') as Hne.
  rewrite (range_num_wrap s Hne) in Hidx.
  pose proof (range_count_nonneg s) as Hnn.
  rewrite wrap64_small in Hidx by lia.
  assert (Hpos : Forall (fun n => 0 < n) (range_nums s)).
  { apply prodZ_pos_all; [apply range_nums_nonneg|]. fold (range_count s). lia. }
  unfold valid_range_coords.
  destruct (computed_offsets_exact s0 s Hinv H Hpos Hlt) as [[HL Ho]|[HL Ho]].
  - rewrite (get_range_coords_row s idx HL Hlen), Ho in Hc.
    destruct (digits_row_offs (range_nums s) idx Hpos Hidx) as (cs & Hcs & Hv).
    rewrite Hcs in Hc. inversion Hc; subst. exact Hv.
  - rewrite (get_range_coords_col s idx HL Hlen (inv_dim_num s Hinv')), Ho in Hc.
    destruct (digits_row_offs (rev (range_nums s)) idx) as (cs & Hcs & Hv).
    { apply Forall_rev. exact Hpos. }
    { rewrite prodZ_rev. exact Hidx. }
    rewrite Hcs, bind_Ret in Hc. inversion Hc; subst.
    rewrite <- (rev_involutive (range_nums s)). apply Forall2_rev_Z. exact Hv.
Qed.

Lemma coords_of_index s0 s c :
  Subarray_inv s0 -> compute_range_offsets s0 = Ret s ->
  range_count s < 2 ^ 64 -> valid_range_coords s c ->
  exists idx,
    range_idx s c = Ret idx /\ 0 <= idx < range_num s
    /\ get_range_coords s idx = Ret c.
Proof.
  intros Hinv H Hlt Hv.
  destruct (computed_offsets_inv s0 s Hinv H) as [Hinv' Hlen].
  pose proof (ranges_nonempty s Hinv') as Hne.
  pose proof (valid_coords_pos _ _ Hv) as Hpos.
  pose proof (Forall2_length _ _ _ Hv) as Lc.
  rewrite length_range_nums, (inv_ranges s Hinv') in Lc.
  rewrite (range_num_wrap s Hne).
  pose proof (range_count_nonneg s) as Hnn.
  rewrite (wrap64_small (range_count s)) by lia.
  rewrite (range_idx_dot s c Hlen Lc).
  destruct (computed_offsets_exact s0 s Hinv H Hpos Hlt) as [[HL Ho]|[HL Ho]].
  - pose proof (dot_row_offs_bound _ _ Hv) as Hb. fold (range_count s) in Hb.
    rewrite Ho. rewrite wrap64_small by lia.
    eexists. split; [reflexivity|]. split; [exact Hb|].
    rewrite (get_range_coords_row s _ HL Hlen), Ho.
    apply digits_dot_inverse. exact Hv.
  - assert (Hv' : Forall2 (fun ci n => 0 <= ci < n) (rev c) (rev (range_nums s)))
      by (apply Forall2_rev_Z; exact Hv).
    pose proof (dot_row_offs_bound _ _ Hv') as Hb.
    rewrite prodZ_rev in Hb. fold (range_count s) in Hb.
    assert (Hd : dot (range_offsets_ s) c
                 = dot (row_offs (rev (range_nums s))) (rev c)).
    { rewrite <- Ho. apply eq_sym, dot_rev. lia. }
    rewrite Hd, wrap64_small by lia.
    eexists. split; [reflexivity|]. split; [exact Hb|].
    rewrite (get_range_coords_col s _ HL Hlen (inv_dim_num s Hinv')), Ho.
    rewrite (digits_dot_inverse _ _ Hv'), bind_Ret, rev_involutive.
    reflexivity.
Qed.

(** X10.  After [compute_range_offsets], if the number of ranges is below
    [2^64], the enumeration is a bijection: [get_range_coords] of a linear
    index below [range_num] is a valid coordinate vector, and every valid
    coordinate vector has a linear index below [range_num], given by
    [range_idx], that [get_range_coords] converts back to the vector. *)
Theorem range_coords_bijection :
  forall s0 s,
    Subarray_inv s0 -> compute_range_offsets s0 = Ret s ->
    range_count s < 2 ^ 64 ->
    (forall idx c, 0 <= idx < range_num s ->
                   get_range_coords s idx = Ret c -> valid_range_coords s c)
    /\ (forall c, valid_range_coords s c ->
          exists idx,
            range_idx s c = Ret idx /\ 0 <= idx < range_num s
            /\ get_range_coords s idx = Ret c).
Proof.
  intros s0 s Hinv H Hlt. split.
  - intros idx c Hidx Hc. exact (coords_valid s0 s idx c Hinv H Hlt Hidx Hc).
  - intros c Hv. exact (coords_of_index s0 s c Hinv H Hlt Hv).
Qed.

(** The theorem at a col-major subarray of 2 x 3 ranges and the
    coordinates [(1, 2)], whose linear index is 7. *)
Lemma range_coords_bijection_witness :
  exists s,
    compute_range_offsets (grid 2 3 COL_MAJOR) = Ret s
    /\ range_idx s [1; 2] = Ret 7
    /\ get_range_coords s 7 = Ret [1; 2].
Proof.
  eexists. split; [reflexivity|].
  destruct (range_coords_bijection (grid 2 3 COL_MAJOR) _
              (grid_inv 2 3 COL_MAJOR ltac:(lia)) eq_refl
              ltac:(vm_compute; reflexivity)) as [_ B].
  destruct (B [1; 2]) as (idx & H1 & _ & H2).
  - unfold valid_range_coords. vm_compute. repeat constructor; discriminate.
  - assert (E : idx = 7).
    { match type of H1 with
      | range_idx ?s ?c = _ =>
          assert (G : range_idx s c = Ret 7) by (vm_compute; reflexivity)
      end.
      rewrite G in H1. inversion H1. reflexivity. }
    subst idx. split; [exact H1 | exact H2].
Defined.

(** ** The range of a linear index *)

Lemma get_range_cases_run rs c :
  (exists r, Ranges.get_range rs c = Ret r
             /\ Ranges.buffer_ rs !! Z.to_nat c = Some r)
  \/ Ranges.get_range rs c = Fault.
Proof.
  unfold Ranges.get_range, at_.
  destruct (Ranges.buffer_ rs !! Z.to_nat c); eauto.
Qed.

Lemma digits_cases os : forall tmp,
  (exists cs, digits os tmp = Ret cs /\ length cs = length os)
  \/ digits os tmp = Fault.
Proof.
  induction os as [|o os IH]; intros tmp; simpl; [left; eauto|].
  destruct (o =? 0); [right; reflexivity|].
  destruct (IH (tmp mod o)) as [(cs & -> & Hl)| ->]; [left|right; reflexivity].
  eexists. split; [reflexivity|]. simpl. rewrite Hl. reflexivity.
Qed.

Lemma ranges_at_cases rss : forall cs,
  (exists rg, ranges_at rss cs = Ret rg) \/ ranges_at rss cs = Fault.
Proof.
  induction rss as [|rs rss IH]; intros [|c cs]; simpl; eauto.
  destruct (get_range_cases_run rs c) as [(r & -> & _)| ->]; [|right; reflexivity].
  rewrite bind_Ret.
  destruct (IH cs) as [(rg & ->)| ->]; [left|right; reflexivity].
  eexists. reflexivity.
Qed.

Lemma range_step_at s i o rs st :
  range_offsets_ s !! i = Some o -> ranges_ s !! i = Some rs ->
  range_step s i st = range_digit_step (o, rs) st.
Proof.
  intros Ho Hrs. unfold range_step, range_digit_step. destruct st as [ret tmp].
  rewrite (at_Some _ _ _ Ho), bind_Ret. cbn [fst snd].
  destruct (o =? 0); [reflexivity|].
  rewrite (at_Some _ _ _ Hrs), bind_Ret. reflexivity.
Qed.

Lemma foldM_range_digit_step l : forall acc tmp,
  foldM range_digit_step l (acc, tmp)
  = (rg ← range_digits l tmp;
     Ret (acc ++ rg, remainder (map fst l) tmp)).
Proof.
  induction l as [|[o rs] l IH]; intros acc tmp.
  - simpl. rewrite app_nil_r. reflexivity.
  - change (foldM range_digit_step ((o, rs) :: l) (acc, tmp))
      with (s' ← range_digit_step (o, rs) (acc, tmp);
            foldM range_digit_step l s').
    change (range_digits ((o, rs) :: l) tmp)
      with (if o =? 0 then Fault
            else r ← Ranges.get_range rs (tmp / o);
                 rest ← range_digits l (tmp mod o);
                 Ret (r :: rest)).
    change (remainder (map fst ((o, rs) :: l)) tmp)
      with (remainder (map fst l) (tmp mod o)).
    replace (range_digit_step (o, rs) (acc, tmp))
      with (if o =? 0 then @Fault (list (scalar * scalar) * Z)
            else r ← Ranges.get_range rs (tmp / o);
                 Ret (acc ++ [r], tmp mod o)) by reflexivity.
    destruct (o =? 0); [reflexivity|].
    destruct (get_range_cases_run rs (tmp / o)) as [(r & -> & _)| ->];
      [|reflexivity].
    rewrite !bind_Ret, IH.
    destruct (range_digits l (tmp mod o)) as [rg| |]; try reflexivity.
    rewrite !bind_Ret, <- app_assoc. reflexivity.
Qed.

Lemma range_digits_zip os : forall rss tmp,
  length os = length rss ->
  range_digits (zip os rss) tmp = (cs ← digits os tmp; ranges_at rss cs).
Proof.
  induction os as [|o os IH]; intros [|rs rss] tmp Hl; simpl in Hl; try lia.
  - reflexivity.
  - change (range_digits (zip (o :: os) (rs :: rss)) tmp)
      with (if o =? 0 then Fault
            else r ← Ranges.get_range rs (tmp / o);
                 rest ← range_digits (zip os rss) (tmp mod o);
                 Ret (r :: rest)).
    change (digits (o :: os) tmp)
      with (if o =? 0 then Fault
            else cs ← digits os (tmp mod o); Ret (tmp / o :: cs)).
    destruct (o =? 0); [reflexivity|].
    rewrite IH by lia.
    destruct (digits_cases os (tmp mod o)) as [(cs & -> & _)| ->].
    + rewrite !bind_Ret.
      change (ranges_at (rs :: rss) (tmp / o :: cs))
        with (r ← Ranges.get_range rs (tmp / o);
              rest ← ranges_at rss cs; Ret (r :: rest)).
      reflexivity.
    + destruct (get_range_cases_run rs (tmp / o)) as [(r & -> & _)| ->];
        reflexivity.
Qed.

Lemma ranges_at_snoc rss : forall cs rs c,
  length rss = length cs ->
  ranges_at (rss ++ [rs]) (cs ++ [c])
  = (rest ← ranges_at rss cs; r ← Ranges.get_range rs c; Ret (rest ++ [r])).
Proof.
  induction rss as [|rs0 rss IH]; intros [|c0 cs] rs c Hl; simpl in Hl; try lia.
  - simpl. destruct (Ranges.get_range rs c); reflexivity.
  - change (ranges_at ((rs0 :: rss) ++ [rs]) ((c0 :: cs) ++ [c]))
      with (r ← Ranges.get_range rs0 c0;
            rest ← ranges_at (rss ++ [rs]) (cs ++ [c]); Ret (r :: rest)).
    change (ranges_at (rs0 :: rss) (c0 :: cs))
      with (r ← Ranges.get_range rs0 c0;
            rest ← ranges_at rss cs; Ret (r :: rest)).
    rewrite IH by lia.
    destruct (get_range_cases_run rs0 c0) as [(r0 & -> & _)| ->];
      [|reflexivity].
    rewrite !bind_Ret.
    destruct (ranges_at_cases rss cs) as [(rg & ->)| ->]; [|reflexivity].
    rewrite !bind_Ret.
    destruct (Ranges.get_range rs c); reflexivity.
Qed.

Lemma ranges_at_rev rss : forall cs,
  length rss = length cs ->
  ranges_at (rev rss) (rev cs) = (rg ← ranges_at rss cs; Ret (rev rg)).
Proof.
  induction rss as [|rs rss IH]; intros [|c cs] Hl; simpl in Hl; try lia.
  - reflexivity.
  - simpl rev. rewrite ranges_at_snoc by (rewrite !length_rev; lia).
    rewrite IH by lia.
    change (ranges_at (rs :: rss) (c :: cs))
      with (r ← Ranges.get_range rs c;
            rest ← ranges_at rss cs; Ret (r :: rest)).
    destruct (ranges_at_cases rss cs) as [(rg & ->)| ->].
    + rewrite !bind_Ret.
      destruct (get_range_cases_run rs c) as [(r & -> & _)| ->]; reflexivity.
    + destruct (get_range_cases_run rs c) as [(r & -> & _)| ->]; reflexivity.
Qed.

Lemma rev_zip {A B} (a : list A) : forall (b : list B),
  length a = length b -> rev (zip a b) = zip (rev a) (rev b).
Proof.
  induction a as [|x a IH]; intros [|y b] Hl; simpl in Hl; try lia.
  - reflexivity.
  - simpl. rewrite IH by lia.
    rewrite zip_with_app by (rewrite !length_rev; lia). reflexivity.
Qed.

(** [range<T>] reads the stores at the coordinates of the index. *)
Lemma range_at_coords s idx :
  Subarray_inv s -> length (range_offsets_ s) = dim_num (schema s) ->
  range s idx = (c ← get_range_coords s idx; ranges_at (ranges_ s) c).
Proof.
  intros Hinv Hlen. pose proof (inv_ranges s Hinv) as Hr.
  pose proof (inv_dim_num s Hinv) as Hd.
  assert (Hz : length (zip (range_offsets_ s) (ranges_ s)) = dim_num (schema s)).
  { rewrite length_zip_with. lia. }
  assert (Hstep : forall k p st,
             zip (range_offsets_ s) (ranges_ s) !! k = Some p ->
             range_step s k st = range_digit_step p st).
  { intros k [o rs] st Hk.
    apply lookup_zip_with_Some in Hk as (o' & rs' & E & Ho & Hrs).
    inversion E; subst. apply range_step_at; assumption. }
  unfold range, get_range_coords.
  destruct (effective_layout s) eqn:HL; try reflexivity.
  - rewrite <- Hz.
    rewrite (for_up_foldM _ range_digit_step
               (zip (range_offsets_ s) (ranges_ s))) by (intros; apply Hstep; auto).
    rewrite Hz, <- Hlen.
    rewrite (for_up_foldM _ digit_step (range_offsets_ s))
      by (intros k o st Hk; apply coords_step_at; exact Hk).
    rewrite foldM_range_digit_step, foldM_digit_step.
    rewrite range_digits_zip by lia.
    destruct (digits_cases (range_offsets_ s) idx) as [(cs & -> & _)| ->];
      [|reflexivity].
    rewrite !bind_Ret. cbn [fst]. change ([] ++ cs) with cs.
    destruct (ranges_at (ranges_ s) cs); reflexivity.
  - destruct (dim_num (schema s)) as [|d] eqn:Ed; [lia|].
    assert (Hne : range_offsets_ s <> []).
    { intros E. rewrite E in Hlen. simpl in Hlen. lia. }
    destruct (exists_last Hne) as (lo & xo & Hlo).
    assert (Hne' : ranges_ s <> []).
    { intros E. rewrite E in Hr. simpl in Hr. lia. }
    destruct (exists_last Hne') as (lr & xr & Hlr).
    assert (Ldo : length lo = d)
      by (rewrite Hlo, length_app in Hlen; simpl in Hlen; lia).
    assert (Ldr : length lr = d)
      by (rewrite Hlr, length_app in Hr; simpl in Hr; lia).
    assert (Ez : zip (range_offsets_ s) (ranges_ s)
                 = zip lo lr ++ [(xo, xr)]).
    { rewrite Hlo, Hlr. rewrite zip_with_app by lia. reflexivity. }
    replace d with (length (zip lo lr)) at 1
      by (rewrite length_zip_with; lia).
    rewrite (for_down_foldM _ range_digit_step (zip lo lr) (xo, xr))
      by (intros k p st Hk; apply Hstep; rewrite Ez; exact Hk).
    replace d with (length lo) by lia.
    rewrite (for_down_foldM _ digit_step lo xo)
      by (intros k o st Hk; apply coords_step_at; rewrite Hlo; exact Hk).
    rewrite foldM_range_digit_step, foldM_digit_step.
    replace ((xo, xr) :: rev (zip lo lr))
      with (zip (xo :: rev lo) (xr :: rev lr))
      by (simpl; rewrite rev_zip by lia; reflexivity).
    rewrite range_digits_zip by (simpl; rewrite !length_rev; lia).
    destruct (digits_cases (xo :: rev lo) idx) as [(cs & -> & Hcs)| ->];
      [|reflexivity].
    rewrite !bind_Ret. cbn [fst].
    assert (Erss : ranges_ s = rev (xr :: rev lr)).
    { simpl. rewrite rev_involutive. exact Hlr. }
    change ([] ++ cs) with cs. rewrite Erss.
    rewrite ranges_at_rev by (simpl in *; rewrite !length_rev in *; lia).
    destruct (ranges_at (xr :: rev lr) cs); reflexivity.
Qed.

Lemma ranges_at_valid rss : forall cs,
  Forall2 (fun ci n => 0 <= ci < n) cs (map Ranges.range_num rss) ->
  exists rg, ranges_at rss cs = Ret rg /\ Forall2 range_of rg (zip rss cs).
Proof.
  induction rss as [|rs rss IH]; intros cs Hv; inversion Hv; subst.
  - exists []. split; [reflexivity|constructor].
  - rename x into c, l into cs'.
    destruct (IH cs' H3) as (rg & Hrg & Hall).
    assert (Hlt : (Z.to_nat c < length (Ranges.buffer_ rs))%nat)
      by (unfold Ranges.range_num in H2; lia).
    destruct (lookup_lt_is_Some_2 _ _ Hlt) as (r & Hr).
    exists (r :: rg). split.
    + change (ranges_at (rs :: rss) (c :: cs'))
        with (r ← Ranges.get_range rs c;
              rest ← ranges_at rss cs'; Ret (r :: rest)).
      unfold Ranges.get_range. rewrite (at_Some _ _ _ Hr), bind_Ret, Hrg.
      reflexivity.
    + simpl. constructor; [exact Hr | exact Hall].
Qed.

(** X11.  After [compute_range_offsets], if the number of ranges is below
    [2^64], [range<T>] of a linear index below [range_num] returns one range
    per dimension: in each dimension, the range of the store at the
    coordinate that [get_range_coords] gives for the index. *)
Theorem range_of_index :
  forall s0 s idx,
    Subarray_inv s0 -> compute_range_offsets s0 = Ret s ->
    range_count s < 2 ^ 64 -> 0 <= idx < range_num s ->
    exists c rg,
      get_range_coords s idx = Ret c /\ valid_range_coords s c
      /\ range s idx = Ret rg
      /\ Forall2 range_of rg (zip (ranges_ s) c).
Proof.
  intros s0 s idx Hinv Hc Hlt Hidx.
  destruct (computed_offsets_inv s0 s Hinv Hc) as [Hinv' Hlen].
  destruct (get_range_coords_succeeds s0 s idx Hinv Hc Hidx) as (c & Hco).
  pose proof (coords_valid s0 s idx c Hinv Hc Hlt Hidx Hco) as Hv.
  destruct (ranges_at_valid (ranges_ s) c Hv) as (rg & Hrg & Hall).
  exists c, rg. split; [exact Hco|]. split; [exact Hv|].
  split; [|exact Hall].
  rewrite (range_at_coords s idx Hinv' Hlen), Hco, bind_Ret. exact Hrg.
Qed.

(** The theorem at a col-major subarray of 2 x 3 ranges and the linear
    index 7, of coordinates [(1, 2)]. *)
Lemma range_of_index_witness :
  exists s rg,
    compute_range_offsets (grid 2 3 COL_MAJOR) = Ret s
    /\ get_range_coords s 7 = Ret [1; 2]
    /\ range s 7 = Ret rg
    /\ Forall2 range_of rg (zip (ranges_ s) [1; 2]).
Proof.
  destruct (compute_range_offsets (grid 2 3 COL_MAJOR)) as [s| |] eqn:E;
    [|vm_compute in E; discriminate E..].
  assert (Hlt : range_count s < 2 ^ 64)
    by (vm_compute in E; inversion E; vm_compute; reflexivity).
  assert (Hidx : 0 <= 7 < range_num s)
    by (vm_compute in E; inversion E; vm_compute; split; [discriminate|reflexivity]).
  destruct (range_of_index (grid 2 3 COL_MAJOR) s 7
              (grid_inv 2 3 COL_MAJOR ltac:(lia)) E Hlt Hidx)
    as (c & rg & H1 & _ & H2 & H3).
  assert (G : get_range_coords s 7 = Ret [1; 2])
    by (vm_compute in E; inversion E; vm_compute; reflexivity).
  rewrite G in H1. inversion H1; subst c.
  exists s, rg. split; [reflexivity|]. split; [exact G|].
  split; [exact H2 | exact H3].
Defined.

(** ** Unary ranges and the number of cells *)

Lemma is_unary_dims_spec s coords rg :
  Forall2 range_of rg (zip (ranges_ s) coords) ->
  length coords = length (ranges_ s) ->
  forall n i,
    (i + n = length (ranges_ s))%nat ->
    is_unary_dims s coords n i
    = Ret (forallb same_bytes (drop i (zip (ranges_ s) rg))).
Proof.
  intros Hall Hlen.
  pose proof (Forall2_length _ _ _ Hall) as Hl.
  rewrite length_zip_with in Hl.
  induction n as [|n IH]; intros i Hi.
  - rewrite drop_ge by (rewrite length_zip_with; lia). reflexivity.
  - destruct (lookup_lt_is_Some_2 (ranges_ s) i ltac:(lia)) as [rs Hrs].
    destruct (lookup_lt_is_Some_2 coords i ltac:(lia)) as [c Hc].
    destruct (lookup_lt_is_Some_2 rg i ltac:(lia)) as [r Hr].
    assert (Hz : zip (ranges_ s) coords !! i = Some (rs, c)).
    { apply lookup_zip_with_Some. exists rs, c. auto. }
    pose proof (Forall2_lookup_lr _ _ _ _ _ _ Hall Hr Hz) as Hro.
    unfold range_of in Hro. cbn [fst snd] in Hro.
    assert (Hz' : zip (ranges_ s) rg !! i = Some (rs, r)).
    { apply lookup_zip_with_Some. exists rs, r. auto. }
    rewrite (drop_S _ _ _ Hz').
    cbn [is_unary_dims forallb].
    rewrite (at_Some _ _ _ Hrs), bind_Ret, (at_Some _ _ _ Hc), bind_Ret.
    unfold Ranges.get_range. rewrite (at_Some _ _ _ Hro), bind_Ret.
    unfold same_bytes at 1. cbn [fst snd].
    destruct (memcmp_ne (Ranges.type_ rs) r.1 r.2); [reflexivity|].
    cbn [negb andb]. apply IH. lia.
Qed.

Lemma same_bytes_integral t rs r :
  is_integral t = true -> Ranges.type_ rs = t -> span_representable t r ->
  same_bytes (rs, r) = true ->
  exists l, r = (SInt l, SInt l).
Proof.
  intros Hi Ht (l & h & -> & H1 & H2 & H3 & _) Hs.
  unfold same_bytes, memcmp_ne in Hs. cbn [fst snd] in Hs.
  rewrite negb_involutive, Ht in Hs. apply Z.eqb_eq in Hs.
  exists l. f_equal. f_equal. symmetry.
  apply (object_repr_int_inj t l h); [| |exact Hs];
    (split; [exact Hi|lia]).
Qed.

Lemma range_cell_count_unary t rss : forall rg,
  is_integral t = true ->
  Forall (fun rs => Ranges.type_ rs = t) rss ->
  Forall (span_representable t) rg ->
  length rg = length rss ->
  forallb same_bytes (zip rss rg) = true ->
  range_cell_count rg = 1.
Proof.
  unfold range_cell_count.
  induction rss as [|rs rss IH]; intros [|r rg] Hi Ht Hsp Hl Hu;
    simpl in Hl; try lia; [reflexivity|].
  apply Forall_cons in Ht as [Ht1 Ht2]. apply Forall_cons in Hsp as [Hs1 Hs2].
  cbn [zip_with forallb] in Hu. apply andb_true_iff in Hu as [Hu1 Hu2].
  destruct (same_bytes_integral t rs r Hi Ht1 Hs1 Hu1) as (l & ->).
  cbn [map]. rewrite prodZ_cons, (IH rg Hi Ht2 Hs2 ltac:(lia) Hu2). lia.
Qed.

(** X12.  After [compute_range_offsets], if the number of ranges is below
    [2^64], [is_unary(range_idx)] and [cell_num<T>(range_idx)] return for
    every linear index below [range_num].  [is_unary] is true exactly when,
    in every dimension, the two bounds of the range of the index have the
    same bytes.  [cell_num] is 1 on a unary range and [UINT64_MAX] on a
    range of a real type that is not unary; for an integer type whose
    stored ranges have representable spans it is the product over the
    dimensions of [hi - lo + 1], saturated at [UINT64_MAX]. *)
Theorem cell_num_of_index :
  forall s0 s idx,
    Subarray_inv s0 -> compute_range_offsets s0 = Ret s ->
    range_count s < 2 ^ 64 -> 0 <= idx < range_num s ->
    exists rg u,
      range s idx = Ret rg
      /\ is_unary_at s idx = Ret u
      /\ u = forallb same_bytes (zip (ranges_ s) rg)
      /\ forall t,
           (u = true -> cell_num t s idx = Ret 1)
           /\ (u = false -> is_integral t = false ->
               cell_num t s idx = Ret UINT64_MAX)
           /\ (is_integral t = true -> supported_type t = true ->
               Forall (store_representable t) (ranges_ s) ->
               cell_num t s idx = Ret (saturate (range_cell_count rg))).
Proof.
  intros s0 s idx Hinv Hc Hlt Hidx.
  destruct (computed_offsets_inv s0 s Hinv Hc) as [Hinv' Hlen].
  destruct (get_range_coords_succeeds s0 s idx Hinv Hc Hidx) as (c & Hco).
  pose proof (coords_valid s0 s idx c Hinv Hc Hlt Hidx Hco) as Hv.
  destruct (ranges_at_valid (ranges_ s) c Hv) as (rg & Hrg & Hall).
  assert (Hrange : range s idx = Ret rg).
  { rewrite (range_at_coords s idx Hinv' Hlen), Hco, bind_Ret. exact Hrg. }
  assert (Hcl : length c = length (ranges_ s)).
  { apply Forall2_length in Hv. unfold range_nums in Hv.
    rewrite length_map in Hv. exact Hv. }
  assert (Hu : is_unary_at s idx
               = Ret (forallb same_bytes (zip (ranges_ s) rg))).
  { unfold is_unary_at. rewrite Hco, bind_Ret.
    rewrite (is_unary_dims_spec s c rg Hall Hcl _ 0%nat)
      by (rewrite (inv_ranges s Hinv'); reflexivity).
    reflexivity. }
  exists rg, (forallb same_bytes (zip (ranges_ s) rg)).
  split; [exact Hrange|]. split; [exact Hu|]. split; [reflexivity|].
  intros t.
  destruct (cell_num_cases t s idx _ Hu) as (C1 & C2 & C3).
  split; [exact C1|]. split; [exact C2|].
  intros Hi Hs Hrep.
  assert (Hsp : Forall (span_representable t) rg).
  { apply Forall_lookup_2. intros i r Hr.
    destruct (Forall2_lookup_l _ _ _ _ _ Hall Hr) as ([rs ci] & Hz & Hro).
    apply lookup_zip_with_Some in Hz as (rs' & ci' & E & Hrs & Hci).
    inversion E; subst rs' ci'.
    destruct (Forall_lookup_1 _ _ _ _ Hrep Hrs) as [_ Hb].
    exact (Forall_lookup_1 _ _ _ _ Hb Hro). }
  destruct (forallb same_bytes (zip (ranges_ s) rg)) eqn:Eu.
  - rewrite (C1 eq_refl).
    rewrite (range_cell_count_unary t (ranges_ s) rg Hi); try assumption.
    + reflexivity.
    + eapply Forall_impl; [exact Hrep|]. intros rs [Ht _]. exact Ht.
    + apply Forall2_length in Hall. rewrite length_zip_with in Hall. lia.
  - exact (C3 eq_refl Hi Hs rg Hrange Hsp).
Qed.

Example build_boxes_value : build_boxes = Ret boxes.
Proof. vm_compute. reflexivity. Qed.

Lemma boxes_inv : Subarray_inv boxes.
Proof. split; simpl; [lia|reflexivity]. Qed.

Lemma span_representable_int32 l h :
  - 2 ^ 31 <= l -> l <= h -> h <= 2 ^ 31 - 1 -> h - l < 2 ^ 31 ->
  span_representable INT32 (SInt l, SInt h).
Proof.
  intros H1 H2 H3 H4. exists l, h. split; [reflexivity|].
  change (int_min INT32) with (- 2 ^ 31).
  change (int_max INT32) with (2 ^ 31 - 1).
  repeat split; auto.
Qed.

Lemma boxes_representable :
  Forall (store_representable INT32) (ranges_ boxes).
Proof.
  repeat constructor; apply span_representable_int32; lia.
Qed.

(** The theorem at the subarray of 2 x 1 ranges above and the linear index
    1: its range is [[20, 24] x [5, 7]], which is not unary and holds
    15 cells. *)
Lemma cell_num_of_index_witness :
  range boxes 1 = Ret [(SInt 20, SInt 24); (SInt 5, SInt 7)]
  /\ is_unary_at boxes 1 = Ret false
  /\ cell_num INT32 boxes 1 = Ret 15.
Proof.
  assert (Hc : compute_range_offsets boxes = Ret boxes)
    by (vm_compute; reflexivity).
  assert (Hlt : range_count boxes < 2 ^ 64) by (vm_compute; reflexivity).
  assert (Hidx : 0 <= 1 < range_num boxes)
    by (vm_compute; split; [discriminate|reflexivity]).
  destruct (cell_num_of_index boxes boxes 1 boxes_inv Hc Hlt Hidx)
    as (rg & u & Hrg & Hu & Eu & Hcell).
  assert (G : range boxes 1 = Ret [(SInt 20, SInt 24); (SInt 5, SInt 7)])
    by (vm_compute; reflexivity).
  rewrite G in Hrg. inversion Hrg; subst rg.
  assert (u = false) as -> by (rewrite Eu; vm_compute; reflexivity).
  split; [exact G|]. split; [exact Hu|].
  destruct (Hcell INT32) as (_ & _ & H).
  rewrite (H eq_refl eq_refl boxes_representable).
  vm_compute. reflexivity.
Defined.

(** ** The overlap table *)





(** ** The estimate and the memory bound *)















(** ** The subarray of one range *)

Lemma add_range_valid s i r dlo dhi rs :
  supported_type (domain_type (schema s)) = true ->
  (i < dim_num (schema s))%nat ->
  domain_bounds (schema s) i dlo dhi ->
  ranges_ s !! i = Some rs ->
  range_ok dlo dhi r ->
  add_range s i (Some r)
  = Ret (Ok, set_ranges (flags_cleared s)
               (<[i := Ranges.add_range rs r false]> (ranges_ s))).
Proof.
  intros Hs Hi Hb Hrs Hok. unfold add_range.
  rewrite bool_decide_eq_false_2 by lia.
  destruct (domain_type (schema s)); try discriminate Hs;
    apply (add_range_T_valid s i r dlo dhi rs); assumption.
Qed.

Lemma tile_ids_single c : tile_ids (c, c) = [c].
Proof.
  unfold tile_ids. cbn [fst snd].
  replace (c - c + 1) with 1 by lia.
  change (Z.to_nat 1) with 1%nat. cbn [seq map].
  change (Z.of_nat 0) with 0. rewrite Z.add_0_r. reflexivity.
Qed.

Lemma copy_overlap_column rows : forall col idx,
  Forall2 (fun (row : list TileOverlap) o => row !! Z.to_nat idx = Some o)
    rows col ->
  run_mapM (fun row => run_mapM (fun r => at_ row (Z.to_nat r))
                         (tile_ids (idx, idx))) rows
  = Ret (map (fun o => [o]) col).
Proof.
  intros col idx H. induction H as [|row o rows col Hr _ IH];
    cbn [run_mapM map]; [reflexivity|].
  rewrite IH, tile_ids_single. cbn [run_mapM].
  rewrite (at_Some _ _ _ Hr), !bind_Ret. reflexivity.
Qed.

Lemma range_num_single_stores s t rg :
  rg <> [] -> range_num (fresh s (map (single_store t) rg)) = 1.
Proof.
  intros Hne. rewrite range_num_wrap.
  - unfold range_count, range_nums. cbn [ranges_ fresh].
    rewrite prodZ_ones; [reflexivity|].
    apply Forall_fmap, Forall_fmap, Forall_forall. intros r _. reflexivity.
  - cbn [ranges_ fresh]. destruct rg; [congruence|discriminate].
Qed.

(** X15.  After [compute_range_offsets], if the number of ranges is below
    [2^64] and every stored range passes the checks of [add_range],
    [get_subarray<T>(idx, idx)] for a linear index below [range_num], with
    an overlap table that has an entry for the index in every row, returns
    the subarray of that one range: over the same array and layout, each
    dimension holds exactly the range that [range<T>(idx)] has for it, in
    place of the default range; the subarray consists of one range, its
    overlap table is the column of the index, and both flags are unset. *)
Theorem get_subarray_single :
  forall s0 s idx col,
    Subarray_inv s0 -> compute_range_offsets s0 = Ret s ->
    range_count s < 2 ^ 64 -> 0 <= idx < range_num s ->
    domain_wf (schema s) ->
    supported_type (domain_type (schema s)) = true ->
    stores_ok s ->
    overlap_column s idx = Some col ->
    exists rg ret,
      range s idx = Ret rg
      /\ get_subarray s idx idx = Ret ret
      /\ array_ ret = array_ s /\ layout_ ret = layout_ s
      /\ ranges_ ret = map (single_store (domain_type (schema s))) rg
      /\ length (range_offsets_ ret) = dim_num (schema s)
      /\ tile_overlap_ ret = map (fun o => [o]) col
      /\ result_est_size_computed_ ret = false
      /\ tile_overlap_computed_ ret = false
      /\ range_num ret = 1.
Proof.
  intros s0 s idx col Hinv Hc Hlt Hidx Hwf Hsup Hok Hcol.
  destruct (computed_offsets_inv s0 s Hinv Hc) as [Hinv' Hlen].
  destruct (get_range_coords_succeeds s0 s idx Hinv Hc Hidx) as (c & Hco).
  pose proof (coords_valid s0 s idx c Hinv Hc Hlt Hidx Hco) as Hv.
  destruct (ranges_at_valid (ranges_ s) c Hv) as (rg & Hrg & Hall).
  assert (Hrange : range s idx = Ret rg).
  { rewrite (range_at_coords s idx Hinv' Hlen), Hco, bind_Ret. exact Hrg. }
  pose proof (inv_ranges s Hinv') as Hr.
  pose proof (inv_dim_num s Hinv') as Hd.
  assert (Hcl : length c = dim_num (schema s)).
  { apply Forall2_length in Hv. unfold range_nums in Hv.
    rewrite length_map in Hv. lia. }
  assert (Hrl : length rg = dim_num (schema s)).
  { apply Forall2_length in Hall. rewrite length_zip_with in Hall. lia. }
  set (t := domain_type (schema s)).
  set (defaults := default_stores (schema s) (dim_num (schema s))).
  assert (Hloop :
    exists ret,
      for_up (dim_num (schema s)) 0
        (fun i ret =>
           sc ← at_ c i;
           ec ← at_ c i;
           foldM (copy_range s i) (tile_ids (sc, ec)) ret)
        (half_built (array_ s) (layout_ s) (dim_num (schema s)))
      = Ret ret
      /\ ret = fresh s (map (single_store t) rg)).
  { destruct (for_up_total_inv_idx
                (fun k ret =>
                   ret = fresh s (map (single_store t) (take k rg)
                                  ++ drop k defaults))
                (fun i ret =>
                   sc ← at_ c i;
                   ec ← at_ c i;
                   foldM (copy_range s i) (tile_ids (sc, ec)) ret)
                (dim_num (schema s)) 0%nat
                (half_built (array_ s) (layout_ s) (dim_num (schema s))))
      as (ret & Hret & Pret).
    - intros k ret Hk ->. cbn [Nat.add]. cbv beta.
      destruct (lookup_lt_is_Some_2 c k ltac:(lia)) as [ck Hck].
      destruct (lookup_lt_is_Some_2 (ranges_ s) k ltac:(lia)) as [rs Hrs].
      destruct (lookup_lt_is_Some_2 rg k ltac:(lia)) as [r Hrk].
      assert (Hz : zip (ranges_ s) c !! k = Some (rs, ck)).
      { apply lookup_zip_with_Some. exists rs, ck. auto. }
      pose proof (Forall2_lookup_lr _ _ _ _ _ _ Hall Hrk Hz) as Hro.
      unfold range_of in Hro. cbn [fst snd] in Hro.
      destruct (default_stores_lookup (schema s) (dim_num (schema s)) k
                  Hwf ltac:(lia) Hk) as (lo & hi & Hb & Hdef).
      fold defaults in Hdef. fold t in Hdef.
      pose proof (Forall_lookup_1 _ _ _ _ (Hok k rs lo hi Hrs Hb) Hro) as Hrok.
      set (l1 := map (single_store t) (take k rg)).
      assert (Hl1 : length l1 = k).
      { subst l1. rewrite length_map, length_take. lia. }
      assert (Hstore : (l1 ++ drop k defaults) !! k
                       = Some (default_store t lo hi)).
      { rewrite lookup_app_r by lia. rewrite lookup_drop, Hl1.
        replace (k + (k - k))%nat with k by lia. exact Hdef. }
      rewrite (at_Some _ _ _ Hck), !bind_Ret, tile_ids_single.
      cbn [foldM]. unfold copy_range.
      rewrite (at_Some _ _ _ Hrs), bind_Ret.
      unfold Ranges.get_range. rewrite (at_Some _ _ _ Hro), bind_Ret.
      rewrite (add_range_valid (fresh s (l1 ++ drop k defaults)) k r lo hi
                 (default_store t lo hi) Hsup Hk Hb Hstore Hrok).
      rewrite !bind_Ret. cbn [snd]. eexists. split; [reflexivity|].
      unfold fresh, set_ranges, flags_cleared. cbn. f_equal.
      rewrite insert_app_r_alt by lia. rewrite Hl1, Nat.sub_diag.
      rewrite (drop_S _ _ _ Hdef). cbn [insert list_insert].
      rewrite (take_S_r _ _ _ Hrk), map_app, <- app_assoc. reflexivity.
    - unfold half_built, fresh. cbn [take map app drop].
      rewrite Nat.sub_diag. cbn [replicate]. rewrite app_nil_r. reflexivity.
    - exists ret. split; [exact Hret|]. rewrite Pret. cbn [Nat.add].
      rewrite take_ge by lia.
      rewrite drop_ge by (subst defaults; rewrite length_default_stores; lia).
      rewrite app_nil_r. reflexivity. }
  destruct Hloop as (ret & Hret & ->).
  apply mapM_Some in Hcol.
  set (ret1 := set_tile_overlap (fresh s (map (single_store t) rg))
                 (map (fun o => [o]) col)).
  assert (Hinv1 : Subarray_inv ret1).
  { split; [exact Hd|]. subst ret1. cbn [ranges_ set_tile_overlap fresh].
    rewrite length_map. exact Hrl. }
  assert (Hfinal : exists offs,
             compute_range_offsets ret1 = Ret (set_range_offsets ret1 offs)
             /\ length offs = dim_num (schema s)).
  { destruct (compute_range_offsets_inv s0 s Hinv Hc) as [[HL ->]|[HL ->]].
    - eexists. split.
      + apply compute_range_offsets_row; [exact Hinv1|exact HL].
      + rewrite length_rev, length_map, length_prefix_prods, length_rev,
          length_range_nums. exact (inv_ranges ret1 Hinv1).
    - eexists. split.
      + apply compute_range_offsets_col; [exact Hinv1|exact HL].
      + rewrite length_map, length_prefix_prods, length_range_nums.
        exact (inv_ranges ret1 Hinv1). }
  destruct Hfinal as (offs & Hfinal & Hoffs).
  exists rg, (set_range_offsets ret1 offs).
  split; [exact Hrange|]. split.
  { unfold get_subarray.
    rewrite (Subarray_new_value (array_ s) (layout_ s) Hwf), bind_Ret,
      Hco, !bind_Ret.
    change (dim_num (array_schema (array_ s))) with (dim_num (schema s)).
    rewrite Hret, bind_Ret.
    rewrite (copy_overlap_column (tile_overlap_ s) col idx Hcol), bind_Ret.
    exact Hfinal. }
  subst ret1.
  cbn [array_ layout_ ranges_ range_offsets_ tile_overlap_
       result_est_size_computed_ tile_overlap_computed_
       set_range_offsets set_tile_overlap fresh].
  repeat (split; [reflexivity|]).
  split; [exact Hoffs|]. repeat (split; [reflexivity|]).
  change (range_num (fresh s (map (single_store t) rg)) = 1).
  apply range_num_single_stores.
  intros E. rewrite E in Hrl. simpl in Hrl. lia.
Qed.

Lemma boxes_stores_ok : stores_ok boxes.
Proof.
  intros i rs dlo dhi Hrs [Hlo Hhi].
  destruct i as [|[|i]]; cbn in Hrs, Hlo, Hhi; try discriminate Hrs;
    inversion Hrs; inversion Hlo; inversion Hhi; subst;
    repeat constructor.
Qed.

(** The theorem at the subarray of 2 x 1 ranges [[0, 9]], [[20, 24]] x
    [[5, 7]] and the linear index 1: the new subarray holds [[20, 24]] and
    [[5, 7]]. *)
Lemma get_subarray_single_witness :
  exists ret,
    get_subarray boxes 1 1 = Ret ret
    /\ ranges_ ret
       = [single_store INT32 (SInt 20, SInt 24);
          single_store INT32 (SInt 5, SInt 7)]
    /\ range_num ret = 1.
Proof.
  assert (Hc : compute_range_offsets boxes = Ret boxes)
    by (vm_compute; reflexivity).
  assert (Hlt : range_count boxes < 2 ^ 64) by (vm_compute; reflexivity).
  assert (Hidx : 0 <= 1 < range_num boxes)
    by (vm_compute; split; [discriminate|reflexivity]).
  destruct (get_subarray_single boxes boxes 1 [] boxes_inv Hc Hlt Hidx
              eq_refl eq_refl boxes_stores_ok eq_refl)
    as (rg & ret & Hrg & Hret & _ & _ & Hranges & _ & _ & _ & _ & Hnum).
  assert (G : range boxes 1 = Ret [(SInt 20, SInt 24); (SInt 5, SInt 7)])
    by (vm_compute; reflexivity).
  rewrite G in Hrg. inversion Hrg; subst rg.
  exists ret. split; [exact Hret|]. split; [exact Hranges|exact Hnum].
Defined.
